(** * Forecasting engine of the szhb dashboard: a shallow embedding

    The JavaScript sources embedded here are the prediction service
    (linearRegression, detectTimeInterval, generatePrediction,
    validateModelDataRequirements), the four model files (exponential
    smoothing, moving average, polynomial regression, simplified ARIMA),
    the time-series loader of the local data service and the prediction
    controller.

    Numbers.  A JavaScript number is modelled by [num]: an exact rational
    ([Qc], canonical fractions, so that equal numbers are equal terms) or
    one of the three special values Infinity, -Infinity and NaN, with the
    IEEE rules for the special values.  There is no rounding and no
    negative zero: the development speaks about the code in exact
    arithmetic.  [undefined] read from an array in an arithmetic position
    is NaN, which is what JavaScript computes with it.

    Doubles.  Two places compute on binary64 numbers, as the code does.
    The index [Math.floor(n * 0.7)] of the parameter search is computed
    with the double 0.7, since the rounding decides which values are
    read (for 90 values it is 62, not 63).  The module [Doubles] carries
    the simple moving average on doubles, statement for statement, to
    show where rounding makes the result of the code differ from the
    result in exact arithmetic.

    Integers (times, periods, season lengths, orders) are
    [Z]: the development takes the numeric request parameters to be
    integers of the safe range, and the fields of [modelParams] to have
    the types the models expect (an absent field is [None]).  The window
    size of the moving averages is any number: the code accepts a
    fraction, an infinity or NaN there, and so does the model.

    Arrays are lists.  A read past the end of an array of numbers gives
    NaN, a write past the end extends the list.  Objects used as maps
    are association lists in insertion order, with the enumeration order
    of JavaScript written out where the code enumerates keys.

    Exceptions are values of [error] carried by [result]; a try/catch is
    a match on the result.  The asynchronous controller is modelled by
    the pure function from the request and the contents of the data
    files to the response.

    Layout.  The embedding of the sources comes first, then the
    vocabulary of the properties and the sample inputs, then the
    properties: those of the specification (C1 to C10), and further
    properties of the same code (X1 to X21). *)

From Stdlib Require Import String ZArith QArith Qcanon Qcabs Qround List Bool Lia.
From Stdlib Require Import DecimalString DecimalZ.
From Stdlib Require Import Sorting.Permutation Sorting.Sorted.
From Stdlib Require Import Floats.
Import ListNotations.

Set Implicit Arguments.

(* ================================================================== *)
(** ** Numbers *)
(* ================================================================== *)

Module Num.

Inductive num : Type :=
| Fin (q : Qc)
| PInf
| NInf
| NaN.

Definition ofZ (z : Z) : num := Fin (Q2Qc (inject_Z z)).
Definition ofQ (a : Z) (b : positive) : num := Fin (Q2Qc (a # b)).

Definition zero : num := ofZ 0.
Definition one : num := ofZ 1.

Definition add (a b : num) : num :=
  match a, b with
  | NaN, _ | _, NaN => NaN
  | Fin x, Fin y => Fin (x + y)
  | PInf, NInf | NInf, PInf => NaN
  | PInf, _ | _, PInf => PInf
  | NInf, _ | _, NInf => NInf
  end.

Definition neg (a : num) : num :=
  match a with
  | Fin x => Fin (- x)
  | PInf => NInf
  | NInf => PInf
  | NaN => NaN
  end.

Definition sub (a b : num) : num := add a (neg b).

(** Sign of a rational, as a comparison with 0. *)
Definition sgn (x : Qc) : comparison := (x ?= 0)%Qc.

Definition mul (a b : num) : num :=
  match a, b with
  | NaN, _ | _, NaN => NaN
  | Fin x, Fin y => Fin (x * y)
  | Fin x, PInf | PInf, Fin x =>
      match sgn x with Eq => NaN | Gt => PInf | Lt => NInf end
  | Fin x, NInf | NInf, Fin x =>
      match sgn x with Eq => NaN | Gt => NInf | Lt => PInf end
  | PInf, PInf | NInf, NInf => PInf
  | PInf, NInf | NInf, PInf => NInf
  end.

Definition div (a b : num) : num :=
  match a, b with
  | NaN, _ | _, NaN => NaN
  | Fin x, Fin y =>
      match sgn y with
      | Eq => match sgn x with Eq => NaN | Gt => PInf | Lt => NInf end
      | _ => Fin (x / y)
      end
  | Fin _, PInf | Fin _, NInf => Fin 0
  | PInf, PInf | PInf, NInf | NInf, PInf | NInf, NInf => NaN
  | PInf, Fin y => match sgn y with Lt => NInf | _ => PInf end
  | NInf, Fin y => match sgn y with Lt => PInf | _ => NInf end
  end.

Definition abs (a : num) : num :=
  match a with
  | Fin x => Fin (Qcabs x)
  | PInf | NInf => PInf
  | NaN => NaN
  end.

(** Math.pow(x, j) for a non-negative integer exponent: pow(x, 0) is 1
    for every x, NaN included. *)
Fixpoint pow (x : num) (j : nat) : num :=
  match j with
  | O => one
  | S O => x
  | S j' => mul x (pow x j')
  end.

(** Comparison; [None] when one side is NaN (every JavaScript comparison
    with NaN is false). *)
Definition cmp (a b : num) : option comparison :=
  match a, b with
  | NaN, _ | _, NaN => None
  | Fin x, Fin y => Some (x ?= y)%Qc
  | PInf, PInf | NInf, NInf => Some Eq
  | PInf, _ | _, NInf => Some Gt
  | NInf, _ | _, PInf => Some Lt
  end.

Definition lt (a b : num) : bool :=
  match cmp a b with Some Lt => true | _ => false end.
Definition gt (a b : num) : bool :=
  match cmp a b with Some Gt => true | _ => false end.
Definition le (a b : num) : bool :=
  match cmp a b with Some Lt | Some Eq => true | _ => false end.
Definition ge (a b : num) : bool :=
  match cmp a b with Some Gt | Some Eq => true | _ => false end.
(** [===] on two numbers *)
Definition eqb (a b : num) : bool :=
  match cmp a b with Some Eq => true | _ => false end.

Definition isNaN (a : num) : bool :=
  match a with NaN => true | _ => false end.

Definition isFin (a : num) : bool :=
  match a with Fin _ => true | _ => false end.

(** Truthiness of a number: 0 and NaN are falsy. *)
Definition truthy (a : num) : bool :=
  match a with
  | NaN => false
  | Fin x => negb (Qc_eq_bool x 0)
  | _ => true
  end.

(** [a || b] on numbers *)
Definition or_else (a b : num) : num := if truthy a then a else b.

(** Math.max(...l) and Math.min(...l) *)
Definition max2 (a b : num) : num :=
  match a, b with
  | NaN, _ | _, NaN => NaN
  | _, _ => if lt a b then b else a
  end.
Definition min2 (a b : num) : num :=
  match a, b with
  | NaN, _ | _, NaN => NaN
  | _, _ => if lt b a then b else a
  end.
Definition maxl (l : list num) : num := fold_left max2 l NInf.
Definition minl (l : list num) : num := fold_left min2 l PInf.

(** [Math.sqrt(v) / m > t] for a rational threshold [t > 0], decided
    without forming the root: for [v], [m] finite, the root of a negative
    number is NaN, a non-positive quotient is not above [t], a positive
    number over 0 is Infinity, and for [m > 0] the test is [v > (t*m)^2]. *)
Definition sqrt_div_gt (v m : num) (t : Qc) : bool :=
  match v, m with
  | Fin x, Fin y =>
      match sgn x with
      | Lt => false
      | Eq => false
      | Gt => match sgn y with
              | Lt => false
              | Eq => true
              | Gt => match (x ?= (t * y) * (t * y))%Qc with Gt => true | _ => false end
              end
      end
  | PInf, Fin y => match sgn y with Lt => false | _ => true end
  | _, _ => false
  end.

(** Decidable Leibniz equality, through the canonical form. *)
Definition beq (a b : num) : bool :=
  match a, b with
  | Fin x, Fin y => Qc_eq_bool x y
  | PInf, PInf | NInf, NInf | NaN, NaN => true
  | _, _ => false
  end.

Fixpoint beql (l1 l2 : list num) : bool :=
  match l1, l2 with
  | [], [] => true
  | a :: l1', b :: l2' => beq a b && beql l1' l2'
  | _, _ => false
  end.

End Num.

Export Num.

Declare Scope num_scope.
Delimit Scope num_scope with num.
Bind Scope num_scope with num.
Infix "+" := add : num_scope.
Infix "-" := sub : num_scope.
Infix "*" := mul : num_scope.
Infix "/" := div : num_scope.

(* ================================================================== *)
(** ** JavaScript arrays of numbers *)
(* ================================================================== *)

(** [a[i]] read in an arithmetic position: out of range is undefined,
    which computes as NaN. *)
Definition get (l : list num) (i : Z) : num :=
  if (i <? 0)%Z then NaN else nth (Z.to_nat i) l NaN.

(** [a[i] = x]: in range it replaces, past the end it extends the array
    (the holes read as undefined); a negative index is not an element. *)
Fixpoint set_nat (l : list num) (i : nat) (x : num) : list num :=
  match i, l with
  | O, [] => [x]
  | O, _ :: l' => x :: l'
  | S i', [] => NaN :: set_nat [] i' x
  | S i', a :: l' => a :: set_nat l' i' x
  end.

Definition set (l : list num) (i : Z) (x : num) : list num :=
  if (i <? 0)%Z then l else set_nat l (Z.to_nat i) x.

(** Relative index of [Array.prototype.slice]. *)
Definition rel_index (len k : Z) : Z :=
  if (k <? 0)%Z then Z.max (len + k) 0 else Z.min k len.

(** [a.slice(from, to)] *)
Definition slice {A} (l : list A) (from to : Z) : list A :=
  let len := Z.of_nat (length l) in
  let f := rel_index len from in
  let t := rel_index len to in
  firstn (Z.to_nat (t - f)) (skipn (Z.to_nat f) l).

(** [a.slice(from)] *)
Definition slice_from {A} (l : list A) (from : Z) : list A :=
  slice l from (Z.of_nat (length l)).

(** [ToIntegerOrInfinity] of a rational: the fraction is dropped. *)
Definition truncQ (q : Qc) : Z := Z.quot (Qnum q) (Z.pos (Qden q)).

(** The relative index of [slice] for an argument that is any number:
    NaN counts as 0 and the infinities as the two ends. *)
Definition rel_index_num (len : Z) (a : num) : Z :=
  match a with
  | Fin q => rel_index len (truncQ q)
  | PInf => len
  | NInf => 0%Z
  | NaN => rel_index len 0
  end.

(** [a.slice(from, to)] and [a.slice(from)] with numbers as arguments. *)
Definition slice_num {A} (l : list A) (from to : num) : list A :=
  let len := Z.of_nat (length l) in
  let f := rel_index_num len from in
  let t := rel_index_num len to in
  firstn (Z.to_nat (t - f)) (skipn (Z.to_nat f) l).

Definition slice_num_from {A} (l : list A) (from : num) : list A :=
  let len := Z.of_nat (length l) in
  let f := rel_index_num len from in
  firstn (Z.to_nat (len - f)) (skipn (Z.to_nat f) l).

(** [a.reduce((s, v) => s + v, 0)] *)
Definition sum (l : list num) : num := fold_left add l zero.

(** The integers [lo, lo+1, ..., hi-1] of a counting loop. *)
Definition zrange (lo hi : Z) : list Z :=
  map (fun k => (lo + Z.of_nat k)%Z) (seq 0 (Z.to_nat (hi - lo))).

Definition len {A} (l : list A) : Z := Z.of_nat (length l).

(** [a.map((x, index) => ...)] *)
Definition mapi {A B} (f : A -> nat -> B) (l : list A) : list B :=
  map (fun '(i, a) => f a i) (combine (seq 0 (length l)) l).

(** [a.forEach((x, index) => ...)] threading an accumulator. *)
Fixpoint foldi {A S} (f : S -> A -> Z -> S) (l : list A) (i : Z) (s : S) : S :=
  match l with
  | [] => s
  | a :: l' => foldi f l' (i + 1)%Z (f s a i)
  end.

(** [n] in a position where the code computes with it as a number. *)
Notation "$ z" := (ofZ z) (at level 5, format "$ z") : num_scope.

(** The integers a loop [for (i = lo; i < w; i++)] visits, and those of
    [for (i = lo; i <= w; i++)], for a bound [w] that is a number other
    than +Infinity: a comparison with NaN or -Infinity ends the loop at
    once.  (The bounds the code loops to are never +Infinity.) *)
Definition countBelow (lo : Z) (w : num) : list Z :=
  match w with
  | Fin q => zrange lo (Qceiling q)
  | _ => []
  end.

Definition countUpTo (lo : Z) (w : num) : list Z :=
  match w with
  | Fin q => zrange lo (Qfloor q + 1)
  | _ => []
  end.

(* ================================================================== *)
(** ** Binary64 numbers *)
(* ================================================================== *)

Module Double.

(** An integer of the safe range as a double. *)
Definition ofZ (z : Z) : float :=
  if (z <? 0)%Z then PrimFloat.opp (PrimFloat.of_uint63 (Uint63.of_Z (- z)))
  else PrimFloat.of_uint63 (Uint63.of_Z z).

(** The integer part of the magnitude [m * 2^e] of a finite double, and
    whether the magnitude is that integer. *)
Definition magnitude (m : positive) (e : Z) : Z * bool :=
  if (0 <=? e)%Z then ((Z.pos m * 2 ^ e)%Z, true)
  else ((Z.pos m / 2 ^ (- e))%Z, (Z.pos m mod 2 ^ (- e) =? 0)%Z).

(** [Math.floor] of a finite double. *)
Definition floor (f : float) : Z :=
  match Prim2SF f with
  | S754_finite s m e =>
      let '(v, exact) := magnitude m e in
      if s then (if exact then - v else - v - 1)%Z else v
  | _ => 0%Z
  end.

(** [ToIntegerOrInfinity] of a finite double. *)
Definition trunc (f : float) : Z :=
  match Prim2SF f with
  | S754_finite s m e =>
      let '(v, _) := magnitude m e in
      if s then (- v)%Z else v
  | _ => 0%Z
  end.

(** The double nearest to 0.7. *)
Definition d0_7 : float := 0x1.6666666666666p-1%float.

End Double.

(** The decimal literals the sources use. *)
Definition c0_05 : num := ofQ 5 100.
Definition c0_1 : num := ofQ 1 10.
Definition c0_3 : num := ofQ 3 10.
Definition c0_8 : num := ofQ 8 10.
Definition c100 : num := ofZ 100.
(** 1e-10 *)
Definition eps : num := ofQ 1 10000000000.

(* ================================================================== *)
(** ** Errors and results *)
(* ================================================================== *)

(** One constructor per [throw new Error(...)] of the sources; the
    comment gives the message. *)
Inductive error : Type :=
| HistoryTooShort            (* 历史数据不足，至少需要2个数据点 *)
| InvalidPeriods             (* 预测周期数必须大于0 *)
| LinearTooFew               (* 数据点不足，至少需要2个数据点 *)
| LinearDegenerate           (* 无法计算线性回归，数据可能存在问题 *)
| UnsupportedModel (m : string)             (* 不支持的预测模型: m *)
| ModelFailed (m : string) (cause : error)  (* 模型 m 预测失败: cause *)
| SingleTooFew               (* 单指数平滑至少需要3个数据点 *)
| DoubleTooFew               (* 双指数平滑至少需要3个数据点 *)
| TripleTooFew (need : Z)    (* 三指数平滑至少需要 need 个数据点 *)
| ExponentialTooFew          (* 指数平滑至少需要3个数据点 *)
| SimpleMATooFew             (* 简单移动平均至少需要2个数据点 *)
| WeightedMATooFew           (* 加权移动平均至少需要2个数据点 *)
| ExponentialMATooFew        (* 指数移动平均至少需要2个数据点 *)
| MovingAverageTooFew        (* 移动平均至少需要2个数据点 *)
| PolynomialTooFew (need : Z)(* 多项式回归至少需要 need 个数据点 *)
| PolynomialBadDegree        (* 多项式次数必须是2、3或"auto" *)
| SingularMatrix             (* 矩阵奇异，无法求解 *)
| ARTooFew (order need : Z)  (* AR(order)模型至少需要 need 个数据点 *)
| ArimaNeeds20               (* ARIMA模型至少需要20个数据点 *)
| ArimaOrderTooFew (p d q need : Z)
                             (* 数据点不足，ARIMA(p,d,q)需要至少 need 个数据点 *)
| DataFileUnreadable.        (* 读取数据文件失败: ... *)

Inductive result (A : Type) : Type :=
| Ok (a : A)
| Err (e : error).
Arguments Ok {A} a.
Arguments Err {A} e.

Definition bind {A B} (r : result A) (k : A -> result B) : result B :=
  match r with
  | Ok a => k a
  | Err e => Err e
  end.

Notation "x <- r ;; k" := (bind r (fun x => k))
  (at level 61, r at next level, right associativity).

(** [try { body } catch (e) { throw h(e) }] *)
Definition rethrow {A} (h : error -> error) (r : result A) : result A :=
  match r with
  | Ok a => Ok a
  | Err e => Err (h e)
  end.

Definition isOk {A} (r : result A) : bool :=
  match r with Ok _ => true | Err _ => false end.

(* ================================================================== *)
(** ** Data model *)
(* ================================================================== *)

(** A historical point [{time, value}]. *)
Record point : Type := mkPoint { time : Z; value : num }.

Definition values (data : list point) : list num := map value data.

(** The optional [modelParams] object of a request, with the types the
    models expect of its fields; [None] is an absent field. *)
Inductive jsdegree : Type :=
| DNum (z : Z)
| DStr (s : string).

Record modelParams : Type := mkParams {
  mp_type : option string;
  mp_windowSize : option num;
  mp_alpha : option num;
  mp_seasonLength : option Z;
  mp_degree : option jsdegree;
  mp_p : option Z;
  mp_d : option Z;
  mp_q : option Z
}.

Definition noParams : modelParams :=
  mkParams None None None None None None None None.

(** [x || dflt] for an optional integer: absent and 0 are falsy. *)
Definition orZ (x : option Z) (dflt : Z) : Z :=
  match x with
  | Some v => if (v =? 0)%Z then dflt else v
  | None => dflt
  end.

(** Truthiness of an optional integer. *)
Definition truthyZ (x : option Z) : bool :=
  match x with
  | Some v => negb (v =? 0)%Z
  | None => false
  end.

(** [s || dflt] for an optional string: absent and empty are falsy. *)
Definition orStr (x : option string) (dflt : string) : string :=
  match x with
  | Some EmptyString => dflt
  | Some s => s
  | None => dflt
  end.

(** The predictions the loops [for (let i = 0; i < periods; i++)] push. *)
Definition forPeriods (periods : Z) (f : Z -> num) : list num :=
  map f (zrange 0 periods).

(* ================================================================== *)
(** ** Stable sorting ([Array.prototype.sort] with a key comparator) *)
(* ================================================================== *)

Section SortBy.
Context {A : Type} (key : A -> Z).

Fixpoint insert_by (a : A) (l : list A) : list A :=
  match l with
  | [] => [a]
  | b :: l' => if (key a <=? key b)%Z then a :: b :: l' else b :: insert_by a l'
  end.

(** [l.sort((a, b) => key(a) - key(b))]: the sort is stable, so its
    result is the one arrangement that insertion from the right
    computes. *)
Definition sort_by (l : list A) : list A := fold_right insert_by [] l.
End SortBy.

(* ================================================================== *)
(** ** Linear algebra kernel: solveLinearSystem

    polynomialRegression.js and arima.js each carry a copy of this
    function; the two copies are the same statement for statement. *)
(* ================================================================== *)

Module LinearSolver.

Definition matrix := list (list num).

Definition row (m : matrix) (k : nat) : list num := nth k m [].
Definition getn (l : list num) (j : nat) : num := nth j l NaN.
Definition entry (m : matrix) (k j : nat) : num := getn (row m k) j.

Fixpoint setRow (m : matrix) (k : nat) (r : list num) : matrix :=
  match k, m with
  | _, [] => []
  | O, _ :: m' => r :: m'
  | S k', a :: m' => a :: setRow m' k' r
  end.

(** [A.map((row, i) => [...row, b[i]])] *)
Fixpoint augment (A : matrix) (b : list num) (i : nat) : matrix :=
  match A with
  | [] => []
  | r :: A' => (r ++ [getn b i]) :: augment A' b (S i)
  end.

(** The search for the pivot row of column [i]. *)
Definition findMaxRow (aug : matrix) (i n : nat) : nat :=
  fold_left
    (fun maxRow k =>
       if gt (abs (entry aug k i)) (abs (entry aug maxRow i)) then k else maxRow)
    (seq (S i) (n - S i)) i.

(** [[augmented[i], augmented[maxRow]] = [augmented[maxRow], augmented[i]]] *)
Definition swapRows (aug : matrix) (i m : nat) : matrix :=
  let ri := row aug i in
  let rm := row aug m in
  setRow (setRow aug i rm) m ri.

(** The inner loop over [j] for one row [k]. *)
Definition elimRow (pivotRow rowk : list num) (i n : nat) : list num :=
  let factor := (getn rowk i / getn pivotRow i)%num in
  fold_left
    (fun r j => set_nat r j (getn r j - factor * getn pivotRow j)%num)
    (seq i (S n - i)) rowk.

Definition eliminate (aug : matrix) (i n : nat) : matrix :=
  fold_left
    (fun a k => setRow a k (elimRow (row a i) (row a k) i n))
    (seq (S i) (n - S i)) aug.

(** The pivot of step [i], read after the swap. *)
Definition pivotAfterSwap (aug : matrix) (i n : nat) : num :=
  entry (swapRows aug i (findMaxRow aug i n)) i i.

Definition pivotTooSmall (aug : matrix) (i n : nat) : bool :=
  lt (abs (pivotAfterSwap aug i n)) eps.

(** One iteration of the forward-elimination loop. *)
Definition forwardStep (aug : matrix) (i n : nat) : result matrix :=
  if pivotTooSmall aug i n then Err SingularMatrix
  else Ok (eliminate (swapRows aug i (findMaxRow aug i n)) i n).

(** The loop, from [i] for [steps] iterations. *)
Fixpoint forward (steps : nat) (aug : matrix) (i n : nat) : result matrix :=
  match steps with
  | O => Ok aug
  | S steps' =>
      aug' <- forwardStep aug i n ;;
      forward steps' aug' (S i) n
  end.

(** Back substitution for row [i]. *)
Definition backRow (aug : matrix) (n : nat) (x : list num) (i : nat) : list num :=
  let xi := fold_left
              (fun acc j => (acc - entry aug i j * getn x j)%num)
              (seq (S i) (n - S i)) (entry aug i n) in
  set_nat x i (xi / entry aug i i)%num.

Definition backSubstitute (aug : matrix) (n : nat) : list num :=
  fold_left (backRow aug n) (rev (seq 0 n)) (repeat NaN n).

Definition solveLinearSystem (A : matrix) (b : list num) : result (list num) :=
  let n := length A in
  let augmented := augment A b 0 in
  aug <- forward n augmented 0 n ;;
  Ok (backSubstitute aug n).

End LinearSolver.

(* ================================================================== *)
(** ** predictionModels/polynomialRegression.js *)
(* ================================================================== *)

Module PolynomialRegression.

Definition solveLinearSystem := LinearSolver.solveLinearSystem.

(** The index sequence [x = data.map((_, index) => index)]. *)
Definition indices (data : list point) : list Z := zrange 0 (len data).

Definition calculatePolynomialCoefficients (data : list point) (degree : Z)
  : result (list num) :=
  if (len data <? degree + 1)%Z then Err (PolynomialTooFew (degree + 1)) else
  let x := indices data in
  let y := values data in
  let powers := seq 0 (Z.to_nat (degree + 1)) in
  let AtA :=
    map (fun i =>
      map (fun j =>
        fold_left (fun s xk => (s + pow $xk i * pow $xk j)%num) x zero)
        powers)
      powers in
  let Aty :=
    map (fun i =>
      fold_left (fun s '(xk, yk) => (s + pow $xk i * yk)%num) (combine x y) zero)
      powers in
  solveLinearSystem AtA Aty.

Definition evaluatePolynomial (coeffs : list num) (x : Z) : num :=
  foldi (fun s c i => (s + c * pow $x (Z.to_nat i))%num) coeffs 0 zero.

Definition polynomialRegression2 (data : list point) (periods : Z)
  : result (list num) :=
  coeffs <- calculatePolynomialCoefficients data 2 ;;
  let n := len data in
  Ok (forPeriods periods (fun i => evaluatePolynomial coeffs (n + i))).

Definition polynomialRegression3 (data : list point) (periods : Z)
  : result (list num) :=
  coeffs <- calculatePolynomialCoefficients data 3 ;;
  let n := len data in
  Ok (forPeriods periods (fun i => evaluatePolynomial coeffs (n + i))).

(** R² of the in-sample fit of one degree. *)
Definition rSquared (data : list point) (coeffs : list num) : num :=
  let n := len data in
  let yMean := (sum (values data) / $n)%num in
  let '(ssRes, ssTot) :=
    foldi (fun '(ssRes, ssTot) d i =>
             let predicted := evaluatePolynomial coeffs i in
             let actual := value d in
             ((ssRes + pow (actual - predicted) 2)%num,
              (ssTot + pow (actual - yMean) 2)%num))
          data 0 (zero, zero) in
  (one - ssRes / ssTot)%num.

(** One turn of the loop over [degree]: the state is
    [(bestDegree, bestR2)]; a failure of the fit is caught and skipped. *)
Definition tryDegree (data : list point) (st : Z * num) (degree : Z) : Z * num :=
  let '(bestDegree, bestR2) := st in
  if (len data <? degree + 1)%Z then st else
  match calculatePolynomialCoefficients data degree with
  | Err _ => st
  | Ok coeffs =>
      let r2 := rSquared data coeffs in
      if gt r2 bestR2 then (degree, r2) else st
  end.

Definition polynomialRegressionAuto (data : list point) (periods : Z)
  : result (list num) :=
  if (len data <? 4)%Z then polynomialRegression2 data periods else
  let '(bestDegree, _) := fold_left (tryDegree data) [2; 3]%Z (2%Z, NInf) in
  if (bestDegree =? 2)%Z then polynomialRegression2 data periods
  else polynomialRegression3 data periods.

(** The [degree] argument: the string 'auto', a number, or another string. *)
Definition polynomialRegression (data : list point) (periods : Z) (degree : jsdegree)
  : result (list num) :=
  if (len data <? 3)%Z then Err (PolynomialTooFew 3) else
  match degree with
  | DStr s =>
      if String.eqb s "auto" then polynomialRegressionAuto data periods
      else Err PolynomialBadDegree
  | DNum z =>
      if (z =? 2)%Z then polynomialRegression2 data periods
      else if (z =? 3)%Z then polynomialRegression3 data periods
      else Err PolynomialBadDegree
  end.

End PolynomialRegression.

(* ================================================================== *)
(** ** predictionModels/movingAverage.js *)
(* ================================================================== *)

Module MovingAverage.

(** The window actually used, for a [windowSize] that is null or any
    number: the default when it is null or below 2, then the cap at
    [n - 1].  The result is a rational or NaN: +Infinity is capped, and
    -Infinity is below 2. *)
Definition resolveWindow (n : Z) (windowSize : option num) : num :=
  let dflt := ($(Z.max 2 (n / 3)))%num in
  let w := match windowSize with
           | None => dflt
           | Some w => if lt w ($2)%num then dflt else w
           end in
  if ge w ($n)%num then ($(n - 1))%num else w.

Definition simpleMovingAverage (data : list point) (periods : Z)
  (windowSize : option num) : result (list num) :=
  if (len data <? 2)%Z then Err SimpleMATooFew else
  let vals := values data in
  let n := len vals in
  let windowSize := resolveWindow n windowSize in
  let lastWindow := slice_num_from vals ($n - windowSize)%num in
  let avg := (sum lastWindow / windowSize)%num in
  let trend :=
    if ge ($n)%num (windowSize * $2)%num then
      let prevWindow :=
        slice_num vals ($n - windowSize * $2)%num ($n - windowSize)%num in
      let prevAvg := (sum prevWindow / windowSize)%num in
      ((avg - prevAvg) / windowSize)%num
    else zero in
  Ok (forPeriods periods (fun i => (avg + trend * $(i + 1))%num)).

(** [for (i = 0; i < windowSize; i++) s += window[i] * weights[i]] *)
Definition weightedSumOf (window weights : list num) (windowSize : num) : num :=
  fold_left (fun s i => (s + get window i * get weights i)%num)
            (countBelow 0 windowSize) zero.

Definition weightedMovingAverage (data : list point) (periods : Z)
  (windowSize : option num) : result (list num) :=
  if (len data <? 2)%Z then Err WeightedMATooFew else
  let vals := values data in
  let n := len vals in
  let windowSize := resolveWindow n windowSize in
  let weightSum := ((windowSize * (windowSize + one)) / $2)%num in
  let weights := map (fun i => ($i / weightSum)%num) (countUpTo 1 windowSize) in
  let lastWindow := slice_num_from vals ($n - windowSize)%num in
  let weightedSum := weightedSumOf lastWindow weights windowSize in
  let trend :=
    if ge ($n)%num (windowSize * $2)%num then
      let prevWindow :=
        slice_num vals ($n - windowSize * $2)%num ($n - windowSize)%num in
      let prevWeightedSum := weightedSumOf prevWindow weights windowSize in
      ((weightedSum - prevWeightedSum) / windowSize)%num
    else zero in
  Ok (forPeriods periods (fun i => (weightedSum + trend * $(i + 1))%num)).

(** The recurrence [s = alpha * v + (1 - alpha) * prev] along the values
    that follow the first. *)
Fixpoint smooth (alpha prev : num) (vs : list num) : list num :=
  match vs with
  | [] => []
  | v :: vs' =>
      let s := (alpha * v + (one - alpha) * prev)%num in
      s :: smooth alpha s vs'
  end.

Definition exponentialMovingAverage (data : list point) (periods : Z)
  (alpha : option num) : result (list num) :=
  if (len data <? 2)%Z then Err ExponentialMATooFew else
  let alpha := match alpha with None => c0_3 | Some a => a end in
  let alpha := if le alpha zero || ge alpha one then c0_3 else alpha in
  let vals := values data in
  let n := len vals in
  let ema := get vals 0 :: smooth alpha (get vals 0) (tl vals) in
  let trend :=
    if (n >=? 3)%Z then
      let recentEma := slice_from ema (-3) in
      ((get recentEma 2 - get recentEma 0) / $2)%num
    else zero in
  let lastEma := get ema (n - 1) in
  Ok (forPeriods periods (fun i => (lastEma + trend * $(i + 1))%num)).

Definition movingAverage (data : list point) (periods : Z) (type : string)
  (windowSize : option num) (alpha : option num) : result (list num) :=
  if (len data <? 2)%Z then Err MovingAverageTooFew else
  let type := if String.eqb type "auto" then "simple"%string else type in
  if String.eqb type "simple" then simpleMovingAverage data periods windowSize
  else if String.eqb type "weighted" then weightedMovingAverage data periods windowSize
  else if String.eqb type "exponential" then exponentialMovingAverage data periods alpha
  else simpleMovingAverage data periods windowSize.

End MovingAverage.

(* ================================================================== *)
(** ** movingAverage.js on doubles: simpleMovingAverage

    The same statements as [MovingAverage.simpleMovingAverage], with the
    values and the window size as binary64 numbers and the arithmetic of
    the machine. *)
(* ================================================================== *)

Module Doubles.

Local Open Scope float_scope.

(** A historical point whose value is a double. *)
Record sample : Type := mkSample { s_time : Z; s_value : float }.

(** [a.reduce((sum, val) => sum + val, 0)] *)
Definition sum (l : list float) : float := fold_left PrimFloat.add l 0.

(** The relative index of [slice] for an argument that is a double. *)
Definition rel_index_double (len : Z) (a : float) : Z :=
  match Prim2SF a with
  | S754_nan => rel_index len 0
  | S754_infinity false => len
  | S754_infinity true => 0%Z
  | _ => rel_index len (Double.trunc a)
  end.

Definition slice {A} (l : list A) (from to : float) : list A :=
  let len := Z.of_nat (length l) in
  let f := rel_index_double len from in
  let t := rel_index_double len to in
  firstn (Z.to_nat (t - f)) (skipn (Z.to_nat f) l).

Definition slice_from {A} (l : list A) (from : float) : list A :=
  let len := Z.of_nat (length l) in
  let f := rel_index_double len from in
  firstn (Z.to_nat (len - f)) (skipn (Z.to_nat f) l).

Definition simpleMovingAverage (data : list sample) (periods : Z)
  (windowSize : option float) : result (list float) :=
  if (len data <? 2)%Z then Err SimpleMATooFew else
  let vals := map s_value data in
  let n := Double.ofZ (len vals) in
  let dflt := Double.ofZ (Z.max 2 (Double.floor (n / 3))) in
  let windowSize := match windowSize with
                    | None => dflt
                    | Some w => if PrimFloat.ltb w 2 then dflt else w
                    end in
  let windowSize := if PrimFloat.leb n windowSize then n - 1 else windowSize in
  let lastWindow := slice_from vals (n - windowSize) in
  let avg := sum lastWindow / windowSize in
  let trend :=
    if PrimFloat.leb (windowSize * 2) n then
      let prevWindow := slice vals (n - windowSize * 2) (n - windowSize) in
      let prevAvg := sum prevWindow / windowSize in
      (avg - prevAvg) / windowSize
    else 0 in
  Ok (map (fun i => avg + trend * Double.ofZ (i + 1)) (zrange 0 periods)).

End Doubles.

(* ================================================================== *)
(** ** predictionModels/exponentialSmoothing.js *)
(* ================================================================== *)

Module ExponentialSmoothing.

(** The values a loop [for (a = start; a <= stop; a += step)] visits. *)
Fixpoint frange (fuel : nat) (a stop step : Qc) : list Qc :=
  match fuel with
  | O => []
  | S fuel' =>
      match (a ?= stop)%Qc with
      | Gt => []
      | _ => a :: frange fuel' (a + step)%Qc stop step
      end
  end.

Definition alphaGrid : list num :=
  map Fin (frange 100 (Q2Qc (1 # 10)) (Q2Qc (9 # 10)) (Q2Qc (1 # 10))).

Definition betaGrid : list num :=
  map Fin (frange 100 (Q2Qc (5 # 100)) (Q2Qc (5 # 10)) (Q2Qc (5 # 100))).

(** The smoothed series: [values[0]], then the recurrence. *)
Definition smoothedSeries (alpha : num) (vals : list num) : list num :=
  get vals 0 :: MovingAverage.smooth alpha (get vals 0) (tl vals).

(** [Math.floor(values.length * 0.7)], on doubles as the code computes
    it: the product is rounded before the floor is taken, so that 90
    values give 62 (the product is 62.99999999999999) and not 63. *)
Definition testStartOf (vals : list num) : Z :=
  Double.floor (PrimFloat.mul (Double.ofZ (len vals)) Double.d0_7).

(** Mean squared one-step error over the test window, given the
    forecast made at [i - 1] for [i]. *)
Definition testMSE (vals : list num) (forecastAt : Z -> num) : num :=
  let testStart := testStartOf vals in
  let mse :=
    fold_left (fun mse i =>
                 let error := (get vals i - forecastAt (i - 1)%Z)%num in
                 (mse + error * error)%num)
              (zrange testStart (len vals)) zero in
  (mse / $(len vals - testStart))%num.

(** The state of a grid search is [(best, bestMSE)]. *)
Definition keepBest (score : num -> num) (st : num * num) (cand : num) : num * num :=
  let '(best, bestMSE) := st in
  let mse := score cand in
  if lt mse bestMSE then (cand, mse) else st.

Definition validRate (a : num) : bool :=
  negb (isNaN a || le a zero || ge a one).

Definition optimizeAlpha (vals : list num) : num :=
  let score alpha :=
    let smoothed := smoothedSeries alpha vals in
    testMSE vals (fun i => get smoothed i) in
  let '(bestAlpha, _) := fold_left (keepBest score) alphaGrid (c0_3, PInf) in
  if validRate bestAlpha then bestAlpha else c0_3.

(** Holt's recurrences along the values that follow the first; the
    result lists the pairs (level, trend). *)
Fixpoint holt (alpha beta prevLevel prevTrend : num) (vs : list num)
  : list (num * num) :=
  match vs with
  | [] => []
  | v :: vs' =>
      let newLevel := (alpha * v + (one - alpha) * (prevLevel + prevTrend))%num in
      let newTrend := (beta * (newLevel - prevLevel) + (one - beta) * prevTrend)%num in
      (newLevel, newTrend) :: holt alpha beta newLevel newTrend vs'
  end.

Definition holtSeries (alpha beta : num) (vals : list num) : list (num * num) :=
  let level0 := get vals 0 in
  let trend0 := (get vals 1 - get vals 0)%num in
  (level0, trend0) :: holt alpha beta level0 trend0 (tl vals).

Definition optimizeBeta (vals : list num) (alpha : num) : num :=
  let score beta :=
    let lt_ := holtSeries alpha beta vals in
    let level := map fst lt_ in
    let trend := map snd lt_ in
    testMSE vals (fun i => (get level i + get trend i)%num) in
  let '(bestBeta, _) := fold_left (keepBest score) betaGrid (c0_1, PInf) in
  if validRate bestBeta then bestBeta else c0_1.

(** A rate argument: null, or outside (0, 1), falls back to [dflt]. *)
Definition resolveRate (a : option num) (dflt : num) : num :=
  match a with
  | None => dflt
  | Some a => if le a zero || ge a one then dflt else a
  end.

(** The fallback forecast taken when the last level or trend is NaN:
    [values[n - 1] || (n > 1 ? values[n - 2] : 0)], or 0 when that is NaN. *)
Definition fallbackForecast (vals : list num) (periods : Z) : list num :=
  let n := len vals in
  let fallbackValue :=
    or_else (get vals (n - 1)) (if (n >? 1)%Z then get vals (n - 2) else zero) in
  forPeriods periods (fun _ => if isNaN fallbackValue then zero else fallbackValue).

(** [isNaN(v) ? 0 : v] *)
Definition nanToZero (v : num) : num := if isNaN v then zero else v.

Definition singleExponentialSmoothing (data : list point) (periods : Z)
  (alpha : option num) : result (list num) :=
  if (len data <? 3)%Z then Err SingleTooFew else
  let vals := values data in
  let n := len vals in
  let alpha := resolveRate alpha (optimizeAlpha vals) in
  let smoothed := smoothedSeries alpha vals in
  let lastSmoothed := get smoothed (n - 1) in
  if isNaN lastSmoothed then Ok (fallbackForecast vals periods)
  else Ok (forPeriods periods (fun _ => nanToZero lastSmoothed)).

Definition doubleExponentialSmoothing (data : list point) (periods : Z)
  (alpha beta : option num) : result (list num) :=
  if (len data <? 3)%Z then Err DoubleTooFew else
  let vals := values data in
  let n := len vals in
  let alpha := resolveRate alpha (optimizeAlpha vals) in
  let beta := resolveRate beta (optimizeBeta vals alpha) in
  let lt_ := holtSeries alpha beta vals in
  let lastLevel := get (map fst lt_) (n - 1) in
  let lastTrend := get (map snd lt_) (n - 1) in
  if isNaN lastLevel || isNaN lastTrend then Ok (fallbackForecast vals periods)
  else Ok (forPeriods periods
             (fun i => nanToZero (lastLevel + $(i + 1) * lastTrend)%num)).

(** [for (j = i; j < n; j += seasonLength) { sum += values[j]; count++ }] *)
Fixpoint phaseSum (fuel : nat) (vals : list num) (j n seasonLength : Z)
  (sum : num) (count : Z) : num * Z :=
  match fuel with
  | O => (sum, count)
  | S fuel' =>
      if (j <? n)%Z
      then phaseSum fuel' vals (j + seasonLength)%Z n seasonLength
                    (sum + get vals j)%num (count + 1)%Z
      else (sum, count)
  end.

(** The mean of each phase [0 .. seasonLength - 1]; [empty] is the value
    pushed for a phase without any point. *)
Definition phaseMeans (vals : list num) (seasonLength : Z) (empty : num) : list num :=
  let n := len vals in
  map (fun i =>
         let '(sum, count) := phaseSum (S (length vals)) vals i n seasonLength zero 0%Z in
         if (count >? 0)%Z then (sum / $count)%num else empty)
      (zrange 0 seasonLength).

(** [i % seasonLength]: NaN (here [None]) when the divisor is 0. *)
Definition jsRem (i s : Z) : option Z :=
  if (s =? 0)%Z then None else Some (Z.rem i s).

Definition getAt (l : list num) (i : option Z) : num :=
  match i with Some i => get l i | None => NaN end.

(** A write at the index NaN sets a property that is not an element. *)
Definition setAt (l : list num) (i : option Z) (x : num) : list num :=
  match i with Some i => set l i x | None => l end.

Record hwState : Type := mkHW {
  hw_level : list num;
  hw_trend : list num;
  hw_seasonal : list num
}.

(** One turn of the Holt-Winters update loop, for index [i]. *)
Definition hwStep (alpha beta gamma : num) (vals : list num) (seasonLength : Z)
  (st : hwState) (i : Z) : hwState :=
  let prevLevel := get (hw_level st) (i - 1) in
  let prevTrend := get (hw_trend st) (i - 1) in
  let seasonIndex := jsRem i seasonLength in
  let prevSeasonal := getAt (hw_seasonal st) seasonIndex in
  let newLevel :=
    (alpha * (get vals i / prevSeasonal) + (one - alpha) * (prevLevel + prevTrend))%num in
  let newTrend := (beta * (newLevel - prevLevel) + (one - beta) * prevTrend)%num in
  mkHW (hw_level st ++ [newLevel])
       (hw_trend st ++ [newTrend])
       (setAt (hw_seasonal st) seasonIndex
              (gamma * (get vals i / newLevel) + (one - gamma) * prevSeasonal)%num).

(** The seasonal indices, the first level and trend, and the update
    loop: the state once the loop over [i = 1 .. n - 1] is done. *)
Definition hwRun (alpha beta gamma : num) (vals : list num) (seasonLength : Z)
  : hwState :=
  let n := len vals in
  let seasonal := phaseMeans vals seasonLength one in
  let avgSeasonal := (sum seasonal / $seasonLength)%num in
  let seasonal := map (fun s => (s / avgSeasonal)%num) seasonal in
  let level := [(get vals 0 / get seasonal 0)%num] in
  let trend :=
    [((get vals seasonLength / get seasonal seasonLength
       - get vals 0 / get seasonal 0) / $seasonLength)%num] in
  fold_left (hwStep alpha beta gamma vals seasonLength)
            (zrange 1 n) (mkHW level trend seasonal).

Definition tripleExponentialSmoothing (data : list point) (periods : Z)
  (seasonLength : Z) (alpha beta gamma : option num) : result (list num) :=
  if (len data <? seasonLength * 2)%Z then Err (TripleTooFew (seasonLength * 2)) else
  let vals := values data in
  let n := len vals in
  let alpha := resolveRate alpha c0_3 in
  let beta := resolveRate beta c0_1 in
  let gamma := resolveRate gamma c0_3 in
  let st := hwRun alpha beta gamma vals seasonLength in
  let lastLevel := get (hw_level st) (n - 1) in
  let lastTrend := get (hw_trend st) (n - 1) in
  if isNaN lastLevel || isNaN lastTrend then Ok (fallbackForecast vals periods)
  else Ok (forPeriods periods
             (fun i =>
                let seasonIndex := jsRem (n + i) seasonLength in
                let seasonalFactor := or_else (getAt (hw_seasonal st) seasonIndex) one in
                nanToZero ((lastLevel + $(i + 1) * lastTrend) * seasonalFactor)%num)).

Definition detectTrend (data : list point) : bool :=
  let vals := values data in
  let n := len vals in
  let '(sumX, sumY, sumXY, sumX2) :=
    fold_left (fun '(sumX, sumY, sumXY, sumX2) i =>
                 ((sumX + $i)%num, (sumY + get vals i)%num,
                  (sumXY + $i * get vals i)%num, (sumX2 + $i * $i)%num))
              (zrange 0 n) (zero, zero, zero, zero) in
  let slope := (($n * sumXY - sumX * sumY) / ($n * sumX2 - sumX * sumX))%num in
  let threshold := ((maxl vals - minl vals) / $n)%num in
  gt (abs slope) (threshold * c0_1)%num.

Definition detectSeasonality (data : list point) (seasonLength : Z) : bool :=
  let vals := values data in
  let seasonalMeans := phaseMeans vals seasonLength zero in
  let overallMean := (sum seasonalMeans / $seasonLength)%num in
  let variance :=
    (fold_left (fun s val => (s + pow (val - overallMean) 2)%num) seasonalMeans zero
     / $seasonLength)%num in
  sqrt_div_gt variance overallMean (Q2Qc (1 # 10)).

Definition exponentialSmoothing (data : list point) (periods : Z) (type : string)
  (seasonLength : Z) : result (list num) :=
  if (len data <? 3)%Z then Err ExponentialTooFew else
  let type :=
    if String.eqb type "auto" then
      if (len data >=? seasonLength * 2)%Z then
        if detectSeasonality data seasonLength then "triple"%string
        else if detectTrend data then "double"%string else "single"%string
      else if detectTrend data then "double"%string else "single"%string
    else type in
  if String.eqb type "single" then singleExponentialSmoothing data periods None
  else if String.eqb type "double" then doubleExponentialSmoothing data periods None None
  else if String.eqb type "triple"
       then tripleExponentialSmoothing data periods seasonLength None None None
  else singleExponentialSmoothing data periods None.

End ExponentialSmoothing.

(* ================================================================== *)
(** ** predictionModels/arima.js *)
(* ================================================================== *)

Module Arima.

Definition solveLinearSystem := LinearSolver.solveLinearSystem.

Definition mean (data : list num) : num := (sum data / $(len data))%num.

Definition autocorrelation (data : list num) (lag : Z) : num :=
  let n := len data in
  if (lag >=? n)%Z then zero else
  let mean := mean data in
  let numerator :=
    fold_left (fun s i => (s + (get data i - mean) * (get data (i + lag) - mean))%num)
              (zrange 0 (n - lag)) zero in
  let denominator :=
    fold_left (fun s i => (s + pow (get data i - mean) 2)%num) (zrange 0 n) zero in
  if eqb denominator zero then zero else (numerator / denominator)%num.

(** The loop [for (i = order; i < data.length; i++)
    diffed.push(data[i] - data[i - order])]. *)
Definition diffOnce (data : list num) (order : Z) : list num :=
  map (fun i => (get data i - get data (i - order))%num) (zrange order (len data)).

(** [difference] for an order [k >= 0], by recursion on the order. *)
Fixpoint differenceNat (data : list num) (k : nat) : list num :=
  match k with
  | O => data
  | S O => diffOnce data 1
  | S k' => differenceNat (diffOnce data (Z.of_nat k)) k'
  end.

Definition difference (data : list num) (order : Z) : list num :=
  if (order <? 0)%Z then diffOnce data order
  else differenceNat data (Z.to_nat order).

Definition inverseDifference (originalData diffedData : list num) (order : Z)
  : list num :=
  let result :=
    fold_left (fun result d =>
                 let value := (get result (len result - order) + d)%num in
                 result ++ [value])
              diffedData originalData in
  slice_from result (len originalData).

Definition autoregressive (data : list num) (order : Z) : result (list num) :=
  let n := len data in
  if (n <? order + 1)%Z then Err (ARTooFew order (order + 1)) else
  let acf := map (fun i => autocorrelation data i) (zrange 0 (order + 1)) in
  let R := map (fun i => map (fun j => get acf (Z.abs (i - j))) (zrange 0 order))
               (zrange 0 order) in
  let r := slice acf 1 (order + 1) in
  solveLinearSystem R r.

(** One forecast of the AR recurrence, pushed onto the history. *)
Definition arStep (phi : list num) (st : list num * list num) : list num * list num :=
  let '(predictions, history) := st in
  let order := len phi in
  let forecast :=
    fold_left (fun s j => (s + get phi j * get history (len history - order + j))%num)
              (zrange 0 order) zero in
  (predictions ++ [forecast], history ++ [forecast]).

Definition arForecast (data phi : list num) (periods : Z) : list num :=
  fst (fold_left (fun st _ => arStep phi st) (zrange 0 periods) ([], data)).

(** The orders a [params] object gives once the defaults are applied:
    [params.p || 2], [params.d || 1], [params.q || 1]. *)
Definition ordersOf (p d q : option Z) : Z * Z * Z :=
  (orZ p 2, orZ d 1, orZ q 1).

Definition arima (data : list point) (periods : Z) (params : option Z * option Z * option Z)
  : result (list num) :=
  if (len data <? 20)%Z then Err ArimaNeeds20 else
  let vals := values data in
  let n := len vals in
  let '(pp, pd, pq) := params in
  let '(p, d, q) := ordersOf pp pd pq in
  if (n <? p + d + q + 5)%Z then Err (ArimaOrderTooFew p d q (p + d + q + 5)) else
  let diffedValues := difference vals d in
  let originalStart := slice vals 0 d in
  phi <- autoregressive diffedValues p ;;
  let diffedPredictions := arForecast diffedValues phi periods in
  Ok (inverseDifference originalStart diffedPredictions d).

Definition variance (data : list num) : num :=
  let mean := mean data in
  (fold_left (fun s val => (s + pow (val - mean) 2)%num) data zero / $(len data))%num.

Definition autoArima (data : list point) : option Z * option Z * option Z :=
  let vals := values data in
  let n := len vals in
  let firstDiff := difference vals 1 in
  let originalVar := variance vals in
  let diffVar := variance firstDiff in
  let d := if lt diffVar (originalVar * c0_8)%num && (n >=? 15)%Z then 1%Z else 0%Z in
  let p := Z.min 2 (n / 10) in
  let q := Z.min 1 (n / 15) in
  (Some p, Some d, Some q).

End Arima.

(* ================================================================== *)
(** ** services/predictionService.js *)
(* ================================================================== *)

Module PredictionService.

Record coefficients : Type := mkCoeff { slope : num; intercept : num }.

Record sums : Type := mkSums { sumX : num; sumY : num; sumXY : num; sumX2 : num }.

(** The body of [data.forEach((point, index) => ...)]. *)
Definition accumulate (s : sums) (pt : point) (index : Z) : sums :=
  let x := ($index)%num in
  let y := value pt in
  mkSums (sumX s + x)%num (sumY s + y)%num (sumXY s + x * y)%num (sumX2 s + x * x)%num.

(** What follows the accumulation: the guard on the denominator and the
    two closed forms. *)
Definition fitFromSums (n : num) (s : sums) : result coefficients :=
  let denominator := (n * sumX2 s - sumX s * sumX s)%num in
  if eqb denominator zero then Err LinearDegenerate else
  let slope := ((n * sumXY s - sumX s * sumY s) / denominator)%num in
  let intercept := ((sumY s - slope * sumX s) / n)%num in
  Ok (mkCoeff slope intercept).

Definition linearRegression (data : list point) : result coefficients :=
  if (len data <? 2)%Z then Err LinearTooFew else
  let n := len data in
  let s := foldi accumulate data 0 (mkSums zero zero zero zero) in
  fitFromSums ($n)%num s.

(** [String(t).length === 6 && parseInt(t) >= 100000 && parseInt(t) <= 999999] *)
Definition isYearMonth (t : Z) : bool :=
  (String.length (NilZero.string_of_int (Z.to_int t)) =? 6)%nat
  && (100000 <=? t)%Z && (t <=? 999999)%Z.

(** The difference between two consecutive times, in months or in years. *)
Definition timeDelta (yearMonth : bool) (time1 time2 : Z) : Z :=
  if yearMonth then
    let year1 := (time1 / 100)%Z in
    let month1 := Z.rem time1 100 in
    let year2 := (time2 / 100)%Z in
    let month2 := Z.rem time2 100 in
    ((year2 - year1) * 12 + (month2 - month1))%Z
  else (time2 - time1)%Z.

(** The positive differences of consecutive points, in order. *)
Fixpoint intervalsOf (yearMonth : bool) (ts : list point) : list Z :=
  match ts with
  | p1 :: ((p2 :: _) as rest) =>
      let d := timeDelta yearMonth (time p1) (time p2) in
      if (d >? 0)%Z then d :: intervalsOf yearMonth rest
      else intervalsOf yearMonth rest
  | _ => []
  end.

(** [counts[k] = (counts[k] || 0) + 1] on an object kept in insertion
    order. *)
Fixpoint bump (k : Z) (counts : list (Z * Z)) : list (Z * Z) :=
  match counts with
  | [] => [(k, 1%Z)]
  | (k', c) :: rest =>
      if (k =? k')%Z then (k', (c + 1)%Z) :: rest else (k', c) :: bump k rest
  end.

Definition countIntervals (intervals : list Z) : list (Z * Z) :=
  fold_left (fun counts k => bump k counts) intervals [].

(** A key that is an array index is enumerated in ascending numeric
    order, before the other keys, which come in insertion order. *)
Definition isArrayIndex (k : Z) : bool := (0 <=? k)%Z && (k <? 4294967295)%Z.

Definition objectKeys (counts : list (Z * Z)) : list Z :=
  let keys := map fst counts in
  sort_by (fun k => k) (filter isArrayIndex keys)
  ++ filter (fun k => negb (isArrayIndex k)) keys.

Definition countOf (counts : list (Z * Z)) (k : Z) : Z :=
  match find (fun kc => (fst kc =? k)%Z) counts with
  | Some kc => snd kc
  | None => 0%Z
  end.

(** The scan for the most frequent interval; the state is
    [(mostCommonInterval, maxCount)]. *)
Definition pickMode (counts : list (Z * Z)) (st : Z * Z) (k : Z) : Z * Z :=
  let '(mostCommonInterval, maxCount) := st in
  if (countOf counts k >? maxCount)%Z then (k, countOf counts k) else st.

Definition detectTimeInterval (timeSeriesData : list point) : Z :=
  match timeSeriesData with
  | [] | [_] => 1%Z
  | first :: _ =>
      let intervals := intervalsOf (isYearMonth (time first)) timeSeriesData in
      match intervals with
      | [] => 1%Z
      | _ =>
          let counts := countIntervals intervals in
          fst (fold_left (pickMode counts) (objectKeys counts) (1%Z, 0%Z))
      end
  end.

(** A point of the payload; [p_time] is [None] where the code would read
    past the end of [predictionTimes]. *)
Record prediction : Type := mkPrediction {
  p_time : option Z;
  p_value : num;
  p_isPrediction : bool
}.

Record statistics : Type := mkStats {
  avgValue : num;
  lastValue : num;
  predictedValue : option num;
  growthRate : option num;
  truncatedCount : Z
}.

Record predictionResult : Type := mkResult {
  predictions : list prediction;
  historicalData : list prediction;
  stats : statistics;
  r_timeInterval : Z;
  r_timeFormat : string;
  r_model : string
}.

(** The [arimaParams] constant of the 'arima' case:
    [p || d || q ? {p: p || 2, d: d || 1, q: q || 1} : autoArima(data)]. *)
Definition arimaParams (historicalData : list point) (mp : modelParams)
  : option Z * option Z * option Z :=
  if truthyZ (mp_p mp) || truthyZ (mp_d mp) || truthyZ (mp_q mp)
  then (Some (orZ (mp_p mp) 2), Some (orZ (mp_d mp) 1), Some (orZ (mp_q mp) 1))
  else Arima.autoArima historicalData.

(** The [switch (model)] of generatePrediction, without its try/catch. *)
Definition dispatch (historicalData : list point) (periods : Z) (model : string)
  (mp : modelParams) : result (list num) :=
  if String.eqb model "linear" then
    c <- linearRegression historicalData ;;
    Ok (forPeriods periods
          (fun i => let x := (len historicalData + i)%Z in
                    (slope c * $x + intercept c)%num))
  else if String.eqb model "exponential" then
    let expType := orStr (mp_type mp) "auto" in
    let seasonLength := orZ (mp_seasonLength mp) 12 in
    ExponentialSmoothing.exponentialSmoothing historicalData periods expType seasonLength
  else if String.eqb model "movingAverage" then
    let maType := orStr (mp_type mp) "auto" in
    MovingAverage.movingAverage historicalData periods maType
      (mp_windowSize mp) (mp_alpha mp)
  else if String.eqb model "polynomial" then
    let degree :=
      match mp_degree mp with
      | None => DStr "auto"
      | Some (DNum z) => if (z =? 0)%Z then DStr "auto" else DNum z
      | Some (DStr EmptyString) => DStr "auto"
      | Some (DStr s) => DStr s
      end in
    PolynomialRegression.polynomialRegression historicalData periods degree
  else if String.eqb model "arima" then
    Arima.arima historicalData periods (arimaParams historicalData mp)
  else Err (UnsupportedModel model).

(** The time of the [i]-th predicted point. *)
Definition nextTime (timeFormat : string) (lastTime timeInterval i : Z) : Z :=
  if String.eqb timeFormat "yearmonth" then
    let year := (lastTime / 100)%Z in
    let month := Z.rem lastTime 100 in
    let intervalMonths := (timeInterval * (i + 1))%Z in
    let nextMonth := (month + intervalMonths)%Z in
    if (nextMonth >? 12)%Z
    then ((year + (nextMonth - 1) / 12) * 100 + (Z.rem (nextMonth - 1) 12 + 1))%Z
    else (year * 100 + nextMonth)%Z
  else (lastTime + timeInterval * (i + 1))%Z.

Definition lastPoint (data : list point) : point := last data (mkPoint 0 NaN).

Definition generatePrediction (historicalData : list point) (periods : Z)
  (model : string) (timeInterval : Z) (timeFormat : string) (mp : modelParams)
  : result predictionResult :=
  if (len historicalData <? 2)%Z then Err HistoryTooShort else
  if (periods <=? 0)%Z then Err InvalidPeriods else
  predictions <- rethrow (ModelFailed model) (dispatch historicalData periods model mp) ;;
  let lastTime := time (lastPoint historicalData) in
  let predictionTimes := map (nextTime timeFormat lastTime timeInterval) (zrange 0 periods) in
  let avgValue := (sum (values historicalData) / $(len historicalData))%num in
  let lastValue := value (lastPoint historicalData) in
  let predictedValue :=
    match predictions with
    | [] => None
    | _ => Some (get predictions (len predictions - 1))
    end in
  let growthRate :=
    match predictedValue with
    | Some pv =>
        if eqb lastValue zero then None
        else Some (((pv - lastValue) / lastValue) * c100)%num
    | None => None
    end in
  let validPredictions := map (fun val => if isNaN val then zero else val) predictions in
  Ok (mkResult
        (mapi (fun val index => mkPrediction (nth_error predictionTimes index) val true)
              validPredictions)
        (map (fun item => mkPrediction (Some (time item)) (value item) false)
             historicalData)
        (mkStats avgValue lastValue predictedValue growthRate 0)
        timeInterval timeFormat model).

(** The property names that the object literal [requirements] inherits
    from Object.prototype.  Read under one of these names the table
    gives a function (an object for '__proto__'), which is truthy. *)
Definition inheritedNames : list string :=
  ["constructor"; "hasOwnProperty"; "isPrototypeOf"; "propertyIsEnumerable";
   "toLocaleString"; "toString"; "valueOf"; "__proto__";
   "__defineGetter__"; "__defineSetter__"; "__lookupGetter__";
   "__lookupSetter__"]%string.

Definition isInherited (model : string) : bool :=
  existsb (String.eqb model) inheritedNames.

(** [requirements[model] || 2] for the table of the five models: a name
    outside the table has the minimum 2, and [None] stands for the
    function or object read under an inherited name. *)
Definition requirementOf (model : string) : option Z :=
  if String.eqb model "linear" then Some 2%Z
  else if String.eqb model "exponential" then Some 3%Z
  else if String.eqb model "movingAverage" then Some 2%Z
  else if String.eqb model "polynomial" then Some 3%Z
  else if String.eqb model "arima" then Some 20%Z
  else if isInherited model then None
  else Some 2%Z.

(** [dataLength >= minRequired]: a function or an object compares as
    NaN, and the comparison is false. *)
Definition validateModelDataRequirements (model : string) (dataLength : Z) : bool :=
  match requirementOf model with
  | Some minRequired => (dataLength >=? minRequired)%Z
  | None => false
  end.

End PredictionService.

(* ================================================================== *)
(** ** services/localDataService.js: getTimeSeriesData *)
(* ================================================================== *)

Module LocalDataService.

(** An entry of a data file; [data2] is the number [parseFloat] reads
    from the field. *)
Record entry : Type := mkEntry {
  repp : Z;
  data2 : num;
  area : string;
  data_name : string
}.

Record options : Type := mkOptions {
  o_area : option string;
  o_indicator : option string;
  o_startTime : option Z;
  o_endTime : option Z
}.

Definition truthyStr (s : option string) : bool :=
  match s with
  | Some EmptyString | None => false
  | Some _ => true
  end.

Definition strIs (s : option string) (v : string) : bool :=
  match s with Some s => String.eqb s v | None => false end.

(** The predicate of [data.filter(item => ...)]. *)
Definition keeps (o : options) (item : entry) : bool :=
  if truthyStr (o_area o) && negb (strIs (o_area o) (area item)) then false
  else if truthyStr (o_indicator o) && negb (strIs (o_indicator o) (data_name item))
  then false
  else if truthyZ (o_startTime o) && (repp item <? orZ (o_startTime o) 0)%Z then false
  else if truthyZ (o_endTime o) && (repp item >? orZ (o_endTime o) 0)%Z then false
  else true.

Section WithFiles.
(** [loadDataFile]: the entries of a file, or the failure to read it. *)
Variable loadDataFile : string -> result (list entry).

Definition getTimeSeriesData (filename : string) (o : options) : result (list point) :=
  data <- loadDataFile filename ;;
  let filteredData := filter (keeps o) data in
  let filteredData := sort_by repp filteredData in
  Ok (map (fun item => mkPoint (repp item) (or_else (data2 item) zero)) filteredData).
End WithFiles.

End LocalDataService.

(* ================================================================== *)
(** ** controllers/predictionController.js: predict *)
(* ================================================================== *)

Module PredictionController.

Import PredictionService.

Record request : Type := mkRequest {
  filename : option string;
  area : option string;
  indicator : option string;
  startTime : option Z;
  endTime : option Z;
  period : option Z;
  model : option string;
  params : modelParams
}.

(** The message of a 400 answer. *)
Inductive message : Type :=
| MissingFilename            (* 缺少参数: filename *)
| MissingArea                (* 缺少参数: area *)
| MissingIndicator           (* 缺少参数: indicator *)
| MissingTimeRange           (* 缺少参数: startTime 或 endTime *)
| PeriodsNotPositive         (* 预测周期数必须大于0 *)
| TooFewPoints               (* 历史数据不足，至少需要2个数据点 *)
| ModelNeeds (model : string) (minRequired : option Z) (have : Z).
                             (* model 模型至少需要 minRequired 个数据点，当前只有 have 个;
                                [None] prints the inherited function or object *)

Inductive response : Type :=
| BadRequest (m : message)          (* status 400 *)
| Success (r : predictionResult)    (* success: true *)
| ServerError (e : error).          (* status 500 *)

(** The format [predict] reads off the first time of the series. *)
Definition timeFormatOf (timeSeriesData : list point) : string :=
  let firstTime := time (hd (mkPoint 0 NaN) timeSeriesData) in
  if isYearMonth firstTime then "yearmonth"%string else "year"%string.

Section WithFiles.
Variable loadDataFile : string -> result (list LocalDataService.entry).

Definition predict (req : request) : response :=
  let model := match model req with Some m => m | None => "linear"%string end in
  if negb (LocalDataService.truthyStr (filename req)) then BadRequest MissingFilename
  else if negb (LocalDataService.truthyStr (area req)) then BadRequest MissingArea
  else if negb (LocalDataService.truthyStr (indicator req)) then BadRequest MissingIndicator
  else if negb (truthyZ (startTime req)) || negb (truthyZ (endTime req))
  then BadRequest MissingTimeRange
  else if negb (truthyZ (period req)) || (orZ (period req) 0 <=? 0)%Z
  then BadRequest PeriodsNotPositive
  else
    match LocalDataService.getTimeSeriesData loadDataFile
            (orStr (filename req) "")
            (LocalDataService.mkOptions (area req) (indicator req)
               (startTime req) (endTime req)) with
    | Err e => ServerError e
    | Ok timeSeriesData =>
        if (len timeSeriesData <? 2)%Z then BadRequest TooFewPoints else
        let timeFormat := timeFormatOf timeSeriesData in
        if negb (validateModelDataRequirements model (len timeSeriesData))
        then BadRequest (ModelNeeds model (requirementOf model) (len timeSeriesData))
        else
          let timeInterval := detectTimeInterval timeSeriesData in
          match generatePrediction timeSeriesData (orZ (period req) 0) model
                  timeInterval timeFormat (params req) with
          | Ok r => Success r
          | Err e => ServerError e
          end
    end.
End WithFiles.

End PredictionController.

(* ================================================================== *)
(** * Vocabulary of the properties *)
(* ================================================================== *)

Local Open Scope Z_scope.

(** ** Rationals, sums and orders *)

(** An integer as a canonical rational: [ofZ z] is [Fin (qz z)]. *)
Definition qz (z : Z) : Qc := Q2Qc (inject_Z z).

(** A series of [n] yearly points with the values [f 0, f 1, ...]. *)
Definition yearly (start : Z) (n : Z) (f : Z -> Z) : list point :=
  map (fun k => mkPoint (start + k) (ofZ (f k))) (zrange 0 n).

(** A series given by its (time, value) pairs, with integer values. *)
Definition series (l : list (Z * Z)) : list point :=
  map (fun '(t, v) => mkPoint t (ofZ v)) l.

(** A series whose values are rationals. *)
Definition rationalSeries (pts : list (Z * Qc)) : list point :=
  map (fun '(t, y) => mkPoint t (Fin y)) pts.

(** An explicit 0 read as an absent field. *)
Definition unsetZero (x : option Z) : option Z :=
  match x with
  | Some 0 => None
  | _ => x
  end.

(** [mp] with its three ARIMA orders replaced. *)
Definition withOrders (mp : modelParams) (p d q : option Z) : modelParams :=
  mkParams (mp_type mp) (mp_windowSize mp) (mp_alpha mp) (mp_seasonLength mp)
           (mp_degree mp) p d q.

(** The orders [arima] works with for a request: the defaults of
    [arima] applied to the parameters the orchestrator hands over. *)
Definition ordersInForce (historicalData : list point) (mp : modelParams) : Z * Z * Z :=
  let '(pp, pd, pq) := PredictionService.arimaParams historicalData mp in
  Arima.ordersOf pp pd pq.

(** The cumulative sums that [inverseDifference] pushes for order 1. *)
Definition pushSum (result : list num) (d : num) : list num :=
  result ++ [(get result (len result - 1) + d)%num].

(** The sums of the closed form, over the zero-based index sequence:
    [sigma f ys i] is the sum of [f k y] over the elements [y] of [ys]
    at the positions [k = i, i + 1, ...]. *)
Fixpoint sigma (f : Z -> Qc -> Qc) (ys : list Qc) (i : Z) : Qc :=
  match ys with
  | [] => 0%Qc
  | y :: ys' => (f i y + sigma f ys' (i + 1))%Qc
  end.

Definition Sx (ys : list Qc) : Qc := sigma (fun i _ => qz i) ys 0.
Definition Sy (ys : list Qc) : Qc := sigma (fun _ y => y) ys 0.
Definition Sxy (ys : list Qc) : Qc := sigma (fun i y => (qz i * y)%Qc) ys 0.
Definition Sxx (ys : list Qc) : Qc := sigma (fun i _ => (qz i * qz i)%Qc) ys 0.

(** slope = (n Σxy − Σx Σy) / (n Σx² − (Σx)²) *)
Definition olsSlope (ys : list Qc) : Qc :=
  let n := qz (len ys) in
  ((n * Sxy ys - Sx ys * Sy ys) / (n * Sxx ys - Sx ys * Sx ys))%Qc.

(** intercept = (Σy − slope · Σx) / n *)
Definition olsIntercept (ys : list Qc) : Qc :=
  ((Sy ys - olsSlope ys * Sx ys) / qz (len ys))%Qc.

(** Sums of the indices, in integers. *)
Fixpoint zSx (n : nat) (s : Z) : Z :=
  match n with O => 0 | S n' => s + zSx n' (s + 1) end.
Fixpoint zSxx (n : nat) (s : Z) : Z :=
  match n with O => 0 | S n' => s * s + zSxx n' (s + 1) end.

(** A result compared with an expected list of numbers. *)
Definition resultBeq (r : result (list num)) (l : list num) : bool :=
  match r with
  | Ok l' => beql l' l
  | Err _ => false
  end.



(** The predicted values of a result, as fractions. *)
Definition predictedFractions (r : result PredictionService.predictionResult)
  : list (option (Z * positive)) :=
  match r with
  | Ok r =>
      map (fun p => match PredictionService.p_value p with
                    | Fin q => Some (Qnum q, Qden q)
                    | _ => None
                    end)
          (PredictionService.predictions r)
  | Err _ => []
  end.

(** The count of months a year-month time stands for. *)
Definition monthIndex (t : Z) : Z := t / 100 * 12 + Z.rem t 100.

(** The distance from [t1] to [t2] in the unit of the format: months
    for 'yearmonth', years otherwise. *)
Definition timeGap (timeFormat : string) (t1 t2 : Z) : Z :=
  if String.eqb timeFormat "yearmonth" then monthIndex t2 - monthIndex t1
  else t2 - t1.



(** The two orders a key induces. *)
Definition keyLe {A : Type} (key : A -> Z) (a b : A) : Prop := key a <= key b.

(** ** States of the elimination and systems of rationals *)

Section SolverVocabulary.
Import LinearSolver.


(** Every entry is a rational. *)
Definition allFinite (r : list num) : Prop := Forall (fun x => isFin x = true) r.

(** A row of an augmented [n x (n+1)] system of rationals. *)
Definition finiteRow (n : nat) (r : list num) : Prop :=
  length r = S n /\ allFinite r.

(** An augmented system of [n] such rows. *)
Definition finiteSystem (n : nat) (aug : matrix) : Prop :=
  length aug = n /\ Forall (finiteRow n) aug.

(** The input: an [n x n] matrix and a vector of length [n], of rationals. *)
Definition finiteInput (A : matrix) (b : list num) : Prop :=
  Forall (fun r => length r = length A /\ allFinite r) A
  /\ length b = length A /\ allFinite b.

(** The pivot entry of a row is a non-zero rational. *)
Definition pivotNonzero (pivotRow : list num) (i : nat) : Prop :=
  exists q : Qc, getn pivotRow i = Fin q /\ q <> 0%Qc.

End SolverVocabulary.

(** ** Counting, running sums and exact solutions *)

(** The number of times [k] occurs in [l]. *)
Definition occurrences (k : Z) (l : list Z) : Z := len (filter (Z.eqb k) l).

(** The order in which [Object.keys] lists two keys one after the other:
    keys that are array indices come first, in ascending order. *)
Definition enumeratedBefore (a b : Z) : Prop :=
  PredictionService.isArrayIndex b = true -> a <= b.

(** The running sums [s + d1, s + d1 + d2, ...]. *)
Fixpoint runningSums (s : num) (ds : list num) : list num :=
  match ds with
  | [] => []
  | d :: ds' => (s + d)%num :: runningSums (s + d)%num ds'
  end.

(** The rational a number stands for (0 for NaN and the infinities). *)
Definition toQ (a : num) : Qc := match a with Fin q => q | _ => 0%Qc end.

Fixpoint qsum {A : Type} (f : A -> Qc) (l : list A) : Qc :=
  match l with
  | [] => 0%Qc
  | j :: l' => (f j + qsum f l')%Qc
  end.

Section SoundnessVocabulary.
Import LinearSolver.

(** The product of the row [r] with the vector [x], summed from the left
    as a [reduce] does. *)
Definition rowTimes (r x : list num) : num :=
  fold_left (fun s j => (s + getn r j * getn x j)%num) (seq 0 (length r)) zero.

Definition dotQ (n : nat) (r x : list num) : Qc :=
  qsum (fun j => (toQ (getn r j) * toQ (getn x j))%Qc) (seq 0 n).

(** [x] solves the [n] equations of the augmented matrix [aug]. *)
Definition solves (n : nat) (aug : matrix) (x : list num) : Prop :=
  forall k, (k < n)%nat -> dotQ n (row aug k) x = toQ (entry aug k n).

(** The columns before [i] are zero below the diagonal. *)
Definition echelon (n i : nat) (aug : matrix) : Prop :=
  forall k j, (j < i)%nat -> (j < k < n)%nat -> toQ (entry aug k j) = 0%Qc.

(** The diagonal entries before [i] are not zero. *)
Definition pivots (i : nat) (aug : matrix) : Prop :=
  forall j, (j < i)%nat -> toQ (entry aug j j) <> 0%Qc.

(** What back substitution has established once the rows [i .. n-1] are
    done: their unknowns are rationals that satisfy their equations. *)
Definition backInv (n : nat) (U : matrix) (i : nat) (x : list num) : Prop :=
  length x = n
  /\ (forall j, (i <= j < n)%nat -> isFin (getn x j) = true)
  /\ (forall k, (i <= k < n)%nat ->
        (toQ (entry U k k) * toQ (getn x k)
         + qsum (fun j => (toQ (entry U k j) * toQ (getn x j))%Qc)
                (seq (S k) (n - S k)))%Qc
        = toQ (entry U k n)).

End SoundnessVocabulary.

(** The causes for which the model [model] can fail on the series [data]
    with the parameters [mp], once the series has 2 points and the
    number of periods is positive. *)
Definition modelFailure (data : list point) (mp : modelParams) (model : string)
  (cause : error) : Prop :=
  (model = "exponential"%string
   /\ ((len data = 2 /\ cause = ExponentialTooFew)
       \/ (orStr (mp_type mp) "auto" = "triple"%string
           /\ 3 <= len data < orZ (mp_seasonLength mp) 12 * 2
           /\ cause = TripleTooFew (orZ (mp_seasonLength mp) 12 * 2))))
  \/ (model = "polynomial"%string
      /\ ((len data = 2 /\ cause = PolynomialTooFew 3)
          \/ (len data = 3 /\ cause = PolynomialTooFew 4)
          \/ cause = PolynomialBadDegree
          \/ cause = SingularMatrix))
  \/ (model = "arima"%string
      /\ ((len data < 20 /\ cause = ArimaNeeds20)
          \/ (exists p d q, len data < p + d + q + 5
                            /\ cause = ArimaOrderTooFew p d q (p + d + q + 5))
          \/ (exists p, cause = ARTooFew p (p + 1))
          \/ cause = SingularMatrix))
  \/ (cause = UnsupportedModel model
      /\ model <> "linear"%string /\ model <> "exponential"%string
      /\ model <> "movingAverage"%string /\ model <> "polynomial"%string
      /\ model <> "arima"%string).

(** ** Sample inputs *)

(** A request for the linear model with every field the controller
    checks before the period. *)
Definition sampleRequest (period : option Z) : PredictionController.request :=
  PredictionController.mkRequest (Some "gdp.json"%string) (Some "A"%string)
    (Some "GDP"%string) (Some 2018) (Some 2023) period (Some "linear"%string) noParams.

(** Six yearly points on the line 100, 110, ..., 150. *)
Definition sixYears : list (Z * Qc) :=
  [(2018, qz 100); (2019, qz 110); (2020, qz 120);
   (2021, qz 130); (2022, qz 140); (2023, qz 150)].

(** The constant series 5, 5, 5, 5, 5, 5. *)
Definition fiveSix : list point :=
  series [(2018, 5); (2019, 5); (2020, 5); (2021, 5); (2022, 5); (2023, 5)].

(** Three points in time order, and the same points with the first
    two exchanged. *)
Definition ascending : list point := series [(2020, 1); (2021, 2); (2022, 3)].

(** The same three entries of a data file in two orders. *)
Definition entriesA : list LocalDataService.entry :=
  [LocalDataService.mkEntry 2021 (ofZ 2) "A" "GDP";
   LocalDataService.mkEntry 2020 (ofZ 1) "A" "GDP";
   LocalDataService.mkEntry 2022 (ofZ 3) "A" "GDP"].


(** Four monthly points ending in December. *)
Definition monthly : list point :=
  series [(202309, 10); (202310, 12); (202311, 11); (202312, 15)].

(** A series whose last value is 0, and a request for Holt-Winters
    smoothing with season length 2. *)
Definition endsWithZero : list point :=
  series [(2020, 1); (2021, 2); (2022, 3); (2023, 0)].

Definition tripleParams : modelParams :=
  mkParams (Some "triple"%string) None None (Some 2) None None None None.



Definition regularA : LinearSolver.matrix := [[ofZ 1; ofZ 2]; [ofZ 3; ofZ 4]].
Definition rhs : list num := [ofZ 5; ofZ 6].

(** Twenty yearly points: a constant series and the squares 0, 1, 4, ... *)
Definition flatTwenty : list point := yearly 2000 20 (fun _ => 7).
Definition squaresTwenty : list point := yearly 2000 20 (fun k => k * k).

(** Five points whose steps are 1, 2, 1, 2 years. *)
Definition gapped : list point :=
  series [(2018, 1); (2019, 2); (2021, 3); (2022, 4); (2024, 5)].

(** The parameters of a cubic fit. *)
Definition cubicParams : modelParams :=
  mkParams None None None None (Some (DNum 3)) None None None.

(** The selection the sample request makes in a data file. *)
Definition sampleOptions : LocalDataService.options :=
  LocalDataService.mkOptions (Some "A"%string) (Some "GDP"%string) (Some 2018) (Some 2023).

(* ================================================================== *)
(** * Properties *)
(* ================================================================== *)

(** ** Numbers and arrays *)

Lemma beq_eq (a b : num) : beq a b = true -> a = b.
Proof.
  destruct a, b; simpl; intros H; try discriminate; try reflexivity.
  f_equal. now apply Qc_eq_bool_correct.
Qed.

Lemma beql_eq (l1 l2 : list num) : beql l1 l2 = true -> l1 = l2.
Proof.
  revert l2. induction l1 as [|a l1 IH]; intros [|b l2]; simpl; intros H;
    try discriminate; try reflexivity.
  apply andb_true_iff in H. destruct H as [Ha Hl].
  f_equal; [now apply beq_eq | now apply IH].
Qed.

Lemma zrange_length lo hi : length (zrange lo hi) = Z.to_nat (hi - lo).
Proof. unfold zrange. now rewrite length_map, length_seq. Qed.

Lemma zrange_empty lo hi : hi <= lo -> zrange lo hi = [].
Proof.
  intros H. unfold zrange. replace (Z.to_nat (hi - lo)) with O by lia. reflexivity.
Qed.

Lemma forPeriods_length periods f :
  length (forPeriods periods f) = Z.to_nat periods.
Proof.
  unfold forPeriods. rewrite length_map, zrange_length. f_equal. lia.
Qed.

Lemma len_nonneg {A} (l : list A) : 0 <= len l.
Proof. unfold len. lia. Qed.

Lemma len_app {A} (l1 l2 : list A) : len (l1 ++ l2) = len l1 + len l2.
Proof. unfold len. rewrite length_app. lia. Qed.

Lemma len_map {A B} (f : A -> B) (l : list A) : len (map f l) = len l.
Proof. unfold len. now rewrite length_map. Qed.

Lemma mapi_length {A B} (f : A -> nat -> B) (l : list A) :
  length (mapi f l) = length l.
Proof.
  unfold mapi. rewrite length_map, length_combine, length_seq. lia.
Qed.

(** ** ARIMA: the two guards on the amount of data *)

Section ArimaGuards.
Import Arima.

Lemma arima_below_20 data periods params :
  len data < 20 -> arima data periods params = Err ArimaNeeds20.
Proof.
  intros H. unfold arima.
  destruct (len data <? 20) eqn:E; [reflexivity | apply Z.ltb_ge in E; lia].
Qed.

Lemma arima_below_order data periods pp pd pq :
  20 <= len data ->
  len data < orZ pp 2 + orZ pd 1 + orZ pq 1 + 5 ->
  arima data periods (pp, pd, pq)
  = Err (ArimaOrderTooFew (orZ pp 2) (orZ pd 1) (orZ pq 1)
           (orZ pp 2 + orZ pd 1 + orZ pq 1 + 5)).
Proof.
  intros H20 H. unfold arima, ordersOf.
  destruct (len data <? 20) eqn:E; [apply Z.ltb_lt in E; lia |].
  unfold values. rewrite len_map.
  destruct (len data <? orZ pp 2 + orZ pd 1 + orZ pq 1 + 5) eqn:E2;
    [reflexivity | apply Z.ltb_ge in E2; lia].
Qed.
End ArimaGuards.

(** C8. The ARIMA model called with fewer than 20 points fails with the
    error that states the 20-point minimum; with 20 points or more it
    fails with the order error when n < p + d + q + 5 for the orders in
    force.  Both errors depend on the length and the orders only: no
    value of the series is read.  Under the orchestrator the first error
    comes back wrapped as the failure of the model 'arima'. *)
Theorem arima_insufficient_data (data : list point) (periods : Z)
  (pp pd pq : option Z) :
  let '(p, d, q) := Arima.ordersOf pp pd pq in
  (len data < 20 ->
     Arima.arima data periods (pp, pd, pq) = Err ArimaNeeds20) /\
  (20 <= len data -> len data < p + d + q + 5 ->
     Arima.arima data periods (pp, pd, pq)
     = Err (ArimaOrderTooFew p d q (p + d + q + 5))) /\
  (forall timeInterval timeFormat mp,
     2 <= len data < 20 -> 0 < periods ->
     PredictionService.generatePrediction data periods "arima"
       timeInterval timeFormat mp
     = Err (ModelFailed "arima" ArimaNeeds20)).
Proof.
  unfold Arima.ordersOf. repeat split.
  - apply arima_below_20.
  - apply arima_below_order.
  - intros ti tf mp [H2 H20] Hp. unfold PredictionService.generatePrediction.
    destruct (len data <? 2) eqn:E; [apply Z.ltb_lt in E; lia |].
    destruct (periods <=? 0) eqn:E2; [apply Z.leb_le in E2; lia |].
    unfold PredictionService.dispatch. simpl.
    now rewrite arima_below_20.
Qed.

Lemma arima_insufficient_data_witness :
  Arima.arima (yearly 2000 15 (fun k => k)) 3 (None, None, None) = Err ArimaNeeds20
  /\ Arima.arima (yearly 2000 20 (fun k => k)) 3 (Some 10, Some 5, Some 5)
     = Err (ArimaOrderTooFew 10 5 5 25)
  /\ PredictionService.generatePrediction (yearly 2000 15 (fun k => k)) 3 "arima"
       1 "year" noParams
     = Err (ModelFailed "arima" ArimaNeeds20).
Proof.
  split; [| split].
  - apply (proj1 (arima_insufficient_data (yearly 2000 15 (fun k => k)) 3 None None None)).
    vm_compute. reflexivity.
  - apply (proj1 (proj2 (arima_insufficient_data (yearly 2000 20 (fun k => k)) 3
                           (Some 10) (Some 5) (Some 5)))).
    + vm_compute. discriminate.
    + vm_compute. reflexivity.
  - apply (proj2 (proj2 (arima_insufficient_data (yearly 2000 15 (fun k => k)) 3
                           None None None))).
    + vm_compute. split; [discriminate | reflexivity].
    + reflexivity.
Defined.

(** ** Validation order: periods and series length *)

(** At the orchestrator the length guard comes first: an empty series
    with [periods = 0] is reported as too short, not as a bad period. *)
Lemma periods_guard_is_second :
  0 <= 0
  /\ PredictionService.generatePrediction [] 0 "linear" 1 "year" noParams
     = Err HistoryTooShort
  /\ PredictionService.generatePrediction [] 0 "linear" 1 "year" noParams
     <> Err InvalidPeriods.
Proof.
  split; [lia | split; [reflexivity | discriminate]].
Qed.

(** C9 (amended). With [periods <= 0] no model is ever run.
    generatePrediction fails with the invalid-periods error when the
    series has at least 2 points, and with the insufficient-history error
    of its first guard otherwise.  The controller answers 400 with the
    invalid-periods message whatever the data files hold, that is before
    the series is loaded, as soon as the five request fields that it
    checks first are present. *)
Theorem nonpositive_periods_rejected (periods : Z) :
  periods <= 0 ->
  (forall data model timeInterval timeFormat mp,
     PredictionService.generatePrediction data periods model timeInterval timeFormat mp
     = if len data <? 2 then Err HistoryTooShort else Err InvalidPeriods)
  /\
  (forall loadDataFile req,
     LocalDataService.truthyStr (PredictionController.filename req) = true ->
     LocalDataService.truthyStr (PredictionController.area req) = true ->
     LocalDataService.truthyStr (PredictionController.indicator req) = true ->
     truthyZ (PredictionController.startTime req) = true ->
     truthyZ (PredictionController.endTime req) = true ->
     PredictionController.period req = Some periods ->
     PredictionController.predict loadDataFile req
     = PredictionController.BadRequest PredictionController.PeriodsNotPositive).
Proof.
  intros Hp. split.
  - intros data model ti tf mp. unfold PredictionService.generatePrediction.
    destruct (len data <? 2); [reflexivity |].
    destruct (periods <=? 0) eqn:E; [reflexivity | apply Z.leb_gt in E; lia].
  - intros load req Hf Ha Hi Hs He Hper. unfold PredictionController.predict.
    rewrite Hf, Ha, Hi, Hs, He, Hper. simpl.
    unfold truthyZ, orZ.
    destruct (periods =? 0) eqn:E0; simpl; [reflexivity |].
    destruct (periods <=? 0) eqn:E; [reflexivity | apply Z.leb_gt in E; lia].
Qed.

Lemma nonpositive_periods_rejected_witness :
  PredictionService.generatePrediction (series [(2020, 1); (2021, 2)]) (-1)
    "linear" 1 "year" noParams = Err InvalidPeriods
  /\ PredictionController.predict (fun _ => Err DataFileUnreadable) (sampleRequest (Some (-1)))
     = PredictionController.BadRequest PredictionController.PeriodsNotPositive.
Proof.
  assert (H : -1 <= 0) by lia.
  split.
  - exact (proj1 (nonpositive_periods_rejected H) (series [(2020, 1); (2021, 2)])
             "linear"%string 1 "year"%string noParams).
  - apply (proj2 (nonpositive_periods_rejected H)); reflexivity.
Defined.

(** ** ARIMA orders: a zero is an unset parameter *)

Lemma orZ_nonzero x dflt : dflt <> 0 -> orZ x dflt <> 0.
Proof.
  intros Hd. unfold orZ. destruct x as [v|]; [|exact Hd].
  destruct (v =? 0) eqn:E; [exact Hd | now apply Z.eqb_neq in E].
Qed.

Lemma orZ_unsetZero x dflt : orZ (unsetZero x) dflt = orZ x dflt.
Proof. destruct x as [[| |]|]; reflexivity. Qed.

Lemma truthyZ_unsetZero x : truthyZ (unsetZero x) = truthyZ x.
Proof. destruct x as [[| |]|]; reflexivity. Qed.

Lemma orZ_idem x dflt : dflt <> 0 -> orZ (Some (orZ x dflt)) dflt = orZ x dflt.
Proof.
  intros Hd. unfold orZ at 1.
  destruct (orZ x dflt =? 0) eqn:E; [|reflexivity].
  apply Z.eqb_eq in E. now apply orZ_nonzero in E.
Qed.

(** C10. In a call to the ARIMA model through the orchestrator an order
    given as 0 is read exactly like an absent one; when one of p, d, q is
    non-zero the others default to p = 2, d = 1, q = 1; when all three are
    0 or absent the parameters are those of autoArima; and in every case
    the orders in force are non-zero, so neither an AR order of 0 nor a run
    without differencing can be obtained. *)
Theorem arima_zero_order_is_unset (historicalData : list point) (mp : modelParams) :
  PredictionService.arimaParams historicalData
    (withOrders mp (unsetZero (mp_p mp)) (unsetZero (mp_d mp)) (unsetZero (mp_q mp)))
  = PredictionService.arimaParams historicalData mp
  /\ (truthyZ (mp_p mp) || truthyZ (mp_d mp) || truthyZ (mp_q mp) = true ->
      ordersInForce historicalData mp
      = (orZ (mp_p mp) 2, orZ (mp_d mp) 1, orZ (mp_q mp) 1))
  /\ (truthyZ (mp_p mp) || truthyZ (mp_d mp) || truthyZ (mp_q mp) = false ->
      PredictionService.arimaParams historicalData mp = Arima.autoArima historicalData)
  /\ (let '(p, d, q) := ordersInForce historicalData mp in
      p <> 0 /\ d <> 0 /\ q <> 0).
Proof.
  repeat split.
  - unfold PredictionService.arimaParams, withOrders. simpl.
    now rewrite !truthyZ_unsetZero, !orZ_unsetZero.
  - intros H. unfold ordersInForce, PredictionService.arimaParams. rewrite H.
    unfold Arima.ordersOf. now rewrite !orZ_idem by discriminate.
  - intros H. unfold PredictionService.arimaParams. now rewrite H.
  - unfold ordersInForce.
    destruct (PredictionService.arimaParams historicalData mp) as [[pp pd] pq].
    unfold Arima.ordersOf. repeat split; apply orZ_nonzero; discriminate.
Qed.

Lemma arima_zero_order_is_unset_witness :
  ordersInForce (yearly 2000 20 (fun k => k))
    (mkParams None None None None None (Some 0) (Some 0) (Some 3))
  = (2, 1, 3)
  /\ PredictionService.arimaParams (yearly 2000 20 (fun k => k))
       (mkParams None None None None None (Some 0) (Some 0) (Some 0))
     = Arima.autoArima (yearly 2000 20 (fun k => k)).
Proof.
  split.
  - apply (proj1 (proj2 (arima_zero_order_is_unset (yearly 2000 20 (fun k => k))
       (mkParams None None None None None (Some 0) (Some 0) (Some 3))))).
    reflexivity.
  - apply (proj1 (proj2 (proj2 (arima_zero_order_is_unset (yearly 2000 20 (fun k => k))
       (mkParams None None None None None (Some 0) (Some 0) (Some 0)))))).
    reflexivity.
Defined.

(** ** Differencing and its inverse *)

Lemma get_cons_succ a l i : 0 <= i -> get (a :: l) (i + 1) = get l i.
Proof.
  intros Hi. unfold get.
  destruct (i + 1 <? 0) eqn:E1; [apply Z.ltb_lt in E1; lia |].
  destruct (i <? 0) eqn:E2; [apply Z.ltb_lt in E2; lia |].
  replace (Z.to_nat (i + 1)) with (S (Z.to_nat i)) by lia. reflexivity.
Qed.

Lemma get_zero a l : get (a :: l) 0 = a.
Proof. reflexivity. Qed.

Lemma get_last l a : get (l ++ [a]) (len (l ++ [a]) - 1) = a.
Proof.
  unfold get, len. rewrite length_app. simpl.
  destruct (Z.of_nat (length l + 1) - 1 <? 0) eqn:E; [apply Z.ltb_lt in E; lia |].
  replace (Z.to_nat (Z.of_nat (length l + 1) - 1)) with (length l) by lia.
  now rewrite nth_middle.
Qed.

Lemma zrange_shift lo hi :
  zrange (lo + 1) (hi + 1) = map (fun i => i + 1) (zrange lo hi).
Proof.
  unfold zrange. rewrite map_map.
  replace (hi + 1 - (lo + 1)) with (hi - lo) by lia.
  apply map_ext. intros k. lia.
Qed.

Lemma zrange_cons lo hi : lo < hi -> zrange lo hi = lo :: zrange (lo + 1) hi.
Proof.
  intros H. unfold zrange.
  replace (Z.to_nat (hi - lo)) with (S (Z.to_nat (hi - (lo + 1)))) by lia.
  simpl. f_equal; [lia |].
  rewrite <- seq_shift, map_map. apply map_ext. intros k. lia.
Qed.

Lemma zrange_bounds lo hi i : In i (zrange lo hi) -> lo <= i < hi.
Proof.
  unfold zrange. rewrite in_map_iff. intros [k [<- Hk]].
  apply in_seq in Hk. lia.
Qed.

(** First-order differencing, unfolded along the list. *)
Lemma diffOnce_step a b l :
  Arima.diffOnce (a :: b :: l) 1 = (b - a)%num :: Arima.diffOnce (b :: l) 1.
Proof.
  unfold Arima.diffOnce.
  assert (Hl : len (a :: b :: l) = len (b :: l) + 1) by (unfold len; simpl length; lia).
  rewrite Hl.
  rewrite (zrange_cons (lo := 1)) by (unfold len; simpl length; lia).
  rewrite (zrange_shift 1 (len (b :: l))).
  cbn [map]. f_equal. rewrite map_map.
  apply map_ext_in. intros i Hi. apply zrange_bounds in Hi.
  rewrite (get_cons_succ a (b :: l)) by lia.
  replace (i + 1 - 1) with ((i - 1) + 1) by lia.
  rewrite (get_cons_succ a (b :: l)) by lia. reflexivity.
Qed.

Lemma diffOnce_single a : Arima.diffOnce [a] 1 = [].
Proof. reflexivity. Qed.

Lemma rebuild_from_diffs (acc : list num) (x : Qc) (qs : list Qc) :
  fold_left pushSum (Arima.diffOnce (map Fin (x :: qs)) 1) (acc ++ [Fin x])
  = acc ++ [Fin x] ++ map Fin qs.
Proof.
  revert acc x. induction qs as [|y qs IH]; intros acc x.
  - simpl. reflexivity.
  - change (map Fin (x :: y :: qs)) with (Fin x :: Fin y :: map Fin qs).
    rewrite diffOnce_step. cbn [fold_left].
    unfold pushSum at 2. rewrite get_last.
    assert (Hxy : (Fin x + (Fin y - Fin x))%num = Fin y).
    { simpl. f_equal. ring. }
    rewrite Hxy.
    change (Fin y :: map Fin qs) with (map Fin (y :: qs)).
    rewrite (IH (acc ++ [Fin x]) y).
    rewrite <- !app_assoc. reflexivity.
Qed.

Lemma slice_from_app {A} (l1 l2 : list A) : slice_from (l1 ++ l2) (len l1) = l2.
Proof.
  unfold slice_from, slice, rel_index, len.
  rewrite length_app.
  destruct (Z.of_nat (length l1) <? 0) eqn:E1; [apply Z.ltb_lt in E1; lia |].
  destruct (Z.of_nat (length l1 + length l2) <? 0) eqn:E2; [apply Z.ltb_lt in E2; lia |].
  rewrite Z.min_id, (Z.min_l (Z.of_nat (length l1))) by lia.
  rewrite Nat2Z.id, skipn_app, skipn_all, Nat.sub_diag. simpl.
  apply firstn_all2. lia.
Qed.

Lemma difference_order_1 data : Arima.difference data 1 = Arima.diffOnce data 1.
Proof. reflexivity. Qed.

Lemma inverseDifference_order_1 originalData diffedData :
  Arima.inverseDifference originalData diffedData 1
  = slice_from (fold_left pushSum diffedData originalData) (len originalData).
Proof. reflexivity. Qed.

(** C6. For a series of rationals [x0, x1, ..., x(n-1)], differencing once
    and then inverse-differencing the result, seeded with [x0], gives back
    [x1, ..., x(n-1)], the last n - 1 elements, exactly. *)
Theorem difference_then_inverse (x0 : Qc) (rest : list Qc) :
  Arima.inverseDifference [Fin x0]
    (Arima.difference (map Fin (x0 :: rest)) 1) 1
  = map Fin rest.
Proof.
  rewrite difference_order_1, inverseDifference_order_1.
  change [Fin x0] with ([] ++ [Fin x0]) at 1.
  rewrite rebuild_from_diffs. simpl app.
  exact (slice_from_app [Fin x0] (map Fin rest)).
Qed.

(** The same on the series 3, 8, 6, 11, 4. *)
Example roundtrip_on_five_values :
  let xs := map ofZ [3; 8; 6; 11; 4] in
  Arima.inverseDifference [ofZ 3] (Arima.difference xs 1) 1 = map ofZ [8; 6; 11; 4].
Proof. apply beql_eq. vm_compute. reflexivity. Qed.

(** ** Rational arithmetic under [num] *)

Lemma ofZ_qz z : ofZ z = Fin (qz z).
Proof. reflexivity. Qed.

Lemma qz_add a b : qz (a + b) = (qz a + qz b)%Qc.
Proof.
  unfold qz, Qcplus. apply Q2Qc_eq_iff. cbn [this Q2Qc].
  rewrite !Qred_correct, inject_Z_plus. reflexivity.
Qed.

Lemma qz_mul a b : qz (a * b) = (qz a * qz b)%Qc.
Proof.
  unfold qz, Qcmult. apply Q2Qc_eq_iff. cbn [this Q2Qc].
  rewrite !Qred_correct, inject_Z_mult. reflexivity.
Qed.

Lemma qz_opp a : qz (- a) = (- qz a)%Qc.
Proof.
  unfold qz, Qcopp. apply Q2Qc_eq_iff. cbn [this Q2Qc].
  rewrite !Qred_correct, inject_Z_opp. reflexivity.
Qed.

Lemma qz_sub a b : qz (a - b) = (qz a - qz b)%Qc.
Proof. unfold Z.sub, Qcminus. now rewrite qz_add, qz_opp. Qed.

Lemma qz_eq_0 z : qz z = 0%Qc -> z = 0.
Proof.
  unfold qz. intros H. apply Q2Qc_eq_iff in H.
  unfold Qeq in H. simpl in H. lia.
Qed.

Lemma qz_nonzero z : z <> 0 -> qz z <> 0%Qc.
Proof. intros H E. now apply qz_eq_0 in E. Qed.

Lemma sgn_nonzero (x : Qc) : x <> 0%Qc -> sgn x <> Eq.
Proof. intros H E. apply H. now apply Qceq_alt. Qed.

Lemma div_fin (a b : Qc) : b <> 0%Qc -> (Fin a / Fin b)%num = Fin (a / b).
Proof.
  intros H. unfold div. pose proof (sgn_nonzero H) as Hs.
  destruct (sgn b); [contradiction | reflexivity | reflexivity].
Qed.

Lemma eqb_fin_zero (x : Qc) : x <> 0%Qc -> eqb (Fin x) zero = false.
Proof.
  intros H. unfold eqb, zero, ofZ. simpl.
  pose proof (sgn_nonzero H) as Hs. unfold sgn in Hs.
  change (Q2Qc (inject_Z 0)) with 0%Qc.
  destruct (x ?= 0)%Qc; [contradiction | reflexivity | reflexivity].
Qed.

(** ** Linear regression *)

Section LinearRegression.
Import PredictionService.

Lemma foldi_accumulate (pts : list (Z * Qc)) (i : Z) (a b c d : Qc) :
  foldi accumulate (rationalSeries pts) i (mkSums (Fin a) (Fin b) (Fin c) (Fin d))
  = mkSums (Fin (a + sigma (fun i _ => qz i) (map snd pts) i))
           (Fin (b + sigma (fun _ y => y) (map snd pts) i))
           (Fin (c + sigma (fun i y => (qz i * y)%Qc) (map snd pts) i))
           (Fin (d + sigma (fun i _ => (qz i * qz i)%Qc) (map snd pts) i)).
Proof.
  revert i a b c d. induction pts as [|[t y] pts IH]; intros i a b c d.
  - simpl. now rewrite !Qcplus_0_r.
  - simpl. unfold accumulate at 2. simpl.
    change (Q2Qc (inject_Z i)) with (qz i).
    rewrite IH. now rewrite !Qcplus_assoc.
Qed.

Lemma sigma_x_int (ys : list Qc) (s : Z) :
  sigma (fun i _ => qz i) ys s = qz (zSx (length ys) s).
Proof.
  revert s. induction ys as [|y ys IH]; intros s; simpl; [reflexivity |].
  now rewrite IH, qz_add.
Qed.

Lemma sigma_xx_int (ys : list Qc) (s : Z) :
  sigma (fun i _ => (qz i * qz i)%Qc) ys s = qz (zSxx (length ys) s).
Proof.
  revert s. induction ys as [|y ys IH]; intros s; simpl; [reflexivity |].
  now rewrite IH, qz_add, qz_mul.
Qed.

Lemma zSx_closed (n : nat) (s : Z) :
  2 * zSx n s = Z.of_nat n * (2 * s + Z.of_nat n - 1).
Proof.
  revert s. induction n as [|n IH]; intros s; [reflexivity |].
  cbn [zSx]. rewrite Z.mul_add_distr_l, IH. lia.
Qed.

Lemma zSxx_closed (n : nat) (s : Z) :
  6 * zSxx n s
  = Z.of_nat n * (6 * s * s + 6 * s * (Z.of_nat n - 1)
                  + (Z.of_nat n - 1) * (2 * Z.of_nat n - 1)).
Proof.
  revert s. induction n as [|n IH]; intros s; [reflexivity |].
  cbn [zSxx]. rewrite Z.mul_add_distr_l, IH.
  rewrite Nat2Z.inj_succ. unfold Z.succ. ring.
Qed.

(** The denominator depends on the number of points only and is
    positive from 2 points on: the guard on it never fires there. *)
Lemma denominator_positive (n : nat) :
  (2 <= n)%nat -> 0 < Z.of_nat n * zSxx n 0 - zSx n 0 * zSx n 0.
Proof.
  intros Hn.
  pose proof (zSx_closed n 0) as H1. pose proof (zSxx_closed n 0) as H2.
  assert (H : 12 * (Z.of_nat n * zSxx n 0 - zSx n 0 * zSx n 0)
              = Z.of_nat n * Z.of_nat n * (Z.of_nat n - 1) * (Z.of_nat n + 1)).
  { replace (12 * (Z.of_nat n * zSxx n 0 - zSx n 0 * zSx n 0))
      with (2 * Z.of_nat n * (6 * zSxx n 0) - 3 * ((2 * zSx n 0) * (2 * zSx n 0)))
      by ring.
    rewrite H1, H2. ring. }
  assert (0 < Z.of_nat n * Z.of_nat n * (Z.of_nat n - 1) * (Z.of_nat n + 1)) by nia.
  lia.
Qed.

Lemma ols_denominator_nonzero (ys : list Qc) :
  2 <= len ys -> (qz (len ys) * Sxx ys - Sx ys * Sx ys)%Qc <> 0%Qc.
Proof.
  intros Hn. unfold Sx, Sxx, len. rewrite sigma_x_int, sigma_xx_int.
  rewrite <- !qz_mul, <- qz_sub. apply qz_nonzero.
  pose proof (@denominator_positive (length ys)). unfold len in Hn. lia.
Qed.

Lemma linearRegression_rational (pts : list (Z * Qc)) :
  2 <= len pts ->
  linearRegression (rationalSeries pts)
  = Ok (mkCoeff (Fin (olsSlope (map snd pts))) (Fin (olsIntercept (map snd pts)))).
Proof.
  intros Hn. unfold linearRegression.
  assert (Hlen : len (rationalSeries pts) = len pts)
    by (unfold rationalSeries; apply len_map).
  rewrite Hlen.
  destruct (len pts <? 2) eqn:E; [apply Z.ltb_lt in E; lia |].
  unfold zero, ofZ. change (Q2Qc (inject_Z 0)) with 0%Qc.
  rewrite foldi_accumulate, !Qcplus_0_l.
  change (Q2Qc (inject_Z (len pts))) with (qz (len pts)).
  set (ys := map snd pts).
  assert (Hys : len ys = len pts) by (unfold ys; apply len_map).
  fold (Sx ys) (Sy ys) (Sxy ys) (Sxx ys).
  unfold fitFromSums. cbn [sumX sumY sumXY sumX2].
  pose proof (@ols_denominator_nonzero ys) as Hden. rewrite Hys in Hden.
  specialize (Hden Hn).
  assert (Hd : (Fin (qz (len pts)) * Fin (Sxx ys) - Fin (Sx ys) * Fin (Sx ys))%num
               = Fin (qz (len pts) * Sxx ys - Sx ys * Sx ys)) by reflexivity.
  rewrite Hd, (eqb_fin_zero Hden).
  assert (Hnum : (Fin (qz (len pts)) * Fin (Sxy ys) - Fin (Sx ys) * Fin (Sy ys))%num
               = Fin (qz (len pts) * Sxy ys - Sx ys * Sy ys)) by reflexivity.
  rewrite Hnum, (div_fin _ Hden).
  assert (Hs : ((qz (len pts) * Sxy ys - Sx ys * Sy ys)
                / (qz (len pts) * Sxx ys - Sx ys * Sx ys))%Qc = olsSlope ys)
    by (unfold olsSlope; now rewrite Hys).
  rewrite Hs.
  assert (Hi : (Fin (Sy ys) - Fin (olsSlope ys) * Fin (Sx ys))%num
               = Fin (Sy ys - olsSlope ys * Sx ys)) by reflexivity.
  rewrite Hi, div_fin by (apply qz_nonzero; lia).
  unfold olsIntercept. now rewrite Hys.
Qed.

End LinearRegression.

Lemma resultBeq_eq r l : resultBeq r l = true -> r = Ok l.
Proof.
  destruct r as [l'|e]; simpl; intros H; [|discriminate].
  f_equal. now apply beql_eq.
Qed.

(** C3. The linear model on a series of rationals: with fewer than 2
    points it fails; from 2 points on it returns the closed-form slope
    and intercept over the index sequence 0, 1, ..., n-1 and predicts
    slope * (n + i) + intercept for the i-th future period; the values
    1, 2, 3 with 2 periods give 4 and 5; and the fit fails whenever the
    denominator it is given is exactly zero. *)
Theorem linear_model_closed_form (pts : list (Z * Qc)) (periods : Z) (mp : modelParams) :
  let data := rationalSeries pts in
  let ys := map snd pts in
  let n := len pts in
  (n < 2 -> PredictionService.linearRegression data = Err LinearTooFew)
  /\ (2 <= n ->
      PredictionService.linearRegression data
      = Ok (PredictionService.mkCoeff (Fin (olsSlope ys)) (Fin (olsIntercept ys)))
      /\ PredictionService.dispatch data periods "linear" mp
         = Ok (map (fun i => Fin (olsSlope ys * qz (n + i) + olsIntercept ys)%Qc)
                   (zrange 0 periods)))
  /\ (forall (m : num) (s : PredictionService.sums),
        (m * PredictionService.sumX2 s
         - PredictionService.sumX s * PredictionService.sumX s)%num = zero ->
        PredictionService.fitFromSums m s = Err LinearDegenerate)
  /\ PredictionService.dispatch
       (rationalSeries [(0, qz 1); (1, qz 2); (2, qz 3)]) 2 "linear" mp
     = Ok [ofZ 4; ofZ 5].
Proof.
  cbv zeta.
  assert (Hlen : len (rationalSeries pts) = len pts)
    by (unfold rationalSeries; apply len_map).
  split; [| split; [| split]].
  - intros Hn. unfold PredictionService.linearRegression. rewrite Hlen.
    destruct (len pts <? 2) eqn:E; [reflexivity | apply Z.ltb_ge in E; lia].
  - intros Hn. split; [now apply linearRegression_rational |].
    unfold PredictionService.dispatch. cbn [String.eqb Ascii.eqb Bool.eqb].
    rewrite linearRegression_rational by exact Hn. cbn [bind].
    cbn [PredictionService.slope PredictionService.intercept].
    unfold forPeriods. rewrite Hlen. reflexivity.
  - intros m s Hz. unfold PredictionService.fitFromSums. rewrite Hz. reflexivity.
  - apply resultBeq_eq. vm_compute. reflexivity.
Qed.

Lemma linear_model_closed_form_witness :
  PredictionService.linearRegression (rationalSeries [(2020, qz 7)]) = Err LinearTooFew
  /\ PredictionService.dispatch (rationalSeries sixYears) 3 "linear" noParams
     = Ok (map (fun i => Fin (olsSlope (map snd sixYears) * qz (6 + i)
                              + olsIntercept (map snd sixYears))%Qc)
               (zrange 0 3))
  /\ PredictionService.fitFromSums one
       (PredictionService.mkSums zero (ofZ 5) zero zero) = Err LinearDegenerate.
Proof.
  split; [| split].
  - apply (proj1 (linear_model_closed_form [(2020, qz 7)] 1 noParams)).
    vm_compute. reflexivity.
  - apply (proj1 (proj2 (linear_model_closed_form sixYears 3 noParams))).
    vm_compute. discriminate.
  - apply (proj1 (proj2 (proj2 (linear_model_closed_form [] 1 noParams)))).
    apply beq_eq. vm_compute. reflexivity.
Defined.

(** A valid call of the linear model always returns. *)
Lemma linear_forecast_returns (pts : list (Z * Qc)) (periods timeInterval : Z)
  (timeFormat : string) (mp : modelParams) :
  2 <= len pts -> 0 < periods ->
  exists r,
    PredictionService.generatePrediction (rationalSeries pts) periods "linear"
      timeInterval timeFormat mp = Ok r.
Proof.
  intros Hn Hp. unfold PredictionService.generatePrediction.
  assert (Hlen : len (rationalSeries pts) = len pts)
    by (unfold rationalSeries; apply len_map).
  rewrite Hlen.
  destruct (len pts <? 2) eqn:E; [apply Z.ltb_lt in E; lia |].
  destruct (periods <=? 0) eqn:E2; [apply Z.leb_le in E2; lia |].
  unfold PredictionService.dispatch. cbn [String.eqb Ascii.eqb Bool.eqb].
  rewrite linearRegression_rational by exact Hn.
  cbn [rethrow bind]. eexists. reflexivity.
Qed.

(** The scenario of six yearly points 100, 110, ..., 150: the three
    predicted values continue the line. *)
Example linear_six_years :
  PredictionService.dispatch (rationalSeries sixYears) 3 "linear" noParams
  = Ok [ofZ 160; ofZ 170; ofZ 180].
Proof. apply resultBeq_eq. vm_compute. reflexivity. Qed.

(** ** Integers as numbers *)















(** The window in force is a rational or NaN, never an infinity. *)
Lemma resolveWindow_not_infinite (n : Z) (windowSize : option num) :
  MovingAverage.resolveWindow n windowSize <> PInf
  /\ MovingAverage.resolveWindow n windowSize <> NInf.
Proof.
  unfold MovingAverage.resolveWindow.
  destruct windowSize as [[q| | |]|]; cbv [lt ge cmp ofZ];
    repeat match goal with
           | |- context [match ?c with _ => _ end] => destruct c
           end; split; discriminate.
Qed.

(** ** Moving averages of a constant series *)

Section ConstantSeries.
Import MovingAverage.





Lemma get_repeat (x : num) (n : nat) (i : Z) :
  0 <= i < Z.of_nat n -> get (repeat x n) i = x.
Proof.
  intros H. unfold get.
  destruct (i <? 0) eqn:E; [apply Z.ltb_lt in E; lia |].
  apply nth_repeat_lt. lia.
Qed.

Lemma values_constant (data : list point) (x : num) :
  Forall (fun p => value p = x) data -> values data = repeat x (length data).
Proof.
  induction 1 as [|p data Hp _ IH]; simpl; [reflexivity |].
  now rewrite Hp, IH.
Qed.

Lemma map_const {A B} (x : B) (l : list A) :
  map (fun _ => x) l = repeat x (length l).
Proof. induction l; simpl; congruence. Qed.

Lemma forPeriods_const periods (f : Z -> num) (x : num) :
  (forall i, 0 <= i < periods -> f i = x) ->
  forPeriods periods f = repeat x (Z.to_nat periods).
Proof.
  intros H. unfold forPeriods.
  rewrite (map_ext_in f (fun _ => x)).
  - rewrite map_const, zrange_length. f_equal. lia.
  - intros i Hi. apply zrange_bounds in Hi. now apply H.
Qed.










End ConstantSeries.

Section ConstantSeriesWeighted.
Import MovingAverage.


Lemma get_map_zrange (g : Z -> num) (lo hi i : Z) :
  0 <= i < hi - lo -> get (map g (zrange lo hi)) i = g (lo + i).
Proof.
  intros H. unfold get, zrange.
  destruct (i <? 0) eqn:E; [apply Z.ltb_lt in E; lia |].
  rewrite map_map.
  rewrite (nth_indep _ NaN (g (lo + Z.of_nat 0)))
    by (rewrite length_map, length_seq; lia).
  rewrite (map_nth (fun k => g (lo + Z.of_nat k))).
  rewrite seq_nth by lia. f_equal. lia.
Qed.






End ConstantSeriesWeighted.

Section ConstantSeriesExponential.
Import MovingAverage.

Lemma smooth_constant (a v : Qc) (m : nat) :
  smooth (Fin a) (Fin v) (repeat (Fin v) m) = repeat (Fin v) m.
Proof.
  induction m as [|m IH]; [reflexivity |].
  cbn [repeat smooth].
  assert (H : (Fin a * Fin v + (one - Fin a) * Fin v)%num = Fin v).
  { unfold one, ofZ. change (Q2Qc (inject_Z 1)) with 1%Qc.
    change (Fin a * Fin v + (Fin 1 - Fin a) * Fin v)%num
      with (Fin (a * v + (1 - a) * v)).
    f_equal. ring. }
  rewrite H, IH. reflexivity.
Qed.




End ConstantSeriesExponential.




(** ** Every model returns one value per period *)

Section ForecastLength.

Lemma fallbackForecast_length vals periods :
  length (ExponentialSmoothing.fallbackForecast vals periods) = Z.to_nat periods.
Proof. unfold ExponentialSmoothing.fallbackForecast. apply forPeriods_length. Qed.

Lemma single_length data periods alpha l :
  ExponentialSmoothing.singleExponentialSmoothing data periods alpha = Ok l ->
  length l = Z.to_nat periods.
Proof.
  unfold ExponentialSmoothing.singleExponentialSmoothing. intros H.
  destruct (len data <? 3); [discriminate |].
  match type of H with (if ?c then _ else _) = _ => destruct c end;
    injection H as <-;
    [apply fallbackForecast_length | apply forPeriods_length].
Qed.

Lemma double_length data periods alpha beta l :
  ExponentialSmoothing.doubleExponentialSmoothing data periods alpha beta = Ok l ->
  length l = Z.to_nat periods.
Proof.
  unfold ExponentialSmoothing.doubleExponentialSmoothing. intros H.
  destruct (len data <? 3); [discriminate |].
  match type of H with (if ?c then _ else _) = _ => destruct c end;
    injection H as <-;
    [apply fallbackForecast_length | apply forPeriods_length].
Qed.

Lemma triple_length data periods seasonLength alpha beta gamma l :
  ExponentialSmoothing.tripleExponentialSmoothing data periods seasonLength
    alpha beta gamma = Ok l ->
  length l = Z.to_nat periods.
Proof.
  unfold ExponentialSmoothing.tripleExponentialSmoothing. intros H.
  destruct (len data <? seasonLength * 2); [discriminate |].
  match type of H with (if ?c then _ else _) = _ => destruct c end;
    injection H as <-;
    [apply fallbackForecast_length | apply forPeriods_length].
Qed.

Lemma exponentialSmoothing_length data periods type seasonLength l :
  ExponentialSmoothing.exponentialSmoothing data periods type seasonLength = Ok l ->
  length l = Z.to_nat periods.
Proof.
  unfold ExponentialSmoothing.exponentialSmoothing. intros H.
  destruct (len data <? 3); [discriminate |].
  set (ty := if String.eqb type "auto" then _ else _) in H. clearbody ty.
  destruct (String.eqb ty "single"); [now apply single_length in H |].
  destruct (String.eqb ty "double"); [now apply double_length in H |].
  destruct (String.eqb ty "triple"); [now apply triple_length in H |].
  now apply single_length in H.
Qed.

Lemma simpleMA_length data periods windowSize l :
  MovingAverage.simpleMovingAverage data periods windowSize = Ok l ->
  length l = Z.to_nat periods.
Proof.
  unfold MovingAverage.simpleMovingAverage. intros H.
  destruct (len data <? 2); [discriminate |].
  injection H as <-. apply forPeriods_length.
Qed.

Lemma weightedMA_length data periods windowSize l :
  MovingAverage.weightedMovingAverage data periods windowSize = Ok l ->
  length l = Z.to_nat periods.
Proof.
  unfold MovingAverage.weightedMovingAverage. intros H.
  destruct (len data <? 2); [discriminate |].
  injection H as <-. apply forPeriods_length.
Qed.

Lemma exponentialMA_length data periods alpha l :
  MovingAverage.exponentialMovingAverage data periods alpha = Ok l ->
  length l = Z.to_nat periods.
Proof.
  unfold MovingAverage.exponentialMovingAverage. intros H.
  destruct (len data <? 2); [discriminate |].
  injection H as <-. apply forPeriods_length.
Qed.

Lemma movingAverage_length data periods type windowSize alpha l :
  MovingAverage.movingAverage data periods type windowSize alpha = Ok l ->
  length l = Z.to_nat periods.
Proof.
  unfold MovingAverage.movingAverage. intros H.
  destruct (len data <? 2); [discriminate |].
  set (ty := if String.eqb type "auto" then _ else _) in H. clearbody ty.
  destruct (String.eqb ty "simple"); [now apply simpleMA_length in H |].
  destruct (String.eqb ty "weighted"); [now apply weightedMA_length in H |].
  destruct (String.eqb ty "exponential"); [now apply exponentialMA_length in H |].
  now apply simpleMA_length in H.
Qed.

Lemma polynomial2_length data periods l :
  PolynomialRegression.polynomialRegression2 data periods = Ok l ->
  length l = Z.to_nat periods.
Proof.
  unfold PolynomialRegression.polynomialRegression2. intros H.
  destruct (PolynomialRegression.calculatePolynomialCoefficients data 2);
    simpl in H; [|discriminate].
  injection H as <-. apply forPeriods_length.
Qed.

Lemma polynomial3_length data periods l :
  PolynomialRegression.polynomialRegression3 data periods = Ok l ->
  length l = Z.to_nat periods.
Proof.
  unfold PolynomialRegression.polynomialRegression3. intros H.
  destruct (PolynomialRegression.calculatePolynomialCoefficients data 3);
    simpl in H; [|discriminate].
  injection H as <-. apply forPeriods_length.
Qed.

Lemma polynomialAuto_length data periods l :
  PolynomialRegression.polynomialRegressionAuto data periods = Ok l ->
  length l = Z.to_nat periods.
Proof.
  unfold PolynomialRegression.polynomialRegressionAuto. intros H.
  destruct (len data <? 4); [now apply polynomial2_length in H |].
  destruct (fold_left _ _ _) as [bestDegree bestR2].
  destruct (bestDegree =? 2);
    [now apply polynomial2_length in H | now apply polynomial3_length in H].
Qed.

Lemma polynomialRegression_length data periods degree l :
  PolynomialRegression.polynomialRegression data periods degree = Ok l ->
  length l = Z.to_nat periods.
Proof.
  unfold PolynomialRegression.polynomialRegression. intros H.
  destruct (len data <? 3); [discriminate |].
  destruct degree as [z|s].
  - destruct (z =? 2); [now apply polynomial2_length in H |].
    destruct (z =? 3); [now apply polynomial3_length in H | discriminate].
  - destruct (String.eqb s "auto"); [now apply polynomialAuto_length in H | discriminate].
Qed.

Lemma arStep_length phi (xs : list Z) st :
  length (fst (fold_left (fun st _ => Arima.arStep phi st) xs st))
  = (length (fst st) + length xs)%nat.
Proof.
  revert st. induction xs as [|x xs IH]; intros [preds hist]; simpl; [lia |].
  rewrite IH. simpl. rewrite length_app. simpl. lia.
Qed.

Lemma arForecast_length data phi periods :
  length (Arima.arForecast data phi periods) = Z.to_nat periods.
Proof.
  unfold Arima.arForecast. rewrite arStep_length, zrange_length. simpl. f_equal. lia.
Qed.

Lemma inverse_pushes (order : Z) (diffed original : list num) :
  exists extra,
    fold_left (fun result d =>
                 result ++ [(get result (len result - order) + d)%num])
              diffed original
    = original ++ extra
    /\ length extra = length diffed.
Proof.
  revert original. induction diffed as [|d diffed IH]; intros original.
  - exists []. simpl. now rewrite app_nil_r.
  - simpl. destruct (IH (original ++ [(get original (len original - order) + d)%num]))
      as [extra [He Hl]].
    exists ((get original (len original - order) + d)%num :: extra).
    rewrite He, <- app_assoc. simpl. split; [reflexivity | now rewrite Hl].
Qed.

Lemma inverseDifference_length original diffed order :
  length (Arima.inverseDifference original diffed order) = length diffed.
Proof.
  unfold Arima.inverseDifference.
  destruct (inverse_pushes order diffed original) as [extra [He Hl]].
  rewrite He, slice_from_app. exact Hl.
Qed.

Lemma arima_length data periods params l :
  Arima.arima data periods params = Ok l -> length l = Z.to_nat periods.
Proof.
  unfold Arima.arima. destruct params as [[pp pd] pq]. unfold Arima.ordersOf.
  intros H.
  destruct (len data <? 20); [discriminate |].
  match type of H with (if ?c then _ else _) = _ => destruct c end; [discriminate |].
  destruct (Arima.autoregressive _ _) as [phi|e]; simpl in H; [|discriminate].
  injection H as <-. rewrite inverseDifference_length. apply arForecast_length.
Qed.

Lemma dispatch_length data periods model mp l :
  PredictionService.dispatch data periods model mp = Ok l ->
  length l = Z.to_nat periods.
Proof.
  unfold PredictionService.dispatch. intros H.
  destruct (String.eqb model "linear").
  { destruct (PredictionService.linearRegression data); simpl in H; [|discriminate].
    injection H as <-. apply forPeriods_length. }
  destruct (String.eqb model "exponential");
    [now apply exponentialSmoothing_length in H |].
  destruct (String.eqb model "movingAverage");
    [now apply movingAverage_length in H |].
  destruct (String.eqb model "polynomial");
    [now apply polynomialRegression_length in H |].
  destruct (String.eqb model "arima"); [now apply arima_length in H |].
  discriminate.
Qed.

End ForecastLength.

(** ** The stable sort *)

Section SortFacts.
Context {A : Type} (key : A -> Z).

Lemma insert_by_perm (a : A) (l : list A) : Permutation (insert_by key a l) (a :: l).
Proof.
  induction l as [|b l IH]; simpl; [apply Permutation_refl |].
  destruct (key a <=? key b); [apply Permutation_refl |].
  rewrite IH. apply perm_swap.
Qed.

Lemma sort_by_perm (l : list A) : Permutation (sort_by key l) l.
Proof.
  induction l as [|a l IH]; simpl; [constructor |].
  rewrite insert_by_perm. now constructor.
Qed.

Lemma sort_by_In (l : list A) (x : A) : In x (sort_by key l) <-> In x l.
Proof.
  split; apply Permutation_in; [apply sort_by_perm | symmetry; apply sort_by_perm].
Qed.

Lemma insert_by_sorted (a : A) (l : list A) :
  StronglySorted (keyLe key) l -> StronglySorted (keyLe key) (insert_by key a l).
Proof.
  induction 1 as [|b l Hs IH Hb]; simpl; [repeat constructor |].
  destruct (key a <=? key b) eqn:E.
  - apply Z.leb_le in E. constructor; [now constructor |].
    constructor; [exact E |].
    rewrite Forall_forall in *. intros x Hx. specialize (Hb x Hx).
    unfold keyLe in *. lia.
  - apply Z.leb_gt in E. constructor; [exact IH |].
    rewrite Forall_forall in *. intros x Hx.
    apply (Permutation_in _ (insert_by_perm a l)) in Hx.
    destruct Hx as [<- | Hx]; [unfold keyLe; lia | now apply Hb].
Qed.

Lemma sort_by_sorted (l : list A) : StronglySorted (keyLe key) (sort_by key l).
Proof.
  induction l as [|a l IH]; simpl; [constructor | now apply insert_by_sorted].
Qed.






End SortFacts.

(** ** Where the series is put in time order *)


Section TimeOrder.
Import LocalDataService.


Lemma getTimeSeriesData_sorted load filename o data :
  getTimeSeriesData load filename o = Ok data ->
  StronglySorted (keyLe time) data.
Proof.
  unfold getTimeSeriesData. destruct (load filename) as [es|e]; simpl; [|discriminate].
  intros H. injection H as <-.
  pose proof (sort_by_sorted repp (filter (keeps o) es)) as Hs.
  induction Hs as [|a l _ IH Ha]; simpl; constructor; [exact IH |].
  rewrite Forall_forall in *. intros x Hx. apply in_map_iff in Hx.
  destruct Hx as [y [<- Hy]]. exact (Ha y Hy).
Qed.




End TimeOrder.



(** ** The detected interval and the projected times *)

Section ProjectedTimes.
Import PredictionService.

Lemma intervalsOf_positive ym ts : Forall (fun d => 0 < d) (intervalsOf ym ts).
Proof.
  induction ts as [|p1 ts IH]; [constructor |].
  destruct ts as [|p2 ts]; [constructor |].
  cbn [intervalsOf].
  destruct (timeDelta ym (time p1) (time p2) >? 0) eqn:E; [|exact IH].
  constructor; [|exact IH]. rewrite Z.gtb_ltb in E. now apply Z.ltb_lt in E.
Qed.

Lemma bump_keys k counts x :
  In x (map fst (bump k counts)) -> x = k \/ In x (map fst counts).
Proof.
  induction counts as [|[k' c] counts IH]; simpl.
  - intros [<- | []]. now left.
  - destruct (k =? k') eqn:E; simpl.
    + intros [<- | H]; [right; now left | right; now right].
    + intros [<- | H]; [right; now left |].
      destruct (IH H) as [-> | H']; [now left | right; now right].
Qed.

Lemma countIntervals_keys intervals x :
  In x (map fst (countIntervals intervals)) -> In x intervals.
Proof.
  unfold countIntervals.
  assert (G : forall counts,
             In x (map fst (fold_left (fun counts k => bump k counts) intervals counts)) ->
             In x intervals \/ In x (map fst counts)).
  { induction intervals as [|k intervals IH]; intros counts H; simpl in *.
    - now right.
    - destruct (IH _ H) as [H' | H']; [left; now right |].
      destruct (bump_keys _ _ _ H') as [-> | H'']; [left; now left | now right]. }
  intros H. destruct (G [] H) as [H' | []]. exact H'.
Qed.

Lemma objectKeys_keys counts x :
  In x (objectKeys counts) -> In x (map fst counts).
Proof.
  unfold objectKeys. rewrite in_app_iff, sort_by_In, !filter_In. tauto.
Qed.

Lemma pickMode_positive counts keys st :
  1 <= fst st -> Forall (fun k => 1 <= k) keys ->
  1 <= fst (fold_left (pickMode counts) keys st).
Proof.
  intros Hst Hk. revert st Hst. induction Hk as [|k keys Hk1 _ IH]; intros st Hst.
  - exact Hst.
  - simpl. apply IH. unfold pickMode. destruct st as [m c].
    destruct (countOf counts k >? c); simpl; [exact Hk1 | exact Hst].
Qed.

Lemma detectTimeInterval_positive ts : 1 <= detectTimeInterval ts.
Proof.
  unfold detectTimeInterval.
  destruct ts as [|first [|second ts]]; try lia.
  set (ivs := intervalsOf _ _).
  pose proof (intervalsOf_positive (isYearMonth (time first)) (first :: second :: ts)) as Hpos.
  fold ivs in Hpos. destruct ivs as [|d ivs]; [lia |].
  apply pickMode_positive; [simpl; lia |].
  rewrite Forall_forall in *. intros k Hk.
  apply objectKeys_keys, countIntervals_keys in Hk.
  specialize (Hpos k Hk). lia.
Qed.

(** A projected year-month time, for a non-negative last time: the month
    is carried into the year, and the time lies [k] months after. *)
Lemma nextTime_yearmonth (lastTime timeInterval i : Z) :
  0 <= lastTime -> 1 <= timeInterval -> 0 <= i ->
  let t := nextTime "yearmonth" lastTime timeInterval i in
  1 <= Z.rem t 100 <= 12
  /\ 0 <= t
  /\ monthIndex t = monthIndex lastTime + timeInterval * (i + 1).
Proof.
  intros Hl Hi Hk. cbv zeta. unfold nextTime, monthIndex.
  change (String.eqb "yearmonth" "yearmonth") with true. cbv iota.
  rewrite (Z.rem_mod_nonneg lastTime 100) by lia.
  pose proof (Z.mod_pos_bound lastTime 100 ltac:(lia)) as Hm.
  pose proof (Z.div_pos lastTime 100 Hl ltac:(lia)) as Hy.
  set (y := lastTime / 100) in *. set (m := lastTime mod 100) in *.
  assert (Hk1 : 1 <= timeInterval * (i + 1)) by nia.
  set (k := timeInterval * (i + 1)) in *.
  destruct (m + k >? 12) eqn:E.
  - rewrite Z.gtb_ltb in E. apply Z.ltb_lt in E.
    rewrite (Z.rem_mod_nonneg (m + k - 1) 12) by lia.
    pose proof (Z.mod_pos_bound (m + k - 1) 12 ltac:(lia)) as Hr.
    pose proof (Z.div_mod (m + k - 1) 12 ltac:(lia)) as Hdm.
    pose proof (Z.div_pos (m + k - 1) 12 ltac:(lia) ltac:(lia)) as Hq.
    set (q := (m + k - 1) / 12) in *. set (r := (m + k - 1) mod 12) in *.
    assert (Ht : 0 <= (y + q) * 100 + (r + 1)) by nia.
    rewrite (Z.rem_mod_nonneg _ 100) by lia.
    assert (Hdiv : ((y + q) * 100 + (r + 1)) / 100 = y + q).
    { symmetry. apply (Z.div_unique _ _ _ (r + 1)); lia. }
    assert (Hmod : ((y + q) * 100 + (r + 1)) mod 100 = r + 1).
    { symmetry. apply (Z.mod_unique _ _ (y + q)); lia. }
    rewrite Hdiv, Hmod. lia.
  - rewrite Z.gtb_ltb in E. apply Z.ltb_ge in E.
    assert (Ht : 0 <= y * 100 + (m + k)) by nia.
    rewrite (Z.rem_mod_nonneg _ 100) by lia.
    assert (Hdiv : (y * 100 + (m + k)) / 100 = y).
    { symmetry. apply (Z.div_unique _ _ _ (m + k)); lia. }
    assert (Hmod : (y * 100 + (m + k)) mod 100 = m + k).
    { symmetry. apply (Z.mod_unique _ _ y); lia. }
    rewrite Hdiv, Hmod. lia.
Qed.

(** Among times whose month is in 1..12 the order of the times is the
    order of their month counts. *)
Lemma monthIndex_order (t1 t2 : Z) :
  0 <= t1 -> 0 <= t2 ->
  1 <= Z.rem t1 100 <= 12 -> 1 <= Z.rem t2 100 <= 12 ->
  monthIndex t1 < monthIndex t2 -> t1 < t2.
Proof.
  unfold monthIndex. intros H1 H2.
  rewrite !Z.rem_mod_nonneg by lia. intros Hm1 Hm2 Hlt.
  pose proof (Z.div_mod t1 100 ltac:(lia)).
  pose proof (Z.div_mod t2 100 ltac:(lia)).
  lia.
Qed.

End ProjectedTimes.

Section PredictionPayload.
Import PredictionService.

Lemma map_combine_index {A B} (g : nat -> B) (l : list A) (s : nat) :
  map (fun '(i, _) => g i) (combine (seq s (length l)) l) = map g (seq s (length l)).
Proof.
  revert s. induction l as [|a l IH]; intros s; simpl; [reflexivity |].
  now rewrite IH.
Qed.

Lemma map_nth_error_seq {A} (l : list A) :
  map (nth_error l) (seq 0 (length l)) = map Some l.
Proof.
  induction l as [|a l IH]; simpl; [reflexivity |].
  f_equal. rewrite <- seq_shift, map_map. exact IH.
Qed.

Lemma payload_times (vals : list num) (times : list Z) :
  length vals = length times ->
  map p_time (mapi (fun val index => mkPrediction (nth_error times index) val true) vals)
  = map Some times.
Proof.
  intros Hl. unfold mapi. rewrite map_map.
  rewrite (map_ext _ (fun '(i, _) => nth_error times i)) by (now intros [i a]).
  rewrite map_combine_index, Hl. apply map_nth_error_seq.
Qed.

Lemma payload_values (vals : list num) (times : list Z) :
  map p_value (mapi (fun val index => mkPrediction (nth_error times index) val true) vals)
  = vals.
Proof.
  unfold mapi. rewrite map_map.
  rewrite (map_ext _ (fun ia : nat * num => snd ia)) by (now intros [i a]).
  rewrite <- (map_map (fun ia : nat * num => snd ia) (fun x => x)), map_id.
  clear times. generalize 0%nat.
  induction vals as [|a vals IH]; intros s; simpl; [reflexivity | now rewrite IH].
Qed.

Lemma nth_error_projected (f : Z -> Z) (periods : Z) (i : nat) (t : Z) :
  nth_error (map f (zrange 0 periods)) i = Some t ->
  t = f (Z.of_nat i) /\ Z.of_nat i < periods.
Proof.
  intros H. unfold zrange in H. rewrite map_map, nth_error_map, nth_error_seq in H.
  destruct (i <? Z.to_nat (periods - 0))%nat eqn:E; simpl in H; [|discriminate].
  apply Nat.ltb_lt in E. injection H as <-. split; [reflexivity | lia].
Qed.

(** The times and the values of the predicted points of a result. *)
Lemma generatePrediction_payload data periods model timeInterval timeFormat mp r :
  generatePrediction data periods model timeInterval timeFormat mp = Ok r ->
  exists raw,
    dispatch data periods model mp = Ok raw
    /\ map p_time (predictions r)
       = map Some (map (nextTime timeFormat (time (lastPoint data)) timeInterval)
                       (zrange 0 periods))
    /\ map p_value (predictions r)
       = map (fun val => if isNaN val then zero else val) raw.
Proof.
  unfold generatePrediction. intros H.
  destruct (len data <? 2); [discriminate |].
  destruct (periods <=? 0); [discriminate |].
  destruct (dispatch data periods model mp) as [raw|e] eqn:Ed; simpl in H; [|discriminate].
  injection H as <-. exists raw. cbn [predictions].
  split; [reflexivity | split].
  - apply payload_times.
    rewrite !length_map, zrange_length, (dispatch_length _ _ _ _ Ed). f_equal. lia.
  - apply payload_values.
Qed.

End PredictionPayload.

(** The predicted points for any interval of at least 1 and either
    format: one point per period, each time greater than the one before
    and one interval after it. *)
Lemma projected_times_spaced (data : list point) (periods : Z) (model : string)
  (timeInterval : Z) (timeFormat : string) (mp : modelParams)
  (r : PredictionService.predictionResult) :
  let lastTime := time (PredictionService.lastPoint data) in
  0 < periods ->
  1 <= timeInterval ->
  (timeFormat = "yearmonth"%string -> 0 <= lastTime) ->
  PredictionService.generatePrediction data periods model timeInterval timeFormat mp
  = Ok r ->
  length (PredictionService.predictions r) = Z.to_nat periods
  /\ exists times : list Z,
       map PredictionService.p_time (PredictionService.predictions r) = map Some times
       /\ length times = Z.to_nat periods
       /\ (forall t, nth_error times 0 = Some t ->
                     lastTime < t /\ timeGap timeFormat lastTime t = timeInterval)
       /\ (forall i t1 t2,
             nth_error times i = Some t1 -> nth_error times (S i) = Some t2 ->
             t1 < t2 /\ timeGap timeFormat t1 t2 = timeInterval).
Proof.
  intros lastTime Hp Hint Hl H.
  destruct (generatePrediction_payload _ _ _ _ _ _ H) as [raw [Hd [Ht Hv]]].
  fold lastTime in Ht.
  assert (Hlen : length (PredictionService.predictions r) = Z.to_nat periods).
  { rewrite <- (length_map PredictionService.p_time), Ht, !length_map, zrange_length.
    f_equal. lia. }
  split; [exact Hlen |].
  exists (map (PredictionService.nextTime timeFormat lastTime timeInterval)
              (zrange 0 periods)).
  split; [exact Ht | split].
  { rewrite length_map, zrange_length. f_equal. lia. }
  assert (Hgap : forall i,
            0 <= i ->
            let t := PredictionService.nextTime timeFormat lastTime timeInterval i in
            timeGap timeFormat lastTime t = timeInterval * (i + 1)
            /\ (String.eqb timeFormat "yearmonth" = true ->
                0 <= lastTime /\ 0 <= t /\ 1 <= Z.rem t 100 <= 12)).
  { intros i Hi. cbv zeta. unfold timeGap.
    destruct (String.eqb timeFormat "yearmonth") eqn:E.
    - apply String.eqb_eq in E. subst timeFormat. specialize (Hl eq_refl).
      destruct (@nextTime_yearmonth lastTime timeInterval i Hl Hint Hi) as [Hr [Hn Hm]].
      split; [lia | tauto].
    - unfold PredictionService.nextTime. rewrite E. split; [lia | discriminate]. }
  assert (Hinc : forall i j,
            0 <= i < j ->
            PredictionService.nextTime timeFormat lastTime timeInterval i
            < PredictionService.nextTime timeFormat lastTime timeInterval j).
  { intros i j Hij.
    destruct (Hgap i ltac:(lia)) as [Gi Wi]. destruct (Hgap j ltac:(lia)) as [Gj Wj].
    revert Gi Wi Gj Wj. unfold timeGap.
    destruct (String.eqb timeFormat "yearmonth").
    - intros Gi Wi Gj Wj.
      destruct (Wi eq_refl) as [_ [Pi Ri]]. destruct (Wj eq_refl) as [_ [Pj Rj]].
      apply monthIndex_order; try assumption. nia.
    - intros Gi _ Gj _. nia. }
  split.
  - intros t Ht0. apply nth_error_projected in Ht0. destruct Ht0 as [-> _].
    destruct (Hgap 0 ltac:(lia)) as [G W]. cbn [Z.of_nat]. split; [|lia].
    revert G W. unfold timeGap.
    destruct (String.eqb timeFormat "yearmonth").
    + intros G W. destruct (W eq_refl) as [L [P R]].
      unfold monthIndex in G.
      pose proof (Z.div_mod lastTime 100 ltac:(lia)) as Hdm.
      pose proof (Z.mod_pos_bound lastTime 100 ltac:(lia)) as Hmb.
      set (t := PredictionService.nextTime timeFormat lastTime timeInterval 0) in *.
      pose proof (Z.div_mod t 100 ltac:(lia)) as Hdt.
      rewrite !Z.rem_mod_nonneg in * by lia. nia.
    + intros G _. lia.
  - intros i t1 t2 H1 H2.
    apply nth_error_projected in H1. apply nth_error_projected in H2.
    destruct H1 as [-> _]. destruct H2 as [-> _].
    split; [apply Hinc; lia |].
    destruct (Hgap (Z.of_nat i) ltac:(lia)) as [G1 _].
    destruct (Hgap (Z.of_nat (S i)) ltac:(lia)) as [G2 _].
    revert G1 G2. unfold timeGap. destruct (String.eqb timeFormat "yearmonth"); nia.
Qed.

(** C2. Whenever generatePrediction returns, with [periods > 0] and the
    interval and the format detected from the series as the controller
    detects them: the result holds exactly [periods] predicted points;
    the detected interval is at least 1; the first predicted time lies
    one interval after the last historical time, and each predicted time
    is greater than the one before and one interval after it, in months
    with the month carried into the year for the 'yearmonth' format and
    in years otherwise.  In the 'yearmonth' format the last historical
    time is taken not to be negative. *)
Theorem prediction_count_and_times (data : list point) (periods : Z)
  (model : string) (mp : modelParams) (r : PredictionService.predictionResult) :
  let timeInterval := PredictionService.detectTimeInterval data in
  let timeFormat := PredictionController.timeFormatOf data in
  let lastTime := time (PredictionService.lastPoint data) in
  0 < periods ->
  (timeFormat = "yearmonth"%string -> 0 <= lastTime) ->
  PredictionService.generatePrediction data periods model timeInterval timeFormat mp
  = Ok r ->
  length (PredictionService.predictions r) = Z.to_nat periods
  /\ 1 <= timeInterval
  /\ exists times : list Z,
       map PredictionService.p_time (PredictionService.predictions r) = map Some times
       /\ length times = Z.to_nat periods
       /\ (forall t, nth_error times 0 = Some t ->
                     lastTime < t /\ timeGap timeFormat lastTime t = timeInterval)
       /\ (forall i t1 t2,
             nth_error times i = Some t1 -> nth_error times (S i) = Some t2 ->
             t1 < t2 /\ timeGap timeFormat t1 t2 = timeInterval).
Proof.
  intros timeInterval timeFormat lastTime Hp Hl H.
  pose proof (detectTimeInterval_positive data) as Hint. fold timeInterval in Hint.
  destruct (@projected_times_spaced data periods model timeInterval timeFormat mp r
              Hp Hint Hl H) as [Hlen Htimes].
  split; [exact Hlen | split; [exact Hint | exact Htimes]].
Qed.

Lemma prediction_count_and_times_witness :
  exists r,
    PredictionService.generatePrediction monthly 3 "linear" 1 "yearmonth" noParams = Ok r
    /\ map PredictionService.p_time (PredictionService.predictions r)
       = [Some 202401; Some 202402; Some 202403]
    /\ length (PredictionService.predictions r) = 3%nat.
Proof.
  destruct (PredictionService.generatePrediction monthly 3 "linear" 1 "yearmonth" noParams)
    as [r|e] eqn:E; [|vm_compute in E; discriminate].
  exists r. split; [reflexivity |].
  assert (Hp : 0 < 3) by lia.
  assert (Hl : PredictionController.timeFormatOf monthly = "yearmonth"%string ->
               0 <= time (PredictionService.lastPoint monthly))
    by (intros _; vm_compute; discriminate).
  pose proof (@prediction_count_and_times monthly 3 "linear" noParams r Hp Hl E)
    as [Hlen _].
  split; [| exact Hlen].
  destruct (generatePrediction_payload _ _ _ _ _ _ E) as [raw [_ [Ht _]]].
  rewrite Ht. reflexivity.
Defined.

(** A call that meets the minimum size of its model can still fail
    inside the model: on 20 equal values the Yule-Walker system of the
    ARIMA model is singular. *)
Example constant_series_arima_fails :
  PredictionService.validateModelDataRequirements "arima"
    (len (yearly 2000 20 (fun _ => 7))) = true
  /\ PredictionService.generatePrediction (yearly 2000 20 (fun _ => 7)) 3 "arima"
       1 "year" noParams
     = Err (ModelFailed "arima" SingularMatrix).
Proof. split; vm_compute; reflexivity. Qed.

(** A sorted series ends at or after its first time. *)
Lemma sorted_first_le_last (data : list point) (d1 d2 : point) :
  StronglySorted (keyLe time) data -> data <> [] ->
  time (hd d1 data) <= time (last data d2).
Proof.
  intros Hs Hne. destruct data as [|p data]; [congruence |].
  apply StronglySorted_inv in Hs. destruct Hs as [_ Hall].
  destruct data as [|q data]; [simpl; lia |].
  rewrite Forall_forall in Hall. apply (Hall (last (q :: data) d2)).
  change (last (p :: q :: data) d2) with (last (q :: data) d2).
  destruct (exists_last (l := q :: data) ltac:(discriminate)) as [l' [a E]].
  rewrite E, last_last. apply in_or_app. right. now left.
Qed.

Lemma isYearMonth_range (t : Z) :
  PredictionService.isYearMonth t = true -> 100000 <= t <= 999999.
Proof.
  unfold PredictionService.isYearMonth. rewrite !andb_true_iff.
  intros [[_ H1] H2]. apply Z.leb_le in H1. apply Z.leb_le in H2. lia.
Qed.

(** Through the controller the series is sorted, so a 'yearmonth' series
    ends at or after its 6-digit first time: the predicted times are
    spaced as above for every data file, with no condition on the times. *)
Lemma controller_prediction_times
  (loadDataFile : string -> result (list LocalDataService.entry))
  (req : PredictionController.request) (r : PredictionService.predictionResult) :
  PredictionController.predict loadDataFile req = PredictionController.Success r ->
  exists (data : list point) (periods : Z),
    PredictionController.period req = Some periods
    /\ 0 < periods
    /\ length (PredictionService.predictions r) = Z.to_nat periods
    /\ exists times : list Z,
         map PredictionService.p_time (PredictionService.predictions r) = map Some times
         /\ forall i t1 t2,
              nth_error times i = Some t1 -> nth_error times (S i) = Some t2 ->
              t1 < t2
              /\ timeGap (PredictionController.timeFormatOf data) t1 t2
                 = PredictionService.detectTimeInterval data.
Proof.
  unfold PredictionController.predict. intros H.
  repeat match type of H with
         | (if ?c then PredictionController.BadRequest _ else _) = _ =>
             destruct c eqn:?; [discriminate |]
         end.
  destruct (LocalDataService.getTimeSeriesData _ _ _) as [data|e] eqn:Ed; [|discriminate].
  destruct (len data <? 2) eqn:E2; [discriminate |]. apply Z.ltb_ge in E2.
  match type of H with
  | (if ?c then PredictionController.BadRequest _ else _) = _ =>
      destruct c; [discriminate |]
  end.
  destruct (PredictionService.generatePrediction _ _ _ _ _ _) as [r'|e] eqn:Eg;
    [|discriminate].
  injection H as <-.
  destruct (PredictionController.period req) as [periods|] eqn:Ep; [|discriminate].
  assert (Hp : 0 < periods).
  { match goal with
    | Hc : (negb (truthyZ (Some periods)) || _) = false |- _ =>
        apply orb_false_iff in Hc; destruct Hc as [Hc1 Hc2]
    end.
    unfold truthyZ in Hc1. unfold orZ in Hc2.
    destruct (periods =? 0) eqn:E0; [discriminate |].
    apply Z.leb_gt in Hc2. lia. }
  assert (Hor : orZ (Some periods) 0 = periods).
  { unfold orZ. destruct (periods =? 0) eqn:E0; [apply Z.eqb_eq in E0; lia | reflexivity]. }
  rewrite Hor in Eg.
  assert (Hlast : PredictionController.timeFormatOf data = "yearmonth"%string ->
                  0 <= time (PredictionService.lastPoint data)).
  { unfold PredictionController.timeFormatOf.
    destruct (PredictionService.isYearMonth _) eqn:Ey; [|discriminate]. intros _.
    apply isYearMonth_range in Ey.
    pose proof (@sorted_first_le_last data (mkPoint 0 NaN) (mkPoint 0 NaN)
                  (getTimeSeriesData_sorted _ _ _ Ed)) as Hfl.
    assert (Hne : data <> []) by (intros ->; unfold len in E2; simpl in E2; lia).
    specialize (Hfl Hne). unfold PredictionService.lastPoint. lia. }
  destruct (@projected_times_spaced data periods _ _ _ (PredictionController.params req)
              r' Hp (detectTimeInterval_positive data) Hlast Eg)
    as [Hlen [times [Ht [_ [_ Hsp]]]]].
  exists data, periods. split; [reflexivity | split; [exact Hp | split; [exact Hlen |]]].
  exists times. split; [exact Ht | exact Hsp].
Qed.

(** ** The fallback of exponential smoothing *)

Section SmoothingFallback.
Import ExponentialSmoothing.

(** With a last value that is a non-zero number the fallback repeats it. *)
Lemma fallback_repeats_last (vals : list num) (periods : Z) :
  truthy (get vals (len vals - 1)) = true ->
  fallbackForecast vals periods
  = repeat (get vals (len vals - 1)) (Z.to_nat periods).
Proof.
  intros Ht. unfold fallbackForecast, or_else. rewrite Ht.
  apply forPeriods_const. intros i _.
  destruct (get vals (len vals - 1)); try reflexivity. discriminate.
Qed.

(** With a last value 0 the fallback repeats the value before it. *)
Lemma fallback_skips_zero (vals : list num) (periods : Z) (x : Qc) :
  get vals (len vals - 1) = zero -> 1 < len vals ->
  get vals (len vals - 2) = Fin x ->
  fallbackForecast vals periods = repeat (Fin x) (Z.to_nat periods).
Proof.
  intros Hz Hn Hx. unfold fallbackForecast, or_else. rewrite Hz, Hx.
  change (truthy zero) with false. cbv iota.
  destruct (len vals >? 1) eqn:E; [| rewrite Z.gtb_ltb in E; apply Z.ltb_ge in E; lia].
  now apply forPeriods_const.
Qed.

(** The values of the predicted points of a result are never NaN. *)
Lemma payload_never_NaN data periods model timeInterval timeFormat mp r :
  PredictionService.generatePrediction data periods model timeInterval timeFormat mp
  = Ok r ->
  Forall (fun p => isNaN (PredictionService.p_value p) = false)
         (PredictionService.predictions r).
Proof.
  intros H. destruct (generatePrediction_payload _ _ _ _ _ _ H) as [raw [_ [_ Hv]]].
  apply Forall_map with (f := PredictionService.p_value)
                        (P := fun v => isNaN v = false).
  rewrite Hv. apply Forall_map. apply Forall_forall. intros v _.
  destruct v; reflexivity.
Qed.

(** A read in an array of NaN is NaN, in range or not. *)
Lemma get_all_NaN (l : list num) (i : Z) :
  Forall (fun x => x = NaN) l -> get l i = NaN.
Proof.
  intros H. unfold get. destruct (i <? 0); [reflexivity |].
  destruct (nth_in_or_default (Z.to_nat i) l NaN) as [Hin | ->]; [|reflexivity].
  rewrite Forall_forall in H. now apply H.
Qed.

Lemma add_NaN_r a : (a + NaN)%num = NaN.
Proof. now destruct a. Qed.

Lemma mul_NaN_r a : (a * NaN)%num = NaN.
Proof. now destruct a. Qed.

Lemma hwStep_trend_NaN alpha beta gamma vals seasonLength st i :
  Forall (fun x => x = NaN) (hw_trend st) ->
  Forall (fun x => x = NaN) (hw_trend (hwStep alpha beta gamma vals seasonLength st i)).
Proof.
  intros H. unfold hwStep. cbn [hw_trend]. apply Forall_app. split; [exact H |].
  constructor; [| constructor].
  rewrite (get_all_NaN (i - 1) H). now rewrite mul_NaN_r, add_NaN_r.
Qed.

Lemma hwRun_trend_NaN alpha beta gamma vals seasonLength :
  Forall (fun x => x = NaN) (hw_trend (hwRun alpha beta gamma vals seasonLength)).
Proof.
  unfold hwRun.
  set (seasonal := map _ (phaseMeans vals seasonLength one)).
  assert (Hs : get seasonal seasonLength = NaN).
  { unfold get. destruct (seasonLength <? 0) eqn:E; [reflexivity |].
    apply nth_overflow. unfold seasonal, phaseMeans.
    rewrite !length_map, zrange_length. lia. }
  rewrite Hs.
  assert (G : forall idx st,
             Forall (fun x => x = NaN) (hw_trend st) ->
             Forall (fun x => x = NaN)
                    (hw_trend (fold_left (hwStep alpha beta gamma vals seasonLength) idx st))).
  { induction idx as [|i idx IH]; intros st Hst; [exact Hst |].
    simpl. apply IH. now apply hwStep_trend_NaN. }
  apply G. cbn [hw_trend]. constructor; [| constructor].
  destruct (get vals seasonLength); reflexivity.
Qed.

(** Holt-Winters smoothing always takes the fallback: its first trend
    divides by [seasonal[seasonLength]], one past the end of the seasonal
    indices, which is NaN, and every later trend is computed from it. *)
Lemma triple_always_falls_back data periods seasonLength alpha beta gamma :
  seasonLength * 2 <= len data ->
  tripleExponentialSmoothing data periods seasonLength alpha beta gamma
  = Ok (fallbackForecast (values data) periods).
Proof.
  intros Hn. unfold tripleExponentialSmoothing.
  destruct (len data <? seasonLength * 2) eqn:E; [apply Z.ltb_lt in E; lia |].
  rewrite (get_all_NaN _ (hwRun_trend_NaN _ _ _ _ _)).
  now rewrite orb_true_r.
Qed.

End SmoothingFallback.

(** C5, at a series whose last value is 0.  Holt-Winters smoothing with
    season length 2 ends with a NaN level on the values 1, 2, 3, 0; the
    last historical value, 0, is a valid number, yet the forecast of the
    model, and with it the payload of the orchestrator, repeats 3, the
    value before it. *)
Theorem smoothing_fallback_skips_last_zero :
  let vals := values endsWithZero in
  let st := ExponentialSmoothing.hwRun c0_3 c0_1 c0_3 vals 2 in
  isNaN (get (ExponentialSmoothing.hw_level st) (len vals - 1)) = true
  /\ get vals (len vals - 1) = zero
  /\ ExponentialSmoothing.tripleExponentialSmoothing endsWithZero 3 2 None None None
     = Ok [ofZ 3; ofZ 3; ofZ 3]
  /\ predictedFractions
       (PredictionService.generatePrediction endsWithZero 3 "exponential" 1 "year"
          tripleParams)
     = [Some (3, 1%positive); Some (3, 1%positive); Some (3, 1%positive)].
Proof.
  cbv zeta. split; [vm_compute; reflexivity |].
  split; [apply beq_eq; vm_compute; reflexivity |].
  split; [apply resultBeq_eq; vm_compute; reflexivity |].
  vm_compute. reflexivity.
Qed.

(** ** Gaussian elimination: the pivots and the singular-matrix error *)

Section Elimination.
Import LinearSolver.

Lemma forwardStep_error aug i n e :
  forwardStep aug i n = Err e -> e = SingularMatrix /\ pivotTooSmall aug i n = true.
Proof.
  unfold forwardStep. destruct (pivotTooSmall aug i n); [|discriminate].
  intros H. injection H as <-. now split.
Qed.

Lemma forwardStep_ok aug i n aug' :
  forwardStep aug i n = Ok aug' ->
  pivotTooSmall aug i n = false
  /\ aug' = eliminate (swapRows aug i (findMaxRow aug i n)) i n.
Proof.
  unfold forwardStep. destruct (pivotTooSmall aug i n); [discriminate |].
  intros H. injection H as <-. now split.
Qed.

Lemma forward_snoc steps aug i n :
  forward (S steps) aug i n
  = (aug' <- forward steps aug i n ;; forwardStep aug' (i + steps) n).
Proof.
  revert aug i. induction steps as [|steps IH]; intros aug i.
  - simpl. rewrite Nat.add_0_r. now destruct (forwardStep aug i n).
  - change (forward (S (S steps)) aug i n)
      with (aug' <- forwardStep aug i n ;; forward (S steps) aug' (S i) n).
    change (forward (S steps) aug i n)
      with (aug' <- forwardStep aug i n ;; forward steps aug' (S i) n).
    destruct (forwardStep aug i n) as [aug1|e]; cbn [bind]; [|reflexivity].
    rewrite IH. now rewrite Nat.add_succ_comm.
Qed.




Lemma forward_error_is_singular n start steps e :
  forward steps start 0 n = Err e -> e = SingularMatrix.
Proof.
  induction steps as [|steps IH]; [discriminate |].
  rewrite forward_snoc.
  destruct (forward steps start 0 n) as [aug|e0]; simpl.
  - intros H. now apply forwardStep_error in H.
  - intros H. injection H as <-. now apply IH.
Qed.

Lemma set_nat_length (l : list num) (i : nat) (x : num) :
  (i < length l)%nat -> length (set_nat l i x) = length l.
Proof.
  revert i. induction l as [|a l IH]; intros [|i] H; simpl in *; try lia.
  now rewrite IH by lia.
Qed.


End Elimination.

(** ** The order of numbers that are not NaN *)

Lemma abs_not_NaN a : isNaN a = false -> isNaN (abs a) = false.
Proof. now destruct a. Qed.

Lemma le_reflexive a : isNaN a = false -> le a a = true.
Proof.
  destruct a as [x| | |]; intros H; try reflexivity; try discriminate.
  unfold le, cmp. now rewrite (proj1 (Qceq_alt x x) eq_refl).
Qed.

Lemma not_gt_le a b :
  isNaN a = false -> isNaN b = false -> gt a b = false -> le a b = true.
Proof.
  destruct a as [x| | |], b as [y| | |]; intros Ha Hb; try discriminate;
    try reflexivity; unfold gt, le, cmp; try discriminate.
  now destruct (x ?= y)%Qc.
Qed.

Lemma le_below_gt a b c : gt c b = true -> le a b = true -> le a c = true.
Proof.
  destruct a as [x| | |], b as [y| | |], c as [z| | |];
    unfold gt, le, cmp; try discriminate; try reflexivity.
  intros Hzy Hxy.
    assert (Hlt : (y < z)%Qc) by (apply Qcgt_alt; now destruct (z ?= y)%Qc).
    assert (Hle : (x <= y)%Qc)
      by (apply Qcle_alt; intros E; rewrite E in Hxy; discriminate).
    pose proof (Qcle_lt_trans _ _ _ Hle Hlt) as Hxz.
    now rewrite (proj1 (Qclt_alt x z) Hxz).
Qed.

Lemma lt_abs_eps_zero : lt (abs (Fin 0%Qc)) eps = true.
Proof. vm_compute. reflexivity. Qed.

Section Pivoting.
Import LinearSolver.

Lemma setRow_length (m : matrix) (k : nat) (r : list num) :
  length (setRow m k r) = length m.
Proof.
  revert k. induction m as [|a m IH]; intros [|k]; simpl; try reflexivity.
  now rewrite IH.
Qed.

Lemma row_setRow_same (m : matrix) (k : nat) (r : list num) :
  (k < length m)%nat -> row (setRow m k r) k = r.
Proof.
  unfold row. revert k. induction m as [|a m IH]; intros [|k] H; simpl in *; try lia.
  - reflexivity.
  - apply IH. lia.
Qed.

Lemma row_setRow_other (m : matrix) (k j : nat) (r : list num) :
  j <> k -> row (setRow m k r) j = row m j.
Proof.
  unfold row. revert k j. induction m as [|a m IH]; intros [|k] [|j] H; simpl;
    try reflexivity; try lia.
  apply IH. lia.
Qed.

Lemma swapRows_length aug i m : length (swapRows aug i m) = length aug.
Proof. unfold swapRows. now rewrite !setRow_length. Qed.

(** After the swap, row [i] is the row the search selected, and row
    [m] is the old row [i]. *)
Lemma swapRows_rows aug i m :
  (i < length aug)%nat -> (m < length aug)%nat ->
  row (swapRows aug i m) i = row aug m /\ row (swapRows aug i m) m = row aug i.
Proof.
  intros Hi Hm. unfold swapRows. split.
  - destruct (Nat.eq_dec i m) as [->|Hne].
    + now rewrite row_setRow_same by (now rewrite setRow_length).
    + rewrite row_setRow_other by exact Hne. now apply row_setRow_same.
  - apply row_setRow_same. now rewrite setRow_length.
Qed.

Lemma swapRows_other aug i m k :
  k <> i -> k <> m -> row (swapRows aug i m) k = row aug k.
Proof.
  intros Hi Hm. unfold swapRows. now rewrite !row_setRow_other.
Qed.

(** The pivot search returns a row of [i .. n-1] whose entry in column
    [i] has the largest magnitude of that range, as soon as no entry of
    the range is NaN. *)
Lemma findMaxRow_largest (aug : matrix) (i n : nat) :
  (i < n)%nat ->
  (forall k, (i <= k < n)%nat -> isNaN (entry aug k i) = false) ->
  (i <= findMaxRow aug i n < n)%nat
  /\ forall k, (i <= k < n)%nat ->
               le (abs (entry aug k i)) (abs (entry aug (findMaxRow aug i n) i)) = true.
Proof.
  intros Hi Hnan. unfold findMaxRow.
  set (step := fun maxRow k =>
                 if gt (abs (entry aug k i)) (abs (entry aug maxRow i))
                 then k else maxRow).
  assert (G : forall c s m0,
             (s + c <= n)%nat -> (i <= m0 < s)%nat ->
             (forall k, (i <= k < s)%nat ->
                        le (abs (entry aug k i)) (abs (entry aug m0 i)) = true) ->
             let m := fold_left step (seq s c) m0 in
             (i <= m < s + c)%nat
             /\ forall k, (i <= k < s + c)%nat ->
                          le (abs (entry aug k i)) (abs (entry aug m i)) = true).
  { induction c as [|c IH]; intros s m0 Hs Hm0 Hle; cbv zeta.
    - simpl. rewrite Nat.add_0_r. now split.
    - cbn [seq fold_left].
      assert (Hnext : (i <= step m0 s < S s)%nat
                      /\ forall k, (i <= k < S s)%nat ->
                           le (abs (entry aug k i)) (abs (entry aug (step m0 s) i)) = true).
      { unfold step.
        destruct (gt (abs (entry aug s i)) (abs (entry aug m0 i))) eqn:E.
        - split; [lia |]. intros k Hk.
          destruct (Nat.eq_dec k s) as [->|Hne].
          + apply le_reflexive, abs_not_NaN, Hnan. lia.
          + apply (le_below_gt _ _ _ E). apply Hle. lia.
        - split; [lia |]. intros k Hk.
          destruct (Nat.eq_dec k s) as [->|Hne].
          + apply not_gt_le; [| | exact E]; apply abs_not_NaN, Hnan; lia.
          + apply Hle. lia. }
      destruct Hnext as [Hm1 Hle1].
      specialize (IH (S s) (step m0 s) ltac:(lia) Hm1 Hle1). cbv zeta in IH.
      replace (s + S c)%nat with (S s + c)%nat by lia. exact IH. }
  specialize (G (n - S i)%nat (S i) i ltac:(lia) ltac:(lia)).
  replace (S i + (n - S i))%nat with n in G by lia.
  apply G. intros k Hk. replace k with i by lia.
  apply le_reflexive, abs_not_NaN, Hnan. lia.
Qed.

End Pivoting.

Section FiniteSystems.
Import LinearSolver.

Lemma isFin_Fin a : isFin a = true -> exists q, a = Fin q.
Proof. destruct a; try discriminate. intros _. now eexists. Qed.

Lemma getn_finite (r : list num) (j : nat) :
  allFinite r -> (j < length r)%nat -> isFin (getn r j) = true.
Proof.
  intros Hr Hj. unfold getn, allFinite in *. rewrite Forall_forall in Hr.
  apply Hr. now apply nth_In.
Qed.

Lemma row_finite n aug k :
  finiteSystem n aug -> (k < n)%nat -> finiteRow n (row aug k).
Proof.
  intros [Hl Hf] Hk. rewrite Forall_forall in Hf. apply Hf.
  unfold row. apply nth_In. lia.
Qed.

Lemma entry_finite n aug k j :
  finiteSystem n aug -> (k < n)%nat -> (j <= n)%nat -> isFin (entry aug k j) = true.
Proof.
  intros Hs Hk Hj. destruct (row_finite Hs Hk) as [Hl Hf].
  unfold entry. apply getn_finite; [exact Hf | lia].
Qed.

Lemma setRow_Forall (P : list num -> Prop) (m : matrix) (k : nat) (r : list num) :
  Forall P m -> P r -> Forall P (setRow m k r).
Proof.
  intros Hm Hr. revert k. induction Hm as [|a m Ha Hm IH]; intros [|k]; simpl;
    constructor; auto.
Qed.

Lemma setRow_finite n aug k r :
  finiteSystem n aug -> finiteRow n r -> finiteSystem n (setRow aug k r).
Proof.
  intros [Hl Hf] Hr. split; [now rewrite setRow_length | now apply setRow_Forall].
Qed.

Lemma swapRows_finite n aug i m :
  finiteSystem n aug -> (i < n)%nat -> (m < n)%nat -> finiteSystem n (swapRows aug i m).
Proof.
  intros Hs Hi Hm. unfold swapRows.
  apply setRow_finite; [apply setRow_finite |]; try assumption; now apply row_finite.
Qed.

Lemma set_nat_Forall (P : num -> Prop) (l : list num) (i : nat) (x : num) :
  (i < length l)%nat -> Forall P l -> P x -> Forall P (set_nat l i x).
Proof.
  intros Hi Hl Hx. revert i Hi. induction Hl as [|a l Ha Hl IH]; intros [|i] Hi;
    simpl in *; try lia; constructor; auto.
  apply IH. lia.
Qed.

Lemma finite_update (f a b : num) :
  isFin f = true -> isFin a = true -> isFin b = true ->
  isFin (a - f * b)%num = true.
Proof.
  intros Hf Ha Hb.
  destruct (isFin_Fin _ Hf) as [qf ->]. destruct (isFin_Fin _ Ha) as [qa ->].
  destruct (isFin_Fin _ Hb) as [qb ->]. reflexivity.
Qed.

Lemma elimRow_finite n (pivotRow rowk : list num) (i : nat) :
  finiteRow n pivotRow -> finiteRow n rowk -> (i <= n)%nat ->
  pivotNonzero pivotRow i ->
  finiteRow n (elimRow pivotRow rowk i n).
Proof.
  intros [Hpl Hpf] Hk Hi [q [Hq Hq0]]. unfold elimRow.
  assert (Hfac : isFin (getn rowk i / getn pivotRow i)%num = true).
  { destruct Hk as [Hkl Hkf].
    destruct (isFin_Fin _ (getn_finite Hkf (j := i) ltac:(lia))) as [x ->].
    rewrite Hq, div_fin by exact Hq0. reflexivity. }
  set (factor := (getn rowk i / getn pivotRow i)%num) in *. clearbody factor.
  assert (G : forall js r,
             Forall (fun j => (j <= n)%nat) js -> finiteRow n r ->
             finiteRow n (fold_left
                            (fun r j => set_nat r j (getn r j - factor * getn pivotRow j)%num)
                            js r)).
  { induction js as [|j js IH]; intros r Hjs Hr; [exact Hr |].
    inversion Hjs; subst. simpl. apply IH; [assumption |].
    destruct Hr as [Hrl Hrf]. split.
    - rewrite set_nat_length; lia.
    - apply set_nat_Forall; [lia | exact Hrf |].
      apply finite_update; [exact Hfac | |]; apply getn_finite; auto; lia. }
  apply G; [| exact Hk].
  apply Forall_forall. intros j Hj. apply in_seq in Hj. lia.
Qed.

Lemma eliminate_finite n aug i :
  finiteSystem n aug -> (i < n)%nat -> pivotNonzero (row aug i) i ->
  finiteSystem n (eliminate aug i n).
Proof.
  intros Hs Hi Hp. unfold eliminate.
  assert (G : forall ks a,
             Forall (fun k => (i < k < n)%nat) ks ->
             finiteSystem n a -> row a i = row aug i ->
             finiteSystem n
               (fold_left (fun a k => setRow a k (elimRow (row a i) (row a k) i n)) ks a)).
  { induction ks as [|k ks IH]; intros a Hks Ha Hrow; [exact Ha |].
    inversion Hks; subst. simpl. apply IH; [assumption | |].
    - apply setRow_finite; [exact Ha |].
      apply elimRow_finite; [now apply row_finite | now apply row_finite | lia |].
      now rewrite Hrow.
    - rewrite row_setRow_other by lia. exact Hrow. }
  apply G; [| exact Hs | reflexivity].
  apply Forall_forall. intros k Hk. apply in_seq in Hk. lia.
Qed.

Lemma finite_column_not_NaN n aug i :
  finiteSystem n aug -> (i < n)%nat ->
  forall k, (i <= k < n)%nat -> isNaN (entry aug k i) = false.
Proof.
  intros Hs Hi k Hk.
  pose proof (@entry_finite n aug k i Hs ltac:(lia) ltac:(lia)) as Hf.
  now destruct (entry aug k i).
Qed.

Lemma forwardStep_finite n aug i aug' :
  finiteSystem n aug -> (i < n)%nat -> forwardStep aug i n = Ok aug' ->
  finiteSystem n aug'.
Proof.
  intros Hs Hi H. apply forwardStep_ok in H. destruct H as [Hp ->].
  destruct (findMaxRow_largest aug Hi (finite_column_not_NaN Hs Hi)) as [Hm _].
  pose proof (@swapRows_finite n aug i (findMaxRow aug i n) Hs Hi ltac:(lia)) as Hsw.
  apply eliminate_finite; [exact Hsw | exact Hi |].
  unfold pivotTooSmall, pivotAfterSwap, entry in Hp.
  destruct (isFin_Fin _ (@entry_finite n _ i i Hsw Hi ltac:(lia))) as [q Hq].
  unfold entry in Hq. exists q. split; [exact Hq |].
  intros ->. rewrite Hq, lt_abs_eps_zero in Hp. discriminate.
Qed.

Lemma augment_finite n (A : matrix) (b : list num) (i : nat) :
  Forall (fun r => length r = n /\ allFinite r) A ->
  (i + length A <= length b)%nat -> allFinite b ->
  length (augment A b i) = length A /\ Forall (finiteRow n) (augment A b i).
Proof.
  intros HA. revert i. induction HA as [|r A [Hrl Hrf] _ IH]; intros i Hb Hbf.
  - split; [reflexivity | constructor].
  - simpl in Hb. simpl. destruct (IH (S i) ltac:(lia) Hbf) as [Hl Hf].
    split; [now rewrite Hl |]. constructor; [| exact Hf].
    split.
    + rewrite length_app. simpl. lia.
    + apply Forall_app. split; [exact Hrf |].
      constructor; [| constructor]. apply getn_finite; [exact Hbf | lia].
Qed.


End FiniteSystems.



(** The regular system above has the solution x = -4, y = 9/2. *)
Example solve_regular :
  LinearSolver.solveLinearSystem regularA rhs = Ok [ofZ (-4); ofQ 9 2].
Proof. apply resultBeq_eq. vm_compute. reflexivity. Qed.

(** ** Indices and names the code computes in its own way *)

(** The test window of the parameter search starts where the doubles
    put it: 90 * 0.7 is 62.99999999999999, whose floor is 62. *)
Example test_window_start :
  map (fun n => ExponentialSmoothing.testStartOf (repeat zero n)) [10; 20; 90]%nat
  = [7; 14; 62].
Proof. vm_compute. reflexivity. Qed.

(** A model name inherited from Object.prototype fails the validation
    whatever the length of the series, and the controller answers 400;
    a name that is no property at all has the minimum 2. *)
Example inherited_model_name :
  PredictionService.validateModelDataRequirements "constructor" 100 = false
  /\ PredictionService.validateModelDataRequirements "unknown" 2 = true
  /\ PredictionController.predict (fun _ => Ok entriesA)
       (PredictionController.mkRequest (Some "gdp.json"%string) (Some "A"%string)
          (Some "GDP"%string) (Some 2018) (Some 2023) (Some 2)
          (Some "constructor"%string) noParams)
     = PredictionController.BadRequest
         (PredictionController.ModelNeeds "constructor" None 3).
Proof. repeat split. Qed.

(* ================================================================== *)
(** * Further properties of the forecasting code *)
(* ================================================================== *)

(** ** The linear fit: its denominator is never zero *)

Section LinearGuard.
Import PredictionService.

Lemma foldi_accumulate_indices (data : list point) (i : Z) (s : sums) (a d : Qc) :
  sumX s = Fin a -> sumX2 s = Fin d ->
  sumX (foldi accumulate data i s) = Fin (a + qz (zSx (length data) i))
  /\ sumX2 (foldi accumulate data i s) = Fin (d + qz (zSxx (length data) i)).
Proof.
  revert i s a d. induction data as [|p data IH]; intros i s a d Ha Hd.
  - simpl. change (qz 0) with 0%Qc. now rewrite !Qcplus_0_r.
  - cbn [foldi length zSx zSxx].
    destruct (IH (i + 1) (accumulate s p i) (a + qz i)%Qc (d + qz i * qz i)%Qc) as [H1 H2].
    + unfold accumulate. cbn [sumX]. rewrite Ha. reflexivity.
    + unfold accumulate. cbn [sumX2]. rewrite Hd. reflexivity.
    + rewrite H1, H2. rewrite !qz_add, qz_mul, !Qcplus_assoc. now split.
Qed.

Lemma linearRegression_returns (data : list point) :
  2 <= len data -> exists c, linearRegression data = Ok c.
Proof.
  intros Hn. unfold linearRegression.
  destruct (len data <? 2) eqn:E; [apply Z.ltb_lt in E; lia |].
  destruct (@foldi_accumulate_indices data 0 (mkSums zero zero zero zero) 0%Qc 0%Qc
              eq_refl eq_refl) as [H1 H2].
  unfold fitFromSums. rewrite H1, H2, !Qcplus_0_l, ofZ_qz.
  assert (Hd : (Fin (qz (len data)) * Fin (qz (zSxx (length data) 0))
                - Fin (qz (zSx (length data) 0)) * Fin (qz (zSx (length data) 0)))%num
               = Fin (qz (len data * zSxx (length data) 0
                          - zSx (length data) 0 * zSx (length data) 0))).
  { rewrite qz_sub, !qz_mul. reflexivity. }
  rewrite Hd, eqb_fin_zero; [eexists; reflexivity |].
  apply qz_nonzero. pose proof (@denominator_positive (length data)).
  unfold len in *. lia.
Qed.

End LinearGuard.

(** ** Automatic ARIMA orders, and the origin of a 500 answer *)

Section AutoOrders.
Import PredictionService.

Lemma autoArima_orders (data : list point) :
  20 <= len data ->
  exists d, (d = 0 \/ d = 1) /\ Arima.autoArima data = (Some 2, Some d, Some 1).
Proof.
  intros Hn. unfold Arima.autoArima.
  assert (Hl : len (values data) = len data) by apply len_map.
  rewrite Hl.
  assert (Hp : Z.min 2 (len data / 10) = 2).
  { apply Z.min_l. apply Z.div_le_lower_bound; lia. }
  assert (Hq : Z.min 1 (len data / 15) = 1).
  { apply Z.min_l. apply Z.div_le_lower_bound; lia. }
  rewrite Hp, Hq.
  match goal with |- context [if ?c then 1 else 0] => destruct c end;
    [exists 1 | exists 0]; split; auto.
Qed.

Lemma auto_orders_fixed (data : list point) (periods : Z) (mp : modelParams) :
  truthyZ (mp_p mp) || truthyZ (mp_d mp) || truthyZ (mp_q mp) = false ->
  20 <= len data ->
  ordersInForce data mp = (2, 1, 1)
  /\ dispatch data periods "arima" mp
     = Arima.arima data periods (Some 2, Some 1, Some 1).
Proof.
  intros Hf Hn.
  destruct (autoArima_orders data Hn) as [d [Hd Ha]].
  assert (Ho : orZ (Some d) 1 = 1) by (destruct Hd as [-> | ->]; reflexivity).
  split.
  - unfold ordersInForce, arimaParams. rewrite Hf, Ha. unfold Arima.ordersOf.
    now rewrite Ho.
  - unfold dispatch. cbn [String.eqb Ascii.eqb Bool.eqb].
    unfold arimaParams. rewrite Hf, Ha. unfold Arima.arima, Arima.ordersOf.
    now rewrite Ho.
Qed.

End AutoOrders.

Section ControllerErrors.
Import PredictionService PredictionController.

Lemma predict_server_error load (req : request) (e : error) :
  predict load req = ServerError e ->
  load (orStr (filename req) "") = Err e
  \/ exists data cause,
       LocalDataService.getTimeSeriesData load (orStr (filename req) "")
         (LocalDataService.mkOptions (area req) (indicator req)
            (startTime req) (endTime req)) = Ok data
       /\ dispatch data (orZ (period req) 0)
            (match model req with Some m => m | None => "linear"%string end)
            (params req) = Err cause
       /\ e = ModelFailed
                (match model req with Some m => m | None => "linear"%string end) cause.
Proof.
  unfold predict. intros H.
  repeat match type of H with
         | (if ?c then BadRequest _ else _) = _ =>
             destruct c eqn:?; [discriminate |]
         end.
  destruct (LocalDataService.getTimeSeriesData _ _ _) as [data|e'] eqn:Ed.
  - right.
    destruct (len data <? 2) eqn:E2; [discriminate |].
    match type of H with
    | (if ?c then BadRequest _ else _) = _ => destruct c; [discriminate |]
    end.
    destruct (generatePrediction _ _ _ _ _ _) as [r'|e'] eqn:Eg; [discriminate |].
    injection H as ->.
    unfold generatePrediction in Eg. rewrite E2 in Eg.
    match goal with
    | Hc : (negb (truthyZ _) || (?p <=? 0)) = false |- _ =>
        apply orb_false_iff in Hc; destruct Hc as [_ Hc]; rewrite Hc in Eg
    end.
    destruct (dispatch _ _ _ _) as [raw|cause] eqn:Edis; [discriminate |].
    cbn [rethrow bind] in Eg. injection Eg as <-.
    exists data, cause. auto.
  - left. injection H as ->.
    unfold LocalDataService.getTimeSeriesData in Ed.
    destruct (load _) as [es|e'']; [discriminate |].
    cbn [bind] in Ed. congruence.
Qed.

End ControllerErrors.

(** ** Models that cannot fail *)

Section AlwaysForecast.
Import PredictionService.

Lemma movingAverage_returns data periods type windowSize alpha :
  2 <= len data ->
  exists l, MovingAverage.movingAverage data periods type windowSize alpha = Ok l.
Proof.
  intros Hn. apply Z.ltb_ge in Hn.
  unfold MovingAverage.movingAverage, MovingAverage.simpleMovingAverage,
    MovingAverage.weightedMovingAverage, MovingAverage.exponentialMovingAverage.
  rewrite Hn.
  repeat match goal with
         | |- context [if String.eqb ?a ?b then _ else _] => destruct (String.eqb a b)
         end; eexists; reflexivity.
Qed.

Lemma exponentialSmoothing_failure data periods type seasonLength :
  3 <= len data ->
  (exists l, ExponentialSmoothing.exponentialSmoothing data periods type seasonLength = Ok l)
  \/ (type = "triple"%string /\ len data < seasonLength * 2
      /\ ExponentialSmoothing.exponentialSmoothing data periods type seasonLength
         = Err (TripleTooFew (seasonLength * 2))).
Proof.
  intros Hn. assert (Hn' := Hn). apply Z.ltb_ge in Hn'.
  unfold ExponentialSmoothing.exponentialSmoothing. rewrite Hn'.
  assert (S1 : forall a, exists l,
               ExponentialSmoothing.singleExponentialSmoothing data periods a = Ok l).
  { intros a. unfold ExponentialSmoothing.singleExponentialSmoothing. rewrite Hn'.
    match goal with |- context [if isNaN ?x then _ else _] => destruct (isNaN x) end;
      eexists; reflexivity. }
  assert (S2 : forall a b, exists l,
               ExponentialSmoothing.doubleExponentialSmoothing data periods a b = Ok l).
  { intros a b. unfold ExponentialSmoothing.doubleExponentialSmoothing. rewrite Hn'.
    match goal with |- context [if ?x then Ok _ else _] => destruct x end;
      eexists; reflexivity. }
  assert (S3 : seasonLength * 2 <= len data -> forall a b c, exists l,
               ExponentialSmoothing.tripleExponentialSmoothing data periods seasonLength a b c
               = Ok l).
  { intros Hs a b c. rewrite triple_always_falls_back by exact Hs. eexists; reflexivity. }
  destruct (String.eqb type "auto") eqn:Ea.
  - left. destruct (len data >=? seasonLength * 2) eqn:Es.
    + assert (Hs : seasonLength * 2 <= len data)
        by (rewrite Z.geb_leb in Es; now apply Z.leb_le in Es).
      destruct (ExponentialSmoothing.detectSeasonality data seasonLength);
        [cbn [String.eqb Ascii.eqb Bool.eqb]; now apply S3 |].
      destruct (ExponentialSmoothing.detectTrend data);
        cbn [String.eqb Ascii.eqb Bool.eqb]; [apply S2 | apply S1].
    + destruct (ExponentialSmoothing.detectTrend data);
        cbn [String.eqb Ascii.eqb Bool.eqb]; [apply S2 | apply S1].
  - destruct (String.eqb type "single"); [left; apply S1 |].
    destruct (String.eqb type "double"); [left; apply S2 |].
    destruct (String.eqb type "triple") eqn:Et; [| left; apply S1].
    apply String.eqb_eq in Et.
    destruct (Z_le_gt_dec (seasonLength * 2) (len data)) as [Hs | Hs].
    + left. now apply S3.
    + right. split; [exact Et | split; [lia |]].
      unfold ExponentialSmoothing.tripleExponentialSmoothing.
      destruct (len data <? seasonLength * 2) eqn:E; [reflexivity |].
      apply Z.ltb_ge in E. lia.
Qed.

End AlwaysForecast.

(** ** The detected interval is the first mode of the steps *)

Section MostFrequentInterval.
Import PredictionService.

Lemma countOf_bump (k x : Z) (counts : list (Z * Z)) :
  countOf (bump k counts) x
  = if x =? k then countOf counts x + 1 else countOf counts x.
Proof.
  unfold countOf. induction counts as [|[k' c] counts IH].
  - simpl. rewrite (Z.eqb_sym k x). destruct (x =? k); reflexivity.
  - cbn [bump]. destruct (k =? k') eqn:E.
    + apply Z.eqb_eq in E. subst k'. cbn [find fst snd].
      rewrite (Z.eqb_sym k x). destruct (x =? k); reflexivity.
    + cbn [find fst snd]. destruct (k' =? x) eqn:E'.
      * apply Z.eqb_eq in E'. subst k'. rewrite (Z.eqb_sym x k), E. reflexivity.
      * exact IH.
Qed.

Lemma occurrences_cons (x k : Z) (l : list Z) :
  occurrences x (k :: l) = (if x =? k then 1 else 0) + occurrences x l.
Proof.
  unfold occurrences, len. cbn [filter]. destruct (x =? k); cbn [length]; lia.
Qed.

Lemma countOf_countIntervals (intervals : list Z) (x : Z) :
  countOf (countIntervals intervals) x = occurrences x intervals.
Proof.
  unfold countIntervals.
  assert (G : forall counts,
             countOf (fold_left (fun counts k => bump k counts) intervals counts) x
             = countOf counts x + occurrences x intervals).
  { induction intervals as [|k intervals IH]; intros counts.
    - cbn [fold_left]. unfold occurrences, len. simpl. lia.
    - cbn [fold_left]. rewrite IH, countOf_bump, occurrences_cons.
      destruct (x =? k); lia. }
  rewrite G. reflexivity.
Qed.

Lemma occurrences_nonneg (x : Z) (l : list Z) : 0 <= occurrences x l.
Proof. unfold occurrences. apply len_nonneg. Qed.

Lemma occurrences_In (x : Z) (l : list Z) : In x l <-> 1 <= occurrences x l.
Proof.
  induction l as [|k l IH].
  - unfold occurrences, len. simpl. split; [tauto | lia].
  - rewrite occurrences_cons. pose proof (occurrences_nonneg x l).
    destruct (x =? k) eqn:E.
    + apply Z.eqb_eq in E. subst k. split; [lia | now left].
    + apply Z.eqb_neq in E. simpl. split.
      * intros [H' | H']; [congruence | apply IH in H'; lia].
      * intros H'. right. apply IH. lia.
Qed.

Lemma bump_keeps_keys (k x : Z) (counts : list (Z * Z)) :
  x = k \/ In x (map fst counts) -> In x (map fst (bump k counts)).
Proof.
  induction counts as [|[k' c] counts IH]; simpl.
  - intros [-> | []]. now left.
  - destruct (k =? k') eqn:E; simpl.
    + apply Z.eqb_eq in E. subst k'. intros [-> | [<- | H]]; auto.
    + intros [-> | [<- | H]]; auto.
Qed.

Lemma keys_countIntervals (intervals : list Z) (x : Z) :
  In x intervals -> In x (map fst (countIntervals intervals)).
Proof.
  unfold countIntervals.
  assert (G : forall counts,
             In x intervals \/ In x (map fst counts) ->
             In x (map fst (fold_left (fun counts k => bump k counts) intervals counts))).
  { induction intervals as [|k intervals IH]; intros counts H; cbn [fold_left].
    - destruct H as [[] | H]. exact H.
    - apply IH. destruct H as [[<- | H] | H].
      + right. apply bump_keeps_keys. now left.
      + now left.
      + right. apply bump_keeps_keys. now right. }
  intros H. apply G. now left.
Qed.

Lemma keys_objectKeys counts x :
  In x (map fst counts) -> In x (objectKeys counts).
Proof.
  unfold objectKeys. rewrite in_app_iff, sort_by_In, !filter_In.
  destruct (isArrayIndex x); simpl; tauto.
Qed.

(** The scan never lowers the count it holds, and is left unchanged
    when the count it ends with is the one it started from. *)
Lemma pickMode_step counts m c k :
  pickMode counts (m, c) k
  = if countOf counts k >? c then (k, countOf counts k) else (m, c).
Proof. reflexivity. Qed.

Lemma pickMode_monotone counts keys st :
  snd st <= snd (fold_left (pickMode counts) keys st)
  /\ (snd (fold_left (pickMode counts) keys st) = snd st ->
      fold_left (pickMode counts) keys st = st).
Proof.
  revert st. induction keys as [|k keys IH]; intros st; cbn [fold_left].
  - split; [lia | reflexivity].
  - destruct (IH (pickMode counts st k)) as [H1 H2].
    destruct st as [m c]. rewrite pickMode_step in *.
    destruct (countOf counts k >? c) eqn:E; cbn [snd] in *.
    + rewrite Z.gtb_ltb in E. apply Z.ltb_lt in E. split; [lia |]. intros H. lia.
    + split; [exact H1 | exact H2].
Qed.

Lemma pickMode_maximal counts keys st :
  let st' := fold_left (pickMode counts) keys st in
  (forall k, In k keys -> countOf counts k <= snd st')
  /\ (st' = st \/ (In (fst st') keys /\ snd st' = countOf counts (fst st'))).
Proof.
  cbv zeta. revert st. induction keys as [|k keys IH]; intros st; cbn [fold_left].
  - split; [intros k [] | now left].
  - destruct (IH (pickMode counts st k)) as [H1 H2].
    destruct (pickMode_monotone counts keys (pickMode counts st k)) as [Hm _].
    destruct st as [m c]. rewrite pickMode_step in *.
    destruct (countOf counts k >? c) eqn:E; cbn [snd] in Hm.
    + split.
      * intros x [<- | Hx]; [exact Hm | now apply H1].
      * destruct H2 as [H2 | [H2 H3]].
        -- rewrite H2. right. cbn [fst snd]. split; [now left | reflexivity].
        -- right. split; [now right | exact H3].
    + rewrite Z.gtb_ltb in E. apply Z.ltb_ge in E. split.
      * intros x [<- | Hx]; [lia | now apply H1].
      * destruct H2 as [H2 | [H2 H3]]; [now left |].
        right. split; [now right | exact H3].
Qed.

(** On a tie the key enumerated first wins. *)
Lemma pickMode_first counts keys st :
  StronglySorted enumeratedBefore keys ->
  let st' := fold_left (pickMode counts) keys st in
  forall k, In k keys -> countOf counts k = snd st' -> snd st < snd st' ->
            isArrayIndex k = true -> fst st' <= k.
Proof.
  cbv zeta. intros Hs. revert st.
  induction Hs as [|a keys Hs IH Ha]; intros st k Hk Hc Hlt Hi; [destruct Hk |].
  cbn [fold_left] in *.
  destruct (pickMode_monotone counts keys (pickMode counts st a)) as [Hm Hu].
  destruct st as [m c]. rewrite pickMode_step in *.
  destruct (countOf counts a >? c) eqn:E; cbn [snd] in *.
  - destruct (Z.eq_dec (snd (fold_left (pickMode counts) keys (a, countOf counts a)))
                       (countOf counts a)) as [Heq | Hne].
    + rewrite (Hu Heq). cbn [fst].
      destruct Hk as [<- | Hk]; [lia |].
      rewrite Forall_forall in Ha. now apply (Ha k Hk).
    + destruct Hk as [<- | Hk]; [lia |].
      apply (IH (a, countOf counts a) k Hk Hc); [cbn [snd]; lia | exact Hi].
  - rewrite Z.gtb_ltb in E. apply Z.ltb_ge in E.
    destruct Hk as [<- | Hk]; [lia |].
    now apply (IH (m, c) k Hk Hc).
Qed.

Lemma objectKeys_enumeration counts :
  StronglySorted enumeratedBefore (objectKeys counts).
Proof.
  unfold objectKeys. set (keys := map fst counts).
  pose proof (sort_by_sorted (fun k : Z => k) (filter isArrayIndex keys)) as Hs.
  induction Hs as [|a l Hs IH Ha].
  - cbn [app]. induction (filter (fun k => negb (isArrayIndex k)) keys) as [|b o IHo] eqn:Eo.
    + constructor.
    + assert (Hall : Forall (fun k => isArrayIndex k = false) (b :: o)).
      { rewrite <- Eo. apply Forall_forall. intros x Hx. apply filter_In in Hx.
        destruct Hx as [_ Hx]. now destruct (isArrayIndex x). }
      clear Eo IHo. induction Hall as [|b' o' Hb Hall IH']; constructor.
      * exact IH'.
      * apply Forall_forall. intros x Hx. rewrite Forall_forall in Hall.
        unfold enumeratedBefore. rewrite (Hall x Hx). discriminate.
  - cbn [app]. constructor; [exact IH |].
    apply Forall_app. split.
    + rewrite Forall_forall in *. intros x Hx _. apply (Ha x Hx).
    + apply Forall_forall. intros x Hx. apply filter_In in Hx. destruct Hx as [_ Hx].
      unfold enumeratedBefore. destruct (isArrayIndex x); [discriminate | discriminate].
Qed.

Lemma detectTimeInterval_mode (ts : list point) :
  let ivs := intervalsOf (isYearMonth (time (hd (mkPoint 0 NaN) ts))) ts in
  let m := detectTimeInterval ts in
  (ivs = [] -> m = 1)
  /\ (ivs <> [] ->
      In m ivs
      /\ (forall k, occurrences k ivs <= occurrences m ivs)
      /\ (forall k, occurrences k ivs = occurrences m ivs ->
                    In k ivs -> k < 4294967295 -> m <= k)).
Proof.
  cbv zeta. unfold detectTimeInterval.
  destruct ts as [|first [|second ts]].
  - split; [reflexivity | intros H; now elim H].
  - split; [reflexivity | intros H; now elim H].
  - cbn [hd]. set (ivs := intervalsOf _ _).
    pose proof (intervalsOf_positive (isYearMonth (time first)) (first :: second :: ts))
      as Hpos.
    fold ivs in Hpos. clearbody ivs.
    destruct ivs as [|d ivs]; [split; [reflexivity | intros H; now elim H] |].
    split; [discriminate | intros _].
    set (l := d :: ivs) in *. set (counts := countIntervals l).
    assert (Hcnt : forall x, countOf counts x = occurrences x l)
      by (intros x; apply countOf_countIntervals).
    assert (Hkeys : forall x, In x l -> In x (objectKeys counts))
      by (intros x Hx; now apply keys_objectKeys, keys_countIntervals).
    destruct (pickMode_maximal counts (objectKeys counts) (1, 0)) as [Hmax Hor].
    assert (Hd : 1 <= snd (fold_left (pickMode counts) (objectKeys counts) (1, 0))).
    { assert (Hin : In d l) by now left.
      specialize (Hmax d (Hkeys d Hin)). rewrite Hcnt in Hmax.
      apply occurrences_In in Hin. lia. }
    destruct Hor as [Hor | [Hin Hc]]; [rewrite Hor in Hd; cbn [snd] in Hd; lia |].
    rewrite Hcnt in Hc.
    split; [| split].
    + now apply countIntervals_keys, objectKeys_keys.
    + intros k. rewrite <- Hc.
      destruct (Z_le_gt_dec 1 (occurrences k l)) as [Hk | Hk]; [| lia].
      apply occurrences_In in Hk.
      specialize (Hmax k (Hkeys k Hk)). now rewrite Hcnt in Hmax.
    + intros k Hk Hkin Hlt.
      apply (pickMode_first counts (1, 0) (objectKeys_enumeration counts)).
      * now apply Hkeys.
      * rewrite Hcnt. lia.
      * cbn [snd]. lia.
      * rewrite Forall_forall in Hpos. specialize (Hpos k Hkin).
        unfold isArrayIndex. apply andb_true_iff.
        split; [apply Z.leb_le | apply Z.ltb_lt]; lia.
Qed.

End MostFrequentInterval.

(** ** The points of a series, and the statistics of a result *)

Section Selection.
Import LocalDataService.

Lemma keeps_range (o : options) (item : entry) :
  keeps o item = true ->
  (truthyZ (o_startTime o) = true -> orZ (o_startTime o) 0 <= repp item)
  /\ (truthyZ (o_endTime o) = true -> repp item <= orZ (o_endTime o) 0)
  /\ (truthyStr (o_area o) = true -> o_area o = Some (area item))
  /\ (truthyStr (o_indicator o) = true -> o_indicator o = Some (data_name item)).
Proof.
  unfold keeps.
  assert (S : forall s v, truthyStr s && negb (strIs s v) = false ->
                          truthyStr s = true -> s = Some v).
  { intros s v H Ht. rewrite Ht in H. simpl in H. apply negb_false_iff in H.
    unfold strIs in H. destruct s as [s|]; [|discriminate].
    apply String.eqb_eq in H. now subst. }
  destruct (truthyStr (o_area o) && negb (strIs (o_area o) (area item))) eqn:E1;
    [discriminate |].
  destruct (truthyStr (o_indicator o) && negb (strIs (o_indicator o) (data_name item)))
    eqn:E2; [discriminate |].
  destruct (truthyZ (o_startTime o) && (repp item <? orZ (o_startTime o) 0)) eqn:E3;
    [discriminate |].
  destruct (truthyZ (o_endTime o) && (repp item >? orZ (o_endTime o) 0)) eqn:E4;
    [discriminate |].
  intros _. repeat split.
  - intros Ht. rewrite Ht in E3. simpl in E3. apply Z.ltb_ge in E3. lia.
  - intros Ht. rewrite Ht in E4. simpl in E4. rewrite Z.gtb_ltb in E4.
    apply Z.ltb_ge in E4. lia.
  - now apply S.
  - now apply S.
Qed.

Lemma or_else_zero_not_NaN (x : num) : isNaN (or_else x zero) = false.
Proof. unfold or_else. destruct x; try reflexivity. now destruct (truthy (Fin q)). Qed.

Lemma getTimeSeriesData_points load filename (o : options) (es : list entry) :
  load filename = Ok es ->
  exists data,
    getTimeSeriesData load filename o = Ok data
    /\ Forall (fun p =>
                 isNaN (value p) = false
                 /\ exists item,
                      In item es
                      /\ time p = repp item
                      /\ value p = or_else (data2 item) zero
                      /\ (truthyStr (o_area o) = true -> o_area o = Some (area item))
                      /\ (truthyStr (o_indicator o) = true ->
                          o_indicator o = Some (data_name item))
                      /\ (truthyZ (o_startTime o) = true ->
                          orZ (o_startTime o) 0 <= time p)
                      /\ (truthyZ (o_endTime o) = true ->
                          time p <= orZ (o_endTime o) 0))
              data.
Proof.
  intros Hl. unfold getTimeSeriesData. rewrite Hl. cbn [bind].
  eexists. split; [reflexivity |].
  apply Forall_forall. intros p Hp. apply in_map_iff in Hp.
  destruct Hp as [item [<- Hin]]. cbn [value time].
  apply sort_by_In, filter_In in Hin. destruct Hin as [Hes Hk].
  destruct (keeps_range o item Hk) as [H1 [H2 [H3 H4]]].
  split; [apply or_else_zero_not_NaN |].
  exists item.
  split; [exact Hes | split; [reflexivity | split; [reflexivity |]]].
  split; [exact H3 | split; [exact H4 | split; [exact H1 | exact H2]]].
Qed.

End Selection.

Section Statistics.
Import PredictionService.

Lemma generatePrediction_statistics data periods model timeInterval timeFormat mp r :
  generatePrediction data periods model timeInterval timeFormat mp = Ok r ->
  exists raw,
    dispatch data periods model mp = Ok raw
    /\ 0 < len raw
    /\ lastValue (stats r) = value (lastPoint data)
    /\ avgValue (stats r) = (sum (values data) / $(len data))%num
    /\ predictedValue (stats r) = Some (get raw (len raw - 1))
    /\ growthRate (stats r)
       = if eqb (value (lastPoint data)) zero then None
         else Some (((get raw (len raw - 1) - value (lastPoint data))
                     / value (lastPoint data)) * c100)%num.
Proof.
  unfold generatePrediction. intros H.
  destruct (len data <? 2); [discriminate |].
  destruct (periods <=? 0) eqn:Ep; [discriminate |]. apply Z.leb_gt in Ep.
  destruct (dispatch data periods model mp) as [raw|e] eqn:Ed; simpl in H; [|discriminate].
  injection H as <-. exists raw. cbn [stats lastValue avgValue predictedValue growthRate].
  pose proof (dispatch_length _ _ _ _ Ed) as Hlen.
  assert (Hpos : 0 < len raw) by (unfold len; lia).
  destruct raw as [|x raw]; [unfold len in Hpos; simpl in Hpos; lia |].
  repeat split; try reflexivity; exact Hpos.
Qed.

End Statistics.

(** ** ARIMA: the length of a differenced series and the shape of a forecast *)

Section ArimaShape.
Import Arima.

Lemma fold_pushSum_running (acc : list num) (x : num) (ds : list num) :
  fold_left pushSum ds (acc ++ [x]) = (acc ++ [x]) ++ runningSums x ds.
Proof.
  revert acc x. induction ds as [|d ds IH]; intros acc x.
  - simpl. now rewrite app_nil_r.
  - cbn [fold_left runningSums]. unfold pushSum at 2. rewrite get_last.
    rewrite (IH (acc ++ [x]) (x + d)%num). now rewrite <- !app_assoc.
Qed.

Lemma inverseDifference_running (s : num) (ds : list num) :
  inverseDifference [s] ds 1 = runningSums s ds.
Proof.
  rewrite inverseDifference_order_1.
  change [s] with ([] ++ [s]) at 1. rewrite fold_pushSum_running.
  exact (slice_from_app [s] (runningSums s ds)).
Qed.

Lemma slice_head (data : list point) :
  data <> [] -> slice (values data) 0 1 = [value (hd (mkPoint 0 NaN) data)].
Proof.
  destruct data as [|p data]; [congruence |]. intros _.
  unfold slice, rel_index, values. cbn [map length hd].
  change (0 <? 0) with false. change (1 <? 0) with false. cbv iota.
  rewrite Z.min_l by lia. rewrite Z.min_l by lia. reflexivity.
Qed.

Lemma arima_first_order_shape data periods pp pd pq l :
  orZ pd 1 = 1 ->
  arima data periods (pp, pd, pq) = Ok l ->
  exists phi,
    autoregressive (diffOnce (values data) 1) (orZ pp 2) = Ok phi
    /\ l = runningSums (value (hd (mkPoint 0 NaN) data))
             (arForecast (diffOnce (values data) 1) phi periods).
Proof.
  intros Hd. unfold arima, ordersOf. rewrite Hd.
  destruct (len data <? 20) eqn:E; [discriminate |]. apply Z.ltb_ge in E.
  match goal with |- (if ?c then _ else _) = _ -> _ => destruct c end; [discriminate |].
  rewrite difference_order_1.
  destruct (autoregressive _ _) as [phi|e]; cbn [bind]; [|discriminate].
  intros H. injection H as <-. exists phi. split; [reflexivity |].
  rewrite slice_head by (intros ->; unfold len in E; simpl in E; lia).
  apply inverseDifference_running.
Qed.

Lemma diffOnce_length data order :
  len (diffOnce data order) = Z.max 0 (len data - order).
Proof.
  unfold diffOnce, len. rewrite length_map, zrange_length. lia.
Qed.

Lemma triangle_step (k : Z) : (k + 1) * (k + 1 + 1) / 2 = k * (k + 1) / 2 + (k + 1).
Proof.
  replace ((k + 1) * (k + 1 + 1)) with (k * (k + 1) + (k + 1) * 2) by ring.
  now rewrite Z.div_add by lia.
Qed.

Lemma differenceNat_length (k : nat) (data : list num) :
  (1 <= k)%nat ->
  len (differenceNat data k)
  = Z.max 0 (len data - Z.of_nat k * (Z.of_nat k + 1) / 2).
Proof.
  revert data. induction k as [|k IH]; intros data Hk; [lia |].
  destruct k as [|k].
  - cbn [differenceNat]. rewrite diffOnce_length. reflexivity.
  - change (differenceNat data (S (S k)))
      with (differenceNat (diffOnce data (Z.of_nat (S (S k)))) (S k)).
    rewrite IH by lia. rewrite diffOnce_length.
    replace (Z.of_nat (S (S k))) with (Z.of_nat (S k) + 1) by lia.
    rewrite (triangle_step (Z.of_nat (S k))).
    assert (0 <= Z.of_nat (S k) * (Z.of_nat (S k) + 1) / 2)
      by (apply Z.div_pos; nia).
    lia.
Qed.

Lemma difference_length (data : list num) (d : Z) :
  1 <= d -> len (difference data d) = Z.max 0 (len data - d * (d + 1) / 2).
Proof.
  intros Hd. unfold difference.
  destruct (d <? 0) eqn:E; [apply Z.ltb_lt in E; lia |].
  rewrite differenceNat_length by lia. rewrite Z2Nat.id by lia. reflexivity.
Qed.

End ArimaShape.

(** ** ARIMA on a constant series *)

Section ZeroColumn.
Import LinearSolver.

Lemma augment_length (A : matrix) (b : list num) (i : nat) :
  length (augment A b i) = length A.
Proof.
  revert i. induction A as [|r A IH]; intros i; simpl; [reflexivity |].
  now rewrite IH.
Qed.

Lemma augment_first_column (A : matrix) (b : list num) (i : nat) (x : num) :
  Forall (fun r => getn r 0 = x) A -> x <> NaN ->
  Forall (fun r => getn r 0 = x) (augment A b i).
Proof.
  intros H Hx. revert i. induction H as [|r A Hr _ IH]; intros i; simpl; constructor.
  - destruct r as [|a r]; [unfold getn in Hr; simpl in Hr; congruence | exact Hr].
  - apply IH.
Qed.

(** A system whose first column is zero is rejected at the first pivot. *)
Lemma zero_column_singular (A : matrix) (b : list num) :
  A <> [] -> Forall (fun r => getn r 0 = zero) A ->
  solveLinearSystem A b = Err SingularMatrix.
Proof.
  intros Hne Hz. unfold solveLinearSystem.
  pose proof (@augment_first_column A b 0 zero Hz ltac:(discriminate)) as Haug.
  pose proof (augment_length A b 0) as Hlen.
  set (aug := augment A b 0) in *. clearbody aug.
  destruct (length A) as [|n] eqn:En; [destruct A; [congruence | discriminate] |].
  cbn [forward]. unfold forwardStep, pivotTooSmall, pivotAfterSwap.
  assert (Hcol : forall k, (k < S n)%nat -> entry aug k 0 = zero).
  { intros k Hk. unfold entry, row. rewrite Forall_forall in Haug.
    apply Haug. apply nth_In. lia. }
  destruct (@findMaxRow_largest aug 0 (S n) ltac:(lia)) as [Hm _].
  { intros k Hk. rewrite Hcol by lia. reflexivity. }
  unfold entry at 1.
  rewrite (proj1 (@swapRows_rows aug 0 (findMaxRow aug 0 (S n)) ltac:(lia) ltac:(lia))).
  fold (entry aug (findMaxRow aug 0 (S n)) 0). rewrite Hcol by lia.
  change (lt (abs zero) eps) with true. reflexivity.
Qed.

End ZeroColumn.

Section ConstantArima.
Import Arima.

Lemma fin_sub_self (v : Qc) : (Fin v - Fin v)%num = zero.
Proof.
  unfold sub, neg, add, zero, ofZ. f_equal. change (Q2Qc (inject_Z 0)) with 0%Qc. ring.
Qed.

Lemma diffOnce_constant (v : Qc) (n : nat) (d : Z) :
  1 <= d -> diffOnce (repeat (Fin v) n) d = repeat zero (Z.to_nat (Z.of_nat n - d)).
Proof.
  intros Hd. unfold diffOnce, len. rewrite repeat_length.
  rewrite (map_ext_in _ (fun _ => zero)).
  - now rewrite map_const, zrange_length.
  - intros i Hi. apply zrange_bounds in Hi.
    rewrite !get_repeat by lia. apply fin_sub_self.
Qed.

Lemma differenceNat_constant (k : nat) (v : Qc) (n : nat) :
  (1 <= k)%nat -> exists m, differenceNat (repeat (Fin v) n) k = repeat zero m.
Proof.
  revert v n. induction k as [|k IH]; intros v n Hk; [lia |].
  destruct k as [|k].
  - cbn [differenceNat]. rewrite diffOnce_constant by lia. eexists; reflexivity.
  - change (differenceNat (repeat (Fin v) n) (S (S k)))
      with (differenceNat (diffOnce (repeat (Fin v) n) (Z.of_nat (S (S k)))) (S k)).
    rewrite diffOnce_constant by lia. apply (IH 0%Qc). lia.
Qed.

Lemma fold_add_zero {A} (f : A -> num) (l : list A) :
  (forall x, In x l -> f x = zero) ->
  fold_left (fun s x => (s + f x)%num) l zero = zero.
Proof.
  induction l as [|a l IH]; intros H; [reflexivity |].
  cbn [fold_left]. rewrite (H a) by now left.
  change (zero + zero)%num with zero. apply IH. intros x Hx. apply H. now right.
Qed.

Lemma sum_zeros (m : nat) : sum (repeat zero m) = zero.
Proof.
  unfold sum. induction m as [|m IH]; [reflexivity |].
  cbn [repeat fold_left]. change (zero + zero)%num with zero. exact IH.
Qed.

Lemma mean_zeros (m : nat) : (1 <= m)%nat -> mean (repeat zero m) = zero.
Proof.
  intros Hm. unfold mean, len. rewrite sum_zeros, repeat_length, ofZ_qz.
  unfold zero. rewrite ofZ_qz. rewrite div_fin by (apply qz_nonzero; lia).
  f_equal. change (qz 0) with 0%Qc. unfold Qcdiv. ring.
Qed.

Lemma autocorrelation_zeros (m : nat) (lag : Z) :
  0 <= lag -> autocorrelation (repeat zero m) lag = zero.
Proof.
  intros Hl. unfold autocorrelation, len. rewrite repeat_length.
  destruct (lag >=? Z.of_nat m) eqn:E; [reflexivity |].
  rewrite Z.geb_leb in E. apply Z.leb_gt in E.
  rewrite mean_zeros by lia.
  rewrite (@fold_add_zero Z (fun i => pow (get (repeat zero m) i - zero) 2)).
  - reflexivity.
  - intros i Hi. apply zrange_bounds in Hi. rewrite get_repeat by lia. reflexivity.
Qed.

Lemma autoregressive_zeros (m : nat) (p : Z) :
  1 <= p -> p + 1 <= Z.of_nat m ->
  autoregressive (repeat zero m) p = Err SingularMatrix.
Proof.
  intros Hp Hm. unfold autoregressive, len. rewrite repeat_length.
  destruct (Z.of_nat m <? p + 1) eqn:E; [apply Z.ltb_lt in E; lia |].
  assert (Hacf : map (fun i => autocorrelation (repeat zero m) i) (zrange 0 (p + 1))
                 = repeat zero (Z.to_nat (p + 1))).
  { rewrite (map_ext_in _ (fun _ => zero)).
    - rewrite map_const, zrange_length. f_equal. lia.
    - intros i Hi. apply zrange_bounds in Hi. apply autocorrelation_zeros. lia. }
  rewrite Hacf. apply zero_column_singular.
  - rewrite (@zrange_cons 0 p) by lia. cbn [map]. discriminate.
  - apply Forall_forall. intros r Hr. apply in_map_iff in Hr.
    destruct Hr as [i [<- Hi]]. apply zrange_bounds in Hi.
    rewrite (@zrange_cons 0 p) by lia. cbn [map LinearSolver.getn nth].
    apply get_repeat. lia.
Qed.

Lemma arima_constant data (v : Qc) periods pp pd pq :
  Forall (fun pt => value pt = Fin v) data ->
  20 <= len data ->
  1 <= orZ pp 2 -> 1 <= orZ pd 1 ->
  orZ pp 2 + orZ pd 1 + orZ pq 1 + 5 <= len data ->
  orZ pp 2 + 1 <= len data - orZ pd 1 * (orZ pd 1 + 1) / 2 ->
  arima data periods (pp, pd, pq) = Err SingularMatrix.
Proof.
  intros Hc Hn Hp Hd Hq Hm. unfold arima, ordersOf.
  destruct (len data <? 20) eqn:E; [apply Z.ltb_lt in E; lia |].
  assert (Hl : len (values data) = len data) by apply len_map. rewrite Hl.
  destruct (len data <? orZ pp 2 + orZ pd 1 + orZ pq 1 + 5) eqn:E2;
    [apply Z.ltb_lt in E2; lia |].
  pose proof (@difference_length (values data) (orZ pd 1) Hd) as Hlen.
  rewrite Hl in Hlen.
  rewrite (values_constant Hc) in *.
  unfold difference in *.
  destruct (orZ pd 1 <? 0) eqn:E3; [apply Z.ltb_lt in E3; lia |].
  destruct (@differenceNat_constant (Z.to_nat (orZ pd 1)) v (length data) ltac:(lia))
    as [m Hdiff].
  rewrite Hdiff in *. unfold len in Hlen at 1. rewrite repeat_length in Hlen.
  rewrite autoregressive_zeros by lia. reflexivity.
Qed.

End ConstantArima.

(** ** Exponential smoothing: the rates, and a constant series *)

Section SmoothingRates.
Import ExponentialSmoothing.

Lemma validRate_range (b : num) :
  validRate b = true -> exists q : Qc, b = Fin q /\ (0 < q)%Qc /\ (q < 1)%Qc.
Proof.
  unfold validRate. rewrite negb_true_iff, !orb_false_iff. intros [[H0 H1] H2].
  cbv [le ge cmp zero one ofZ] in H1, H2.
  destruct b as [q| | |]; try discriminate.
  exists q. split; [reflexivity |].
  change (Q2Qc (inject_Z 0)) with 0%Qc in H1. change (Q2Qc (inject_Z 1)) with 1%Qc in H2.
  split.
  - apply Qcgt_alt. destruct (q ?= 0)%Qc; [discriminate | discriminate | reflexivity].
  - apply Qclt_alt. destruct (q ?= 1)%Qc; [discriminate | reflexivity | discriminate].
Qed.

Lemma keepBest_candidates score (grid : list num) (st : num * num) :
  In (fst (fold_left (keepBest score) grid st)) (fst st :: grid).
Proof.
  revert st. induction grid as [|c grid IH]; intros st; cbn [fold_left].
  - now left.
  - destruct (IH (keepBest score st c)) as [H | H]; [| right; now right].
    rewrite <- H. unfold keepBest. destruct st as [b m].
    destruct (lt (score c) m); cbn [fst]; [right; now left | now left].
Qed.

Lemma pickRate_range (p : num * num) (d : num) (grid : list num) :
  In (fst p) (d :: grid) -> validRate d = true ->
  In (let '(b, _) := p in if validRate b then b else d) (d :: grid)
  /\ exists q : Qc,
       (let '(b, _) := p in if validRate b then b else d) = Fin q
       /\ (0 < q)%Qc /\ (q < 1)%Qc.
Proof.
  destruct p as [b m]; cbn [fst]. intros Hin Hd.
  destruct (validRate b) eqn:E.
  - split; [exact Hin | now apply validRate_range].
  - split; [now left | now apply validRate_range].
Qed.

Lemma optimizeAlpha_range (vals : list num) :
  In (optimizeAlpha vals) (c0_3 :: alphaGrid)
  /\ exists q : Qc, optimizeAlpha vals = Fin q /\ (0 < q)%Qc /\ (q < 1)%Qc.
Proof.
  unfold optimizeAlpha. apply pickRate_range; [| reflexivity].
  apply (keepBest_candidates _ alphaGrid (c0_3, PInf)).
Qed.

Lemma optimizeBeta_range (vals : list num) (alpha : num) :
  In (optimizeBeta vals alpha) (c0_1 :: betaGrid)
  /\ exists q : Qc, optimizeBeta vals alpha = Fin q /\ (0 < q)%Qc /\ (q < 1)%Qc.
Proof.
  unfold optimizeBeta. apply pickRate_range; [| reflexivity].
  apply (keepBest_candidates _ betaGrid (c0_1, PInf)).
Qed.

(** A rate in force is a rational, or the NaN the caller passed. *)
Lemma resolveRate_cases (a : option num) (dflt : num) :
  (exists q, dflt = Fin q) ->
  resolveRate a dflt = NaN \/ exists q, resolveRate a dflt = Fin q.
Proof.
  intros [q ->]. unfold resolveRate. destruct a as [[x| | |]|].
  - right. destruct (le (Fin x) zero || ge (Fin x) one); eexists; reflexivity.
  - right. eexists; reflexivity.
  - right. eexists; reflexivity.
  - now left.
  - right. eexists; reflexivity.
Qed.

End SmoothingRates.

Section SmoothingConstant.
Import ExponentialSmoothing.

Lemma fallback_constant (v : Qc) (n : nat) (periods : Z) :
  2 <= Z.of_nat n ->
  fallbackForecast (repeat (Fin v) n) periods = repeat (Fin v) (Z.to_nat periods).
Proof.
  intros Hn. unfold fallbackForecast, len. rewrite repeat_length.
  rewrite !get_repeat by lia.
  destruct (Z.of_nat n >? 1) eqn:E; [| rewrite Z.gtb_ltb in E; apply Z.ltb_ge in E; lia].
  apply forPeriods_const. intros i _. unfold or_else.
  destruct (truthy (Fin v)); reflexivity.
Qed.

Lemma smooth_NaN (prev : num) (vs : list num) :
  MovingAverage.smooth NaN prev vs = repeat NaN (length vs).
Proof.
  revert prev. induction vs as [|x vs IH]; intros prev; [reflexivity |].
  cbn [MovingAverage.smooth length repeat]. now rewrite IH.
Qed.

Lemma single_constant (data : list point) (v : Qc) (periods : Z) (alpha : option num) :
  Forall (fun p => value p = Fin v) data -> 3 <= len data ->
  singleExponentialSmoothing data periods alpha = Ok (repeat (Fin v) (Z.to_nat periods)).
Proof.
  intros Hc Hn. unfold singleExponentialSmoothing.
  destruct (len data <? 3) eqn:E; [apply Z.ltb_lt in E; lia |].
  rewrite (values_constant Hc).
  assert (Hl : len (repeat (Fin v) (length data)) = len data)
    by (unfold len; now rewrite repeat_length).
  rewrite Hl. unfold len in *.
  destruct (length data) as [|m] eqn:Em; [simpl in Hn; lia |].
  destruct (optimizeAlpha_range (repeat (Fin v) (S m))) as [_ [q0 [Hq0 _]]].
  destruct (@resolveRate_cases alpha (optimizeAlpha (repeat (Fin v) (S m))))
    as [Ha | [a Ha]]; [eexists; exact Hq0 | |]; rewrite Ha; unfold smoothedSeries;
    cbn [repeat tl]; rewrite get_zero.
  - rewrite smooth_NaN, repeat_length.
    change (Fin v :: repeat NaN m) with ([Fin v] ++ repeat NaN m).
    assert (Hg : get ([Fin v] ++ repeat NaN m) (Z.of_nat (S m) - 1) = NaN).
    { unfold get. destruct (Z.of_nat (S m) - 1 <? 0) eqn:E0; [reflexivity |].
      rewrite app_nth2 by (cbn [length]; lia). apply nth_repeat_lt. cbn [length]. lia. }
    rewrite Hg. cbn [isNaN]. f_equal.
    apply (@fallback_constant v (S m)). lia.
  - rewrite smooth_constant.
    change (Fin v :: repeat (Fin v) m) with (repeat (Fin v) (S m)).
    rewrite get_repeat by lia. cbn [isNaN]. f_equal.
    now apply forPeriods_const.
Qed.

Lemma holt_constant (a b v : Qc) (m : nat) :
  holt (Fin a) (Fin b) (Fin v) zero (repeat (Fin v) m) = repeat (Fin v, zero) m.
Proof.
  induction m as [|m IH]; [reflexivity |].
  cbn [repeat holt].
  assert (HL : (Fin a * Fin v + (one - Fin a) * (Fin v + zero))%num = Fin v).
  { unfold one, zero, ofZ. change (Q2Qc (inject_Z 1)) with 1%Qc.
    change (Q2Qc (inject_Z 0)) with 0%Qc.
    change (Fin a * Fin v + (Fin 1 - Fin a) * (Fin v + Fin 0))%num
      with (Fin (a * v + (1 - a) * (v + 0))).
    f_equal. ring. }
  rewrite HL.
  assert (HT : (Fin b * (Fin v - Fin v) + (one - Fin b) * zero)%num = zero).
  { unfold one, zero, ofZ. change (Q2Qc (inject_Z 1)) with 1%Qc.
    change (Q2Qc (inject_Z 0)) with 0%Qc.
    change (Fin b * (Fin v - Fin v) + (Fin 1 - Fin b) * Fin 0)%num
      with (Fin (b * (v - v) + (1 - b) * 0)).
    f_equal. ring. }
  rewrite HT, IH. reflexivity.
Qed.

Lemma holt_level_NaN (beta l t : num) (vs : list num) :
  map fst (holt NaN beta l t vs) = repeat NaN (length vs).
Proof.
  revert l t. induction vs as [|x vs IH]; intros l t; [reflexivity |].
  cbn [holt map fst length repeat]. now rewrite IH.
Qed.

Lemma holt_trend_NaN (alpha l t : num) (vs : list num) :
  map snd (holt alpha NaN l t vs) = repeat NaN (length vs).
Proof.
  revert l t. induction vs as [|x vs IH]; intros l t; [reflexivity |].
  cbn [holt map snd length repeat]. now rewrite IH.
Qed.

Lemma get_tail_NaN (x : num) (m : nat) :
  (1 <= m)%nat -> get (x :: repeat NaN m) (Z.of_nat (S m) - 1) = NaN.
Proof.
  intros Hm. unfold get. destruct (Z.of_nat (S m) - 1 <? 0) eqn:E0; [reflexivity |].
  replace (Z.to_nat (Z.of_nat (S m) - 1)) with (S (m - 1)) by lia.
  cbn [nth]. apply nth_repeat_lt. lia.
Qed.

Lemma double_constant (data : list point) (v : Qc) (periods : Z)
  (alpha beta : option num) :
  Forall (fun p => value p = Fin v) data -> 3 <= len data ->
  doubleExponentialSmoothing data periods alpha beta
  = Ok (repeat (Fin v) (Z.to_nat periods)).
Proof.
  intros Hc Hn. unfold doubleExponentialSmoothing.
  destruct (len data <? 3) eqn:E; [apply Z.ltb_lt in E; lia |].
  rewrite (values_constant Hc).
  assert (Hl : len (repeat (Fin v) (length data)) = len data)
    by (unfold len; now rewrite repeat_length).
  rewrite Hl. unfold len in *.
  destruct (length data) as [|m] eqn:Em; [simpl in Hn; lia |].
  set (vals := repeat (Fin v) (S m)).
  assert (Hfb : fallbackForecast vals periods = repeat (Fin v) (Z.to_nat periods))
    by (apply fallback_constant; lia).
  destruct (optimizeAlpha_range vals) as [_ [q0 [Hq0 _]]].
  destruct (@resolveRate_cases alpha (optimizeAlpha vals)) as [Ha | [a Ha]];
    [eexists; exact Hq0 | |]; rewrite Ha.
  - unfold holtSeries. cbn [map fst]. rewrite holt_level_NaN.
    change (tl vals) with (repeat (Fin v) m). rewrite repeat_length.
    rewrite get_tail_NaN by lia. cbn [isNaN orb]. now rewrite Hfb.
  - destruct (optimizeBeta_range vals (Fin a)) as [_ [q1 [Hq1 _]]].
    destruct (@resolveRate_cases beta (optimizeBeta vals (Fin a))) as [Hb | [b Hb]];
      [eexists; exact Hq1 | |]; rewrite Hb.
    + unfold holtSeries. cbn [map snd]. rewrite holt_trend_NaN.
      change (tl vals) with (repeat (Fin v) m). rewrite repeat_length.
      rewrite get_tail_NaN by lia. rewrite orb_true_r. now rewrite Hfb.
    + unfold holtSeries, vals. cbn [repeat tl]. rewrite !get_zero.
      assert (H1 : get (Fin v :: repeat (Fin v) m) 1 = Fin v)
        by (apply (@get_repeat (Fin v) (S m)); lia).
      rewrite H1, fin_sub_self, holt_constant.
      change ((Fin v, zero) :: repeat (Fin v, zero) m) with (repeat (Fin v, zero) (S m)).
      rewrite !map_repeat. cbn [fst snd].
      rewrite !get_repeat by lia. cbn [isNaN orb]. change (isNaN zero) with false.
      cbv iota. f_equal.
      apply forPeriods_const. intros i _. rewrite ofZ_qz. unfold zero. rewrite ofZ_qz.
      change (Fin v + Fin (qz (i + 1)) * Fin (qz 0))%num
        with (Fin (v + qz (i + 1) * qz 0)).
      unfold nanToZero. cbn [isNaN]. f_equal. change (qz 0) with 0%Qc. ring.
Qed.

Lemma exponentialSmoothing_constant (data : list point) (v : Qc) (periods : Z)
  (type : string) (seasonLength : Z) :
  Forall (fun p => value p = Fin v) data -> 3 <= len data ->
  type <> "triple"%string \/ seasonLength * 2 <= len data ->
  exponentialSmoothing data periods type seasonLength
  = Ok (repeat (Fin v) (Z.to_nat periods)).
Proof.
  intros Hc Hn Ht. unfold exponentialSmoothing.
  destruct (len data <? 3) eqn:E; [apply Z.ltb_lt in E; lia |].
  pose proof (fun a => @single_constant data v periods a Hc Hn) as S1.
  pose proof (fun a b => @double_constant data v periods a b Hc Hn) as S2.
  assert (S3 : seasonLength * 2 <= len data ->
               tripleExponentialSmoothing data periods seasonLength None None None
               = Ok (repeat (Fin v) (Z.to_nat periods))).
  { intros Hs. rewrite triple_always_falls_back by exact Hs.
    rewrite (values_constant Hc). f_equal. apply fallback_constant.
    unfold len in Hn. lia. }
  destruct (String.eqb type "auto") eqn:Ea.
  - destruct (len data >=? seasonLength * 2) eqn:Es.
    + assert (Hs : seasonLength * 2 <= len data)
        by (rewrite Z.geb_leb in Es; now apply Z.leb_le in Es).
      destruct (detectSeasonality data seasonLength);
        [cbn [String.eqb Ascii.eqb Bool.eqb]; now apply S3 |].
      destruct (detectTrend data);
        cbn [String.eqb Ascii.eqb Bool.eqb]; [apply S2 | apply S1].
    + destruct (detectTrend data);
        cbn [String.eqb Ascii.eqb Bool.eqb]; [apply S2 | apply S1].
  - destruct (String.eqb type "single"); [apply S1 |].
    destruct (String.eqb type "double"); [apply S2 |].
    destruct (String.eqb type "triple") eqn:Et; [| apply S1].
    apply String.eqb_eq in Et. destruct Ht as [Ht | Ht]; [congruence | now apply S3].
Qed.

End SmoothingConstant.

(** ** Gaussian elimination solves the system *)

Section SolverSoundness.
Import LinearSolver.

Lemma fin_toQ a : isFin a = true -> a = Fin (toQ a).
Proof. destruct a; try discriminate. reflexivity. Qed.

Lemma getn_nil j : getn [] j = NaN.
Proof. unfold getn. now destruct j. Qed.

Lemma getn_set_nat (l : list num) (j j' : nat) (x : num) :
  getn (set_nat l j x) j' = if (j' =? j)%nat then x else getn l j'.
Proof.
  revert l j'. induction j as [|j IH]; intros l j'.
  - destruct l as [|a l], j' as [|j']; cbn [set_nat Nat.eqb]; try reflexivity.
    unfold getn. cbn [nth]. now destruct j'.
  - destruct l as [|a l]; destruct j' as [|j']; cbn [set_nat Nat.eqb]; try reflexivity.
    + change (getn (NaN :: set_nat [] j x) (S j')) with (getn (set_nat [] j x) j').
      rewrite IH, !getn_nil. reflexivity.
    + change (getn (a :: set_nat l j x) (S j')) with (getn (set_nat l j x) j').
      rewrite IH. reflexivity.
Qed.

Lemma fold_update_entries (f : num) (p : list num) (js : list nat) (r : list num)
  (j : nat) :
  NoDup js ->
  let r' := fold_left (fun r j => set_nat r j (getn r j - f * getn p j)%num) js r in
  (In j js -> getn r' j = (getn r j - f * getn p j)%num)
  /\ (~ In j js -> getn r' j = getn r j).
Proof.
  cbv zeta. intros Hnd. revert r. induction Hnd as [|a js Ha Hnd IH]; intros r.
  - split; [intros [] | reflexivity].
  - cbn [fold_left].
    destruct (IH (set_nat r a (getn r a - f * getn p a)%num)) as [H1 H2].
    rewrite getn_set_nat in H1, H2.
    destruct (Nat.eq_dec j a) as [->|Hne].
    + rewrite Nat.eqb_refl in H2. split; [intros _; now apply H2 | intros H; elim H; now left].
    + apply Nat.eqb_neq in Hne. rewrite Hne in H1, H2. apply Nat.eqb_neq in Hne. split.
      * intros [E | Hin]; [congruence | now apply H1].
      * intros Hn. apply H2. intros Hin. apply Hn. now right.
Qed.

Lemma elimRow_entries (p r : list num) (i n j : nat) :
  (i <= S n)%nat ->
  getn (elimRow p r i n) j
  = if (i <=? j)%nat && (j <=? n)%nat
    then (getn r j - (getn r i / getn p i) * getn p j)%num
    else getn r j.
Proof.
  intros Hi. unfold elimRow.
  destruct (@fold_update_entries (getn r i / getn p i)%num p (seq i (S n - i)) r j
              (seq_NoDup _ _)) as [H1 H2].
  destruct ((i <=? j)%nat && (j <=? n)%nat) eqn:E.
  - apply andb_true_iff in E. destruct E as [E1 E2].
    apply Nat.leb_le in E1. apply Nat.leb_le in E2.
    apply H1. apply in_seq. lia.
  - apply H2. rewrite in_seq. intros Hin.
    assert ((i <=? j)%nat = true) by (apply Nat.leb_le; lia).
    assert ((j <=? n)%nat = true) by (apply Nat.leb_le; lia).
    rewrite H, H0 in E. discriminate.
Qed.

Lemma eliminate_rows_fold (i n : nat) (ks : list nat) (a : matrix) (k : nat) :
  NoDup ks -> ~ In i ks -> (forall k', In k' ks -> (k' < length a)%nat) ->
  let a' := fold_left (fun a k => setRow a k (elimRow (row a i) (row a k) i n)) ks a in
  (In k ks -> row a' k = elimRow (row a i) (row a k) i n)
  /\ (~ In k ks -> row a' k = row a k).
Proof.
  cbv zeta. intros Hnd. revert a. induction Hnd as [|k0 ks Hk0 Hnd IH]; intros a Hi Hlen.
  - split; [intros [] | reflexivity].
  - cbn [fold_left].
    set (a1 := setRow a k0 (elimRow (row a i) (row a k0) i n)).
    assert (Hi0 : k0 <> i) by (intros ->; apply Hi; now left).
    assert (Hrow_i : row a1 i = row a i)
      by (unfold a1; apply row_setRow_other; congruence).
    destruct (IH a1) as [H1 H2].
    { intros Hin. apply Hi. now right. }
    { intros k' Hk'. unfold a1. rewrite setRow_length. apply Hlen. now right. }
    rewrite Hrow_i in H1.
    destruct (Nat.eq_dec k k0) as [->|Hne].
    + split; [intros _ | intros H; elim H; now left].
      rewrite (H2 Hk0). unfold a1. apply row_setRow_same. apply Hlen. now left.
    + assert (Hrow_k : row a1 k = row a k)
        by (unfold a1; apply row_setRow_other; congruence).
      rewrite Hrow_k in H1, H2. split.
      * intros [E | Hin]; [congruence | now apply H1].
      * intros Hn. apply H2. intros Hin. apply Hn. now right.
Qed.

Lemma eliminate_rows (aug : matrix) (i n k : nat) :
  length aug = n ->
  row (eliminate aug i n) k
  = if (i <? k)%nat && (k <? n)%nat then elimRow (row aug i) (row aug k) i n
    else row aug k.
Proof.
  intros Hlen. unfold eliminate.
  destruct (@eliminate_rows_fold i n (seq (S i) (n - S i)) aug k (seq_NoDup _ _))
    as [H1 H2].
  { rewrite in_seq. lia. }
  { intros k' Hk'. apply in_seq in Hk'. lia. }
  destruct ((i <? k)%nat && (k <? n)%nat) eqn:E.
  - apply andb_true_iff in E. destruct E as [E1 E2].
    apply Nat.ltb_lt in E1. apply Nat.ltb_lt in E2. apply H1. apply in_seq. lia.
  - apply H2. rewrite in_seq. intros Hin.
    assert ((i <? k)%nat = true) by (apply Nat.ltb_lt; lia).
    assert ((k <? n)%nat = true) by (apply Nat.ltb_lt; lia).
    rewrite H, H0 in E. discriminate.
Qed.


Lemma qsum_ext {A : Type} (f g : A -> Qc) (l : list A) :
  (forall j, In j l -> f j = g j) -> qsum f l = qsum g l.
Proof.
  induction l as [|a l IH]; intros H; [reflexivity |].
  cbn [qsum]. rewrite (H a) by now left. rewrite IH; [reflexivity |].
  intros j Hj. apply H. now right.
Qed.

Lemma qsum_app {A : Type} (f : A -> Qc) (l1 l2 : list A) :
  qsum f (l1 ++ l2) = (qsum f l1 + qsum f l2)%Qc.
Proof.
  induction l1 as [|a l1 IH]; cbn [app qsum]; [ring |]. rewrite IH. ring.
Qed.

Lemma qsum_zero {A : Type} (f : A -> Qc) (l : list A) :
  (forall j, In j l -> f j = 0%Qc) -> qsum f l = 0%Qc.
Proof.
  induction l as [|a l IH]; intros H; [reflexivity |].
  cbn [qsum]. rewrite (H a) by now left. rewrite IH; [ring |].
  intros j Hj. apply H. now right.
Qed.

Lemma qsum_linear {A : Type} (f g : A -> Qc) (c : Qc) (l : list A) :
  qsum (fun j => (f j - c * g j)%Qc) l = (qsum f l - c * qsum g l)%Qc.
Proof.
  induction l as [|a l IH]; cbn [qsum]; [ring |]. rewrite IH. ring.
Qed.

(** The rows of the system after a swap are the rows before it. *)
Lemma swapRows_source (aug : matrix) (i m k : nat) :
  (i < length aug)%nat -> (m < length aug)%nat ->
  row (swapRows aug i m) k
  = row aug (if (k =? i)%nat then m else if (k =? m)%nat then i else k).
Proof.
  intros Hi Hm. destruct (@swapRows_rows aug i m Hi Hm) as [H1 H2].
  destruct (k =? i)%nat eqn:E1; [apply Nat.eqb_eq in E1; now subst |].
  destruct (k =? m)%nat eqn:E2; [apply Nat.eqb_eq in E2; now subst |].
  apply Nat.eqb_neq in E1. apply Nat.eqb_neq in E2. now apply swapRows_other.
Qed.

Lemma swap_echelon (n : nat) (aug : matrix) (i m : nat) :
  length aug = n -> (i <= m < n)%nat ->
  echelon n i aug -> echelon n i (swapRows aug i m).
Proof.
  intros Hl Hm He k j Hj Hk. unfold entry.
  rewrite swapRows_source by lia. apply He; [exact Hj |].
  destruct (k =? i)%nat; [lia |]. destruct (k =? m)%nat; lia.
Qed.

Lemma swap_solves (n : nat) (aug : matrix) (i m : nat) (x : list num) :
  length aug = n -> (i <= m < n)%nat ->
  solves n (swapRows aug i m) x -> solves n aug x.
Proof.
  intros Hl Hm Hs k Hk.
  set (k' := if (k =? i)%nat then m else if (k =? m)%nat then i else k).
  assert (Hk' : (k' < n)%nat).
  { unfold k'. destruct (k =? i)%nat; [lia |]. destruct (k =? m)%nat; lia. }
  assert (Hrow : row (swapRows aug i m) k' = row aug k).
  { rewrite swapRows_source by lia. f_equal. unfold k'.
    destruct (k =? i)%nat eqn:E1.
    - apply Nat.eqb_eq in E1. subst k.
      destruct (m =? i)%nat eqn:E3; [now apply Nat.eqb_eq in E3 |].
      now rewrite Nat.eqb_refl.
    - destruct (k =? m)%nat eqn:E2.
      + apply Nat.eqb_eq in E2. subst k. now rewrite Nat.eqb_refl.
      + now rewrite E1, E2. }
  specialize (Hs k' Hk'). unfold entry in *. now rewrite Hrow in Hs.
Qed.

(** The entries of an eliminated row, as rationals. *)
Lemma elimRow_rational (n : nat) (p r : list num) (i j : nat) :
  finiteRow n p -> finiteRow n r -> (i <= n)%nat -> (j <= n)%nat ->
  toQ (getn p i) <> 0%Qc ->
  toQ (getn (elimRow p r i n) j)
  = if (i <=? j)%nat
    then (toQ (getn r j) - toQ (getn r i) / toQ (getn p i) * toQ (getn p j))%Qc
    else toQ (getn r j).
Proof.
  intros [Hpl Hpf] [Hrl Hrf] Hi Hj Hq.
  rewrite elimRow_entries by lia.
  assert (Hjn : (j <=? n)%nat = true) by now apply Nat.leb_le.
  rewrite Hjn, andb_true_r.
  destruct (i <=? j)%nat; [| reflexivity].
  destruct (isFin_Fin _ (getn_finite Hrf (j := j) ltac:(lia))) as [a Ha].
  destruct (isFin_Fin _ (getn_finite Hrf (j := i) ltac:(lia))) as [b Hb].
  destruct (isFin_Fin _ (getn_finite Hpf (j := j) ltac:(lia))) as [c Hc].
  destruct (isFin_Fin _ (getn_finite Hpf (j := i) ltac:(lia))) as [q Hq'].
  rewrite Hq' in Hq. cbn [toQ] in Hq.
  rewrite Ha, Hb, Hc, Hq'. cbn [toQ]. rewrite div_fin by exact Hq. reflexivity.
Qed.

Lemma elim_sound (n : nat) (s : matrix) (i : nat) :
  finiteSystem n s -> (i < n)%nat -> echelon n i s ->
  toQ (entry s i i) <> 0%Qc ->
  echelon n (S i) (eliminate s i n)
  /\ (forall x, solves n (eliminate s i n) x -> solves n s x)
  /\ (forall k, (k <= i)%nat -> row (eliminate s i n) k = row s k).
Proof.
  intros Hfin Hi He Hq. destruct Hfin as [Hl Hf].
  assert (Hfin : finiteSystem n s) by now split.
  assert (Hsame : forall k, (k <= i)%nat -> row (eliminate s i n) k = row s k).
  { intros k Hk. rewrite eliminate_rows by exact Hl.
    assert (E : (i <? k)%nat = false) by (apply Nat.ltb_ge; lia). now rewrite E. }
  assert (Hbelow : forall k, (i < k < n)%nat ->
                     row (eliminate s i n) k = elimRow (row s i) (row s k) i n).
  { intros k Hk. rewrite eliminate_rows by exact Hl.
    assert (E1 : (i <? k)%nat = true) by (apply Nat.ltb_lt; lia).
    assert (E2 : (k <? n)%nat = true) by (apply Nat.ltb_lt; lia).
    now rewrite E1, E2. }
  assert (Hent : forall k j, (i < k < n)%nat -> (j <= n)%nat ->
                   toQ (entry (eliminate s i n) k j)
                   = (toQ (entry s k j)
                      - toQ (entry s k i) / toQ (entry s i i) * toQ (entry s i j))%Qc).
  { intros k j Hk Hj. unfold entry at 1. rewrite Hbelow by exact Hk.
    rewrite (@elimRow_rational n) ; try lia; try exact Hq;
      try (apply row_finite; [exact Hfin | lia]).
    fold (entry s k j) (entry s k i) (entry s i i) (entry s i j).
    destruct (i <=? j)%nat eqn:E; [reflexivity |].
    apply Nat.leb_gt in E.
    rewrite (He i j E ltac:(lia)). ring. }
  split; [| split; [| exact Hsame]].
  - intros k j Hj Hk.
    destruct (Nat.le_gt_cases k i) as [Hki | Hki].
    + unfold entry. rewrite Hsame by exact Hki. apply He; lia.
    + rewrite Hent by lia.
      destruct (Nat.eq_dec j i) as [->|Hne].
      * field. exact Hq.
      * rewrite (He k j ltac:(lia) ltac:(lia)), (He i j ltac:(lia) ltac:(lia)). ring.
  - intros x Hs k Hk.
    destruct (Nat.le_gt_cases k i) as [Hki | Hki].
    + specialize (Hs k Hk). unfold entry in *. now rewrite Hsame in Hs by exact Hki.
    + pose proof (Hs k Hk) as Hk1. pose proof (Hs i Hi) as Hi1.
      unfold entry in Hi1. rewrite Hsame in Hi1 by lia. fold (entry s i n) in Hi1.
      rewrite Hent in Hk1 by lia.
      unfold dotQ in Hk1.
      rewrite (qsum_ext
                 (fun j => (toQ (getn (row (eliminate s i n) k) j) * toQ (getn x j))%Qc)
                 (fun j => (toQ (getn (row s k) j) * toQ (getn x j)
                            - toQ (entry s k i) / toQ (entry s i i)
                              * (toQ (getn (row s i) j) * toQ (getn x j)))%Qc)) in Hk1.
      * rewrite qsum_linear in Hk1. fold (dotQ n (row s k) x) in Hk1.
        fold (dotQ n (row s i) x) in Hk1. rewrite Hi1 in Hk1.
        set (f := (toQ (entry s k i) / toQ (entry s i i))%Qc) in *.
        set (a := dotQ n (row s k) x) in *.
        transitivity ((a - f * toQ (entry s i n)) + f * toQ (entry s i n))%Qc; [ring |].
        rewrite Hk1. ring.
      * intros j Hj. apply in_seq in Hj.
        fold (entry (eliminate s i n) k j). rewrite Hent by lia.
        unfold entry. ring.
Qed.


Lemma forwardStep_sound n aug i aug' :
  finiteSystem n aug -> (i < n)%nat -> echelon n i aug -> pivots i aug ->
  forwardStep aug i n = Ok aug' ->
  echelon n (S i) aug' /\ pivots (S i) aug'
  /\ (forall x, solves n aug' x -> solves n aug x).
Proof.
  intros Hfin Hi He Hp H. apply forwardStep_ok in H. destruct H as [Hsmall ->].
  destruct (findMaxRow_largest aug Hi (finite_column_not_NaN Hfin Hi)) as [Hm _].
  unfold pivotTooSmall, pivotAfterSwap in Hsmall.
  set (m := findMaxRow aug i n) in *.
  pose proof (@swapRows_finite n aug i m Hfin Hi ltac:(lia)) as Hsw.
  assert (Hl : length aug = n) by apply Hfin.
  assert (Hq : toQ (entry (swapRows aug i m) i i) <> 0%Qc).
  { destruct (isFin_Fin _ (@entry_finite n _ i i Hsw Hi ltac:(lia))) as [q Hq].
    rewrite Hq in *. cbn [toQ]. intros ->.
    rewrite lt_abs_eps_zero in Hsmall. discriminate. }
  destruct (@elim_sound n (swapRows aug i m) i Hsw Hi (swap_echelon Hl Hm He) Hq)
    as [E1 [E2 E3]].
  split; [exact E1 | split].
  - intros j Hj. unfold entry. rewrite E3 by lia.
    destruct (Nat.eq_dec j i) as [->|Hne]; [exact Hq |].
    rewrite swapRows_other by lia. apply Hp. lia.
  - intros x Hx. apply (@swap_solves n aug i m x Hl Hm). now apply E2.
Qed.

Lemma forward_sound n steps : forall i aug U,
  (i + steps = n)%nat -> finiteSystem n aug -> echelon n i aug -> pivots i aug ->
  forward steps aug i n = Ok U ->
  finiteSystem n U /\ echelon n n U /\ pivots n U
  /\ (forall x, solves n U x -> solves n aug x).
Proof.
  induction steps as [|steps IH]; intros i aug U Hn Hfin He Hp H.
  - cbn [forward] in H. injection H as <-.
    assert (Hi : i = n) by lia. subst i.
    split; [exact Hfin | split; [exact He | split; [exact Hp | auto]]].
  - cbn [forward] in H.
    destruct (forwardStep aug i n) as [aug1|e] eqn:E; cbn [bind] in H; [|discriminate].
    destruct (@forwardStep_sound n aug i aug1 Hfin ltac:(lia) He Hp E) as [E1 [E2 E3]].
    pose proof (@forwardStep_finite n aug i aug1 Hfin ltac:(lia) E) as Hfin1.
    destruct (IH (S i) aug1 U ltac:(lia) Hfin1 E1 E2 H) as [F1 [F2 [F3 F4]]].
    split; [exact F1 | split; [exact F2 | split; [exact F3 | auto]]].
Qed.

Lemma back_sum (U : matrix) (x : list num) (i : nat) (js : list nat) (a : Qc) :
  (forall j, In j js -> isFin (entry U i j) = true /\ isFin (getn x j) = true) ->
  fold_left (fun acc j => (acc - entry U i j * getn x j)%num) js (Fin a)
  = Fin (a - qsum (fun j => (toQ (entry U i j) * toQ (getn x j))%Qc) js).
Proof.
  revert a. induction js as [|j js IH]; intros a H.
  - cbn [fold_left qsum]. f_equal. ring.
  - cbn [fold_left qsum]. destruct (H j ltac:(now left)) as [H1 H2].
    destruct (isFin_Fin _ H1) as [u Hu]. destruct (isFin_Fin _ H2) as [v Hv].
    rewrite Hu, Hv. cbn [toQ].
    change (Fin a - Fin u * Fin v)%num with (Fin (a - u * v)).
    rewrite IH by (intros j' Hj'; apply H; now right).
    f_equal. ring.
Qed.

Lemma backRow_inv n U i x :
  finiteSystem n U -> (i < n)%nat -> toQ (entry U i i) <> 0%Qc ->
  backInv n U (S i) x -> backInv n U i (backRow U n x i).
Proof.
  intros Hfin Hi Hq [Hl [Hf He]]. unfold backRow.
  destruct (isFin_Fin _ (@entry_finite n U i n Hfin Hi ltac:(lia))) as [c Hc].
  destruct (isFin_Fin _ (@entry_finite n U i i Hfin Hi ltac:(lia))) as [q Hq'].
  rewrite Hc, back_sum.
  2:{ intros j Hj. apply in_seq in Hj. split.
      - apply (@entry_finite n); [exact Hfin | lia | lia].
      - apply Hf. lia. }
  rewrite Hq' in *. cbn [toQ] in Hq. rewrite div_fin by exact Hq.
  set (s := qsum (fun j => (toQ (entry U i j) * toQ (getn x j))%Qc)
                 (seq (S i) (n - S i))).
  assert (Hget : forall j, getn (set_nat x i (Fin ((c - s) / q))) j
                           = if (j =? i)%nat then Fin ((c - s) / q) else getn x j)
    by (intros j; apply getn_set_nat).
  split; [| split].
  - rewrite set_nat_length; lia.
  - intros j Hj. rewrite Hget. destruct (j =? i)%nat eqn:E; [reflexivity |].
    apply Nat.eqb_neq in E. apply Hf. lia.
  - intros k Hk.
    rewrite (qsum_ext _ (fun j => (toQ (entry U k j) * toQ (getn x j))%Qc)).
    2:{ intros j Hj. apply in_seq in Hj. rewrite Hget.
        assert (E : (j =? i)%nat = false) by (apply Nat.eqb_neq; lia).
        now rewrite E. }
    rewrite Hget. destruct (k =? i)%nat eqn:E.
    + apply Nat.eqb_eq in E. subst k. rewrite Hq', Hc. cbn [toQ]. fold s.
      field. exact Hq.
    + apply Nat.eqb_neq in E. apply He. lia.
Qed.

Lemma backSubstitute_inv n U :
  finiteSystem n U -> pivots n U -> backInv n U 0 (backSubstitute U n).
Proof.
  intros Hfin Hp. unfold backSubstitute.
  assert (G : forall m, (m <= n)%nat ->
                backInv n U (n - m)
                  (fold_left (backRow U n) (rev (seq (n - m) m)) (repeat NaN n))).
  { induction m as [|m IH]; intros Hm.
    - cbn [seq rev fold_left]. split; [apply repeat_length | split]; intros; lia.
    - replace (seq (n - S m) (S m)) with ((n - S m)%nat :: seq (n - m) m).
      2:{ cbn [seq]. f_equal. f_equal. lia. }
      cbn [rev]. rewrite fold_left_app. cbn [fold_left].
      apply backRow_inv; [exact Hfin | lia | apply Hp; lia |].
      replace (S (n - S m)) with (n - m)%nat by lia. apply IH. lia. }
  specialize (G n (Nat.le_refl n)). now rewrite Nat.sub_diag in G.
Qed.

Lemma triangular_solves n U x :
  echelon n n U -> backInv n U 0 x -> solves n U x.
Proof.
  intros He [Hl [Hf Heq]] k Hk. unfold dotQ.
  replace n with (k + S (n - S k))%nat at 1 by lia.
  rewrite seq_app. cbn [seq]. rewrite qsum_app. cbn [qsum].
  rewrite qsum_zero.
  - rewrite Qcplus_0_l. apply Heq. lia.
  - intros j Hj. apply in_seq in Hj. fold (entry U k j).
    rewrite (He k j ltac:(lia) ltac:(lia)). ring.
Qed.

Lemma augment_row (A : matrix) (b : list num) (i k : nat) :
  (k < length A)%nat -> row (augment A b i) k = row A k ++ [getn b (i + k)].
Proof.
  unfold row. revert i k. induction A as [|r A IH]; intros i k Hk; [simpl in Hk; lia |].
  destruct k as [|k]; cbn [augment nth].
  - now rewrite Nat.add_0_r.
  - rewrite IH by (simpl in Hk; lia). f_equal. f_equal. f_equal. lia.
Qed.

Lemma dot_sum (r x : list num) (js : list nat) (a : Qc) :
  (forall j, In j js -> isFin (getn r j) = true /\ isFin (getn x j) = true) ->
  fold_left (fun s j => (s + getn r j * getn x j)%num) js (Fin a)
  = Fin (a + qsum (fun j => (toQ (getn r j) * toQ (getn x j))%Qc) js).
Proof.
  revert a. induction js as [|j js IH]; intros a H.
  - cbn [fold_left qsum]. f_equal. ring.
  - cbn [fold_left qsum]. destruct (H j ltac:(now left)) as [H1 H2].
    destruct (isFin_Fin _ H1) as [u Hu]. destruct (isFin_Fin _ H2) as [v Hv].
    rewrite Hu, Hv. cbn [toQ].
    change (Fin a + Fin u * Fin v)%num with (Fin (a + u * v)).
    rewrite IH by (intros j' Hj'; apply H; now right).
    f_equal. ring.
Qed.

Lemma solveLinearSystem_sound (A : matrix) (b x : list num) :
  finiteInput A b -> solveLinearSystem A b = Ok x ->
  length x = length A
  /\ allFinite x
  /\ forall k, (k < length A)%nat -> rowTimes (row A k) x = getn b k.
Proof.
  intros [HA [Hbl Hbf]] H. unfold solveLinearSystem in H.
  set (n := length A) in *.
  destruct (@augment_finite n A b 0 HA ltac:(fold n; lia) Hbf) as [Hal Haf].
  assert (Hstart : finiteSystem n (augment A b 0)) by (split; assumption).
  destruct (forward n (augment A b 0) 0 n) as [U|e] eqn:E; cbn [bind] in H; [|discriminate].
  injection H as <-.
  destruct (@forward_sound n n 0 (augment A b 0) U ltac:(lia) Hstart)
    as [F1 [F2 [F3 F4]]]; [intros k j Hj; lia | intros j Hj; lia | exact E |].
  pose proof (backSubstitute_inv F1 F3) as Hinv.
  pose proof (F4 _ (triangular_solves F2 Hinv)) as Hsol.
  destruct Hinv as [Hl [Hf _]].
  set (x := backSubstitute U n) in *.
  assert (Hxf : allFinite x).
  { apply Forall_forall. intros v Hv. destruct (In_nth _ _ NaN Hv) as [j [Hj <-]].
    apply (Hf j). lia. }
  split; [exact Hl | split; [exact Hxf |]].
  intros k Hk. specialize (Hsol k Hk). unfold entry in Hsol.
  rewrite augment_row in Hsol by exact Hk. cbn [Nat.add] in Hsol.
  rewrite Forall_forall in HA.
  destruct (HA (row A k) ltac:(unfold row; apply nth_In; exact Hk)) as [Hrl Hrf].
  fold n in Hrl.
  unfold rowTimes. rewrite Hrl. unfold zero. rewrite ofZ_qz. rewrite dot_sum.
  2:{ intros j Hj. apply in_seq in Hj. split.
      - apply getn_finite; [exact Hrf | lia].
      - apply Hf. lia. }
  assert (Hb : getn (row A k ++ [getn b k]) n = getn b k).
  { unfold getn at 1. rewrite app_nth2 by lia. rewrite Hrl, Nat.sub_diag. reflexivity. }
  rewrite Hb in Hsol.
  unfold dotQ in Hsol.
  rewrite (qsum_ext _ (fun j => (toQ (getn (row A k) j) * toQ (getn x j))%Qc)) in Hsol.
  2:{ intros j Hj. apply in_seq in Hj. unfold getn at 1.
      rewrite app_nth1 by lia. reflexivity. }
  rewrite Hsol. change (qz 0) with 0%Qc. rewrite Qcplus_0_l.
  symmetry. apply fin_toQ. apply getn_finite; [exact Hbf | lia].
Qed.

End SolverSoundness.

(** ** The fields of a result *)

Section PayloadFacts.
Import PredictionService.

Lemma mapi_flags (times : list Z) (vals : list num) :
  Forall (fun p => p_isPrediction p = true)
         (mapi (fun val index => mkPrediction (nth_error times index) val true) vals).
Proof.
  unfold mapi. apply Forall_forall. intros p Hp. apply in_map_iff in Hp.
  destruct Hp as [[i a] [<- _]]. reflexivity.
Qed.

Lemma generatePrediction_fields data periods model timeInterval timeFormat mp r :
  generatePrediction data periods model timeInterval timeFormat mp = Ok r ->
  r_model r = model /\ r_timeInterval r = timeInterval /\ r_timeFormat r = timeFormat
  /\ historicalData r
     = map (fun item => mkPrediction (Some (time item)) (value item) false) data
  /\ Forall (fun p => p_isPrediction p = true) (predictions r).
Proof.
  unfold generatePrediction. intros H.
  destruct (len data <? 2); [discriminate |].
  destruct (periods <=? 0); [discriminate |].
  destruct (dispatch data periods model mp) as [raw|e]; simpl in H; [|discriminate].
  injection H as <-. cbn [r_model r_timeInterval r_timeFormat historicalData predictions].
  repeat split. apply mapi_flags.
Qed.

End PayloadFacts.

(** ** The Yule-Walker equations *)

Section YuleWalker.
Import Arima.

Lemma fold_add_finite {A : Type} (f : A -> num) (l : list A) (a : Qc) :
  (forall i, In i l -> isFin (f i) = true) ->
  fold_left (fun s i => (s + f i)%num) l (Fin a)
  = Fin (a + qsum (fun i => toQ (f i)) l).
Proof.
  revert a. induction l as [|i l IH]; intros a H.
  - cbn [fold_left qsum]. f_equal. ring.
  - cbn [fold_left qsum]. destruct (isFin_Fin _ (H i ltac:(now left))) as [u Hu].
    rewrite Hu. cbn [toQ]. change (Fin a + Fin u)%num with (Fin (a + u)).
    rewrite IH by (intros j Hj; apply H; now right).
    f_equal. ring.
Qed.

Lemma get_finite (l : list num) (i : Z) :
  allFinite l -> 0 <= i < len l -> isFin (get l i) = true.
Proof.
  intros Hl Hi. unfold get, len in *.
  destruct (i <? 0) eqn:E; [apply Z.ltb_lt in E; lia |].
  unfold allFinite in Hl. rewrite Forall_forall in Hl. apply Hl. apply nth_In. lia.
Qed.

Lemma sum_finite (l : list num) : allFinite l -> isFin (sum l) = true.
Proof.
  intros Hl. unfold sum, zero. rewrite ofZ_qz.
  change add with (fun s x : num => (s + (fun y => y) x)%num).
  rewrite fold_add_finite; [reflexivity |].
  unfold allFinite in Hl. rewrite Forall_forall in Hl. exact Hl.
Qed.

Lemma mean_finite (l : list num) :
  allFinite l -> l <> [] -> isFin (mean l) = true.
Proof.
  intros Hl Hne. unfold mean.
  destruct (isFin_Fin _ (sum_finite Hl)) as [s ->].
  rewrite ofZ_qz, div_fin; [reflexivity |].
  apply qz_nonzero. unfold len. destruct l; [congruence | simpl; lia].
Qed.

Lemma autocorrelation_finite (data : list num) (lag : Z) :
  allFinite data -> 0 <= lag -> isFin (autocorrelation data lag) = true.
Proof.
  intros Hd Hl. unfold autocorrelation.
  destruct (lag >=? len data) eqn:E; [reflexivity |].
  rewrite Z.geb_leb in E. apply Z.leb_gt in E.
  assert (Hne : data <> []) by (intros ->; unfold len in E; simpl in E; lia).
  destruct (isFin_Fin _ (mean_finite Hd Hne)) as [m ->].
  change zero with (Fin (qz 0)).
  rewrite (@fold_add_finite Z (fun i => pow (get data i - Fin m) 2)).
  2:{ intros i Hi. apply zrange_bounds in Hi.
      destruct (isFin_Fin _ (@get_finite data i Hd ltac:(lia))) as [x ->]. reflexivity. }
  rewrite (@fold_add_finite Z (fun i => (get data i - Fin m) * (get data (i + lag) - Fin m))%num).
  2:{ intros i Hi. apply zrange_bounds in Hi.
      destruct (isFin_Fin _ (@get_finite data i Hd ltac:(lia))) as [x ->].
      destruct (isFin_Fin _ (@get_finite data (i + lag) Hd ltac:(lia))) as [y ->].
      reflexivity. }
  match goal with
  | |- context [eqb (Fin ?d) (Fin (qz 0))] =>
      destruct (eqb (Fin d) (Fin (qz 0))) eqn:Ez; [reflexivity |];
      assert (Hd0 : d <> 0%Qc)
  end.
  { intros H0. rewrite H0 in Ez. discriminate. }
  rewrite div_fin by exact Hd0. reflexivity.
Qed.

Lemma nth_zrange (lo hi : Z) (k : nat) (d : Z) :
  (k < length (zrange lo hi))%nat -> nth k (zrange lo hi) d = lo + Z.of_nat k.
Proof.
  unfold zrange. rewrite length_map, length_seq. intros Hk.
  rewrite (nth_indep _ d (lo + Z.of_nat 0)) by (rewrite length_map, length_seq; lia).
  rewrite (map_nth (fun k => lo + Z.of_nat k)). rewrite seq_nth by lia. reflexivity.
Qed.

Lemma yule_walker (data : list num) (p : Z) (phi : list num) :
  allFinite data -> 0 <= p ->
  autoregressive data p = Ok phi ->
  len phi = p
  /\ allFinite phi
  /\ forall i, 0 <= i < p ->
       rowTimes (map (fun j => autocorrelation data (Z.abs (i - j))) (zrange 0 p)) phi
       = autocorrelation data (i + 1).
Proof.
  intros Hd Hp. unfold autoregressive.
  destruct (len data <? p + 1) eqn:E; [discriminate |]. apply Z.ltb_ge in E.
  set (acf := map (fun i => autocorrelation data i) (zrange 0 (p + 1))).
  assert (Hacf : forall k, 0 <= k < p + 1 -> get acf k = autocorrelation data k).
  { intros k Hk. unfold acf. rewrite get_map_zrange by lia. f_equal. }
  assert (Hlacf : length acf = Z.to_nat (p + 1))
    by (unfold acf; rewrite length_map, zrange_length; f_equal; lia).
  set (R := map (fun i => map (fun j => get acf (Z.abs (i - j))) (zrange 0 p)) (zrange 0 p)).
  set (r := slice acf 1 (p + 1)).
  assert (HlR : length R = Z.to_nat p)
    by (unfold R; rewrite length_map, zrange_length; f_equal; lia).
  assert (Hr : r = map (fun i => autocorrelation data i) (zrange 1 (p + 1))).
  { unfold r, slice, rel_index. rewrite Hlacf.
    change (1 <? 0) with false. cbv iota.
    destruct (p + 1 <? 0) eqn:E1; [apply Z.ltb_lt in E1; lia |].
    rewrite !Z.min_l by lia. unfold acf.
    rewrite (@zrange_cons 0 (p + 1)) by lia. cbn [map skipn Z.to_nat Pos.to_nat Pos.iter_op Nat.add].
    apply firstn_all2. rewrite length_map, zrange_length. lia. }
  intros H.
  assert (Hin : finiteInput R r).
  { split; [| split].
    - apply Forall_forall. intros row Hrow. unfold R in Hrow. apply in_map_iff in Hrow.
      destruct Hrow as [i [<- Hi]]. apply zrange_bounds in Hi. split.
      + rewrite length_map, zrange_length, HlR. f_equal. lia.
      + apply Forall_forall. intros x Hx. apply in_map_iff in Hx.
        destruct Hx as [j [<- Hj]]. apply zrange_bounds in Hj.
        rewrite Hacf by lia. apply autocorrelation_finite; [exact Hd | lia].
    - rewrite Hr, length_map, zrange_length, HlR. f_equal. lia.
    - rewrite Hr. apply Forall_forall. intros x Hx. apply in_map_iff in Hx.
      destruct Hx as [j [<- Hj]]. apply zrange_bounds in Hj.
      apply autocorrelation_finite; [exact Hd | lia]. }
  destruct (solveLinearSystem_sound Hin H) as [Hl [Hf Hrows]].
  split; [unfold len; rewrite Hl, HlR; lia | split; [exact Hf |]].
  intros i Hi. specialize (Hrows (Z.to_nat i) ltac:(lia)).
  assert (Hrow : LinearSolver.row R (Z.to_nat i)
                 = map (fun j => autocorrelation data (Z.abs (i - j))) (zrange 0 p)).
  { unfold LinearSolver.row, R.
    rewrite (nth_indep _ [] ((fun i => map (fun j => get acf (Z.abs (i - j))) (zrange 0 p)) 0))
      by (rewrite length_map, zrange_length; lia).
    rewrite (map_nth (fun i => map (fun j => get acf (Z.abs (i - j))) (zrange 0 p))).
    rewrite nth_zrange by (rewrite zrange_length; lia).
    replace (0 + Z.of_nat (Z.to_nat i)) with i by lia.
    apply map_ext_in. intros j Hj. apply zrange_bounds in Hj. apply Hacf. lia. }
  rewrite Hrow in Hrows. rewrite Hrows. rewrite Hr. unfold LinearSolver.getn.
  rewrite (nth_indep _ NaN ((fun i => autocorrelation data i) 0))
    by (rewrite length_map, zrange_length; lia).
  rewrite (map_nth (fun i => autocorrelation data i)).
  rewrite nth_zrange by (rewrite zrange_length; lia).
  f_equal. lia.
Qed.

End YuleWalker.

(** ** The normal equations of the polynomial fit *)

Section NormalEquations.
Import PolynomialRegression.

Lemma pow_fin (q : Qc) (n : nat) : pow (Fin q) n = Fin (Qcpower q n).
Proof.
  induction n as [|n IH]; [reflexivity |].
  destruct n as [|n].
  - cbn [pow Qcpower]. f_equal. ring.
  - change (pow (Fin q) (S (S n))) with (mul (Fin q) (pow (Fin q) (S n))).
    rewrite IH. reflexivity.
Qed.

Lemma qsum_scale {A : Type} (f : A -> Qc) (c : Qc) (l : list A) :
  qsum (fun a => (c * f a)%Qc) l = (c * qsum f l)%Qc.
Proof. induction l as [|a l IH]; cbn [qsum]; [ring |]. rewrite IH. ring. Qed.

Lemma qsum_plus {A : Type} (f g : A -> Qc) (l : list A) :
  qsum (fun a => (f a + g a)%Qc) l = (qsum f l + qsum g l)%Qc.
Proof. induction l as [|a l IH]; cbn [qsum]; [ring |]. rewrite IH. ring. Qed.

Lemma qsum_exchange {A B : Type} (f : A -> B -> Qc) (la : list A) (lb : list B) :
  qsum (fun a => qsum (fun b => f a b) lb) la
  = qsum (fun b => qsum (fun a => f a b) la) lb.
Proof.
  induction la as [|a la IH]; cbn [qsum].
  - symmetry. apply qsum_zero. reflexivity.
  - rewrite IH. symmetry. apply qsum_plus.
Qed.

Lemma qsum_map {A B : Type} (g : A -> B) (f : B -> Qc) (l : list A) :
  qsum f (map g l) = qsum (fun a => f (g a)) l.
Proof. induction l as [|a l IH]; cbn [map qsum]; [reflexivity |]. now rewrite IH. Qed.


Lemma normal_entry (x : list Z) (i j : nat) :
  fold_left (fun s xk => (s + pow $xk i * pow $xk j)%num) x zero
  = Fin (qsum (fun xk => (Qcpower (qz xk) i * Qcpower (qz xk) j)%Qc) x).
Proof.
  change zero with (Fin 0%Qc).
  rewrite (@fold_add_finite Z (fun xk => (pow $xk i * pow $xk j)%num)).
  - f_equal. rewrite Qcplus_0_l. apply qsum_ext. intros xk _.
    rewrite ofZ_qz, !pow_fin. reflexivity.
  - intros xk _. rewrite ofZ_qz, !pow_fin. reflexivity.
Qed.

Lemma fold_pairs_finite (l : list (Z * num)) (i : nat) (a : Qc) :
  Forall (fun p => isFin (snd p) = true) l ->
  fold_left (fun s '(xk, yk) => (s + pow $xk i * yk)%num) l (Fin a)
  = Fin (a + qsum (fun p => (Qcpower (qz (fst p)) i * toQ (snd p))%Qc) l).
Proof.
  revert a. induction l as [|[xk yk] l IH]; intros a H.
  - cbn [fold_left qsum]. f_equal. ring.
  - inversion H as [|p l' Hp Hl]; subst. cbn [snd] in Hp.
    destruct (isFin_Fin _ Hp) as [u ->].
    cbn [fold_left qsum fst snd toQ]. rewrite ofZ_qz, pow_fin.
    change (Fin a + Fin (Qcpower (qz xk) i) * Fin u)%num
      with (Fin (a + Qcpower (qz xk) i * u)).
    rewrite IH by exact Hl. f_equal. ring.
Qed.

Lemma combine_finite (x : list Z) (y : list num) :
  allFinite y -> Forall (fun p : Z * num => isFin (snd p) = true) (combine x y).
Proof.
  intros Hy. apply Forall_forall. intros [xk yk] Hin.
  apply in_combine_r in Hin. unfold allFinite in Hy. rewrite Forall_forall in Hy.
  now apply Hy.
Qed.

Lemma qsum_combine_zrange (F : Z -> num -> Qc) (y : list num) (lo : Z) :
  qsum (fun p => F (fst p) (snd p)) (combine (zrange lo (lo + len y)) y)
  = qsum (fun k => F k (get y (k - lo))) (zrange lo (lo + len y)).
Proof.
  revert lo. induction y as [|a y IH]; intros lo.
  - unfold len. cbn [length Z.of_nat]. rewrite zrange_empty by lia. reflexivity.
  - assert (Hlen : len (a :: y) = len y + 1) by (unfold len; cbn [length]; lia).
    rewrite Hlen. pose proof (len_nonneg y) as Hn.
    rewrite (@zrange_cons lo (lo + (len y + 1))) by lia.
    replace (lo + (len y + 1)) with (lo + 1 + len y) by lia.
    cbn [combine qsum fst snd]. rewrite IH.
    replace (lo - lo) with 0 by lia. rewrite get_zero. f_equal.
    apply qsum_ext. intros k Hk. apply zrange_bounds in Hk. f_equal.
    replace (k - lo) with ((k - (lo + 1)) + 1) by lia.
    now rewrite get_cons_succ by lia.
Qed.

Lemma rhs_entry (y : list num) (i : nat) :
  allFinite y ->
  fold_left (fun s '(xk, yk) => (s + pow $xk i * yk)%num)
            (combine (zrange 0 (len y)) y) zero
  = Fin (qsum (fun k => (Qcpower (qz k) i * toQ (get y k))%Qc) (zrange 0 (len y))).
Proof.
  intros Hy. change zero with (Fin 0%Qc).
  rewrite fold_pairs_finite by now apply combine_finite.
  f_equal. rewrite Qcplus_0_l.
  pose proof (@qsum_combine_zrange (fun k v => (Qcpower (qz k) i * toQ v)%Qc) y 0) as H.
  cbn beta in H. replace (0 + len y) with (len y) in H by lia.
  rewrite H. apply qsum_ext. intros k _. now replace (k - 0) with k by lia.
Qed.

Lemma evaluate_from (coeffs : list num) (x i0 : Z) (a : Qc) :
  allFinite coeffs -> 0 <= i0 ->
  foldi (fun s c i => (s + c * pow $x (Z.to_nat i))%num) coeffs i0 (Fin a)
  = Fin (a + qsum (fun j => (toQ (LinearSolver.getn coeffs j)
                             * Qcpower (qz x) (Z.to_nat i0 + j))%Qc)
                  (seq 0 (length coeffs))).
Proof.
  revert i0 a. induction coeffs as [|c cs IH]; intros i0 a Hc Hi.
  - cbn [foldi length seq qsum]. f_equal. ring.
  - inversion Hc as [|c' cs' Hc1 Hcs]; subst.
    destruct (isFin_Fin _ Hc1) as [u ->].
    cbn [foldi length]. rewrite ofZ_qz, pow_fin.
    change (Fin a + Fin u * Fin (Qcpower (qz x) (Z.to_nat i0)))%num
      with (Fin (a + u * Qcpower (qz x) (Z.to_nat i0))).
    rewrite IH by (assumption || lia).
    f_equal. cbn [seq qsum]. rewrite <- seq_shift, qsum_map.
    unfold LinearSolver.getn at 2. cbn [nth toQ]. rewrite Nat.add_0_r.
    rewrite <- Qcplus_assoc. f_equal. f_equal.
    apply qsum_ext. intros j _. unfold LinearSolver.getn. cbn [nth].
    replace (Z.to_nat (i0 + 1) + j)%nat with (Z.to_nat i0 + S j)%nat by lia.
    reflexivity.
Qed.

Lemma evaluatePolynomial_rational (coeffs : list num) (x : Z) :
  allFinite coeffs ->
  evaluatePolynomial coeffs x
  = Fin (qsum (fun j => (toQ (LinearSolver.getn coeffs j) * Qcpower (qz x) j)%Qc)
              (seq 0 (length coeffs))).
Proof.
  intros Hc. unfold evaluatePolynomial. change zero with (Fin 0%Qc).
  rewrite evaluate_from by (assumption || lia). f_equal. rewrite Qcplus_0_l.
  apply qsum_ext. intros j _. reflexivity.
Qed.

End NormalEquations.

Section NormalEquationsMain.
Import PolynomialRegression.

Lemma nth_map_seq {B : Type} (f : nat -> B) (m i : nat) (d : B) :
  (i < m)%nat -> nth i (map f (seq 0 m)) d = f i.
Proof.
  intros Hi. rewrite (nth_indep _ d (f 0%nat)) by (rewrite length_map, length_seq; lia).
  rewrite (map_nth f). now rewrite seq_nth by lia.
Qed.

Lemma normal_equations (data : list point) (degree : Z) (coeffs : list num) :
  allFinite (values data) -> 0 <= degree ->
  calculatePolynomialCoefficients data degree = Ok coeffs ->
  length coeffs = Z.to_nat (degree + 1)
  /\ allFinite coeffs
  /\ forall i, (i <= Z.to_nat degree)%nat ->
       qsum (fun k => (Qcpower (qz k) i
                       * (toQ (get (values data) k)
                          - toQ (evaluatePolynomial coeffs k)))%Qc)
            (indices data)
       = 0%Qc.
Proof.
  intros Hy Hd. unfold calculatePolynomialCoefficients, solveLinearSystem.
  destruct (len data <? degree + 1) eqn:E; [discriminate |].
  set (m := Z.to_nat (degree + 1)).
  set (x := indices data).
  set (AtA := map (fun i => map (fun j =>
                 fold_left (fun s xk => (s + pow $xk i * pow $xk j)%num) x zero)
                 (seq 0 m)) (seq 0 m)).
  set (Aty := map (fun i =>
                 fold_left (fun s '(xk, yk) => (s + pow $xk i * yk)%num)
                           (combine x (values data)) zero) (seq 0 m)).
  assert (HlA : length AtA = m) by (unfold AtA; now rewrite length_map, length_seq).
  assert (Hx : x = zrange 0 (len (values data)))
    by (unfold x, indices, values; now rewrite len_map).
  assert (Hrhs : forall i,
             fold_left (fun s '(xk, yk) => (s + pow $xk i * yk)%num)
                       (combine x (values data)) zero
             = Fin (qsum (fun k => (Qcpower (qz k) i * toQ (get (values data) k))%Qc) x)).
  { intros i. rewrite Hx. now apply rhs_entry. }
  assert (Hin : finiteInput AtA Aty).
  { split; [| split].
    - apply Forall_forall. intros r Hr. unfold AtA in Hr. apply in_map_iff in Hr.
      destruct Hr as [i [<- _]]. split.
      + now rewrite length_map, length_seq, HlA.
      + apply Forall_forall. intros e He. apply in_map_iff in He.
        destruct He as [j [<- _]]. now rewrite normal_entry.
    - unfold Aty. now rewrite length_map, length_seq, HlA.
    - apply Forall_forall. intros e He. unfold Aty in He. apply in_map_iff in He.
      destruct He as [i [<- _]]. now rewrite Hrhs. }
  intros H. destruct (solveLinearSystem_sound Hin H) as [Hl [Hf Hrows]].
  rewrite HlA in Hl, Hrows.
  split; [exact Hl | split; [exact Hf |]].
  intros i Hi. assert (Him : (i < m)%nat) by (unfold m; lia).
  specialize (Hrows i Him).
  assert (Hrow : LinearSolver.row AtA i
                 = map (fun j => Fin (qsum (fun xk => (Qcpower (qz xk) i
                                                      * Qcpower (qz xk) j)%Qc) x))
                       (seq 0 m)).
  { unfold LinearSolver.row, AtA. rewrite nth_map_seq by exact Him.
    apply map_ext. intros j. apply normal_entry. }
  assert (Hb : LinearSolver.getn Aty i
               = Fin (qsum (fun k => (Qcpower (qz k) i * toQ (get (values data) k))%Qc) x)).
  { unfold LinearSolver.getn, Aty. rewrite nth_map_seq by exact Him. apply Hrhs. }
  rewrite Hrow, Hb in Hrows. unfold rowTimes in Hrows.
  rewrite length_map, length_seq in Hrows.
  change zero with (Fin 0%Qc) in Hrows.
  rewrite dot_sum in Hrows.
  2:{ intros j Hj. apply in_seq in Hj. split.
      - unfold LinearSolver.getn. rewrite nth_map_seq by lia. reflexivity.
      - apply getn_finite; [exact Hf | lia]. }
  injection Hrows as Hrows. rewrite Qcplus_0_l in Hrows.
  rewrite (qsum_ext _ (fun j => (qsum (fun xk => (Qcpower (qz xk) i * Qcpower (qz xk) j)%Qc) x
                                 * toQ (LinearSolver.getn coeffs j))%Qc)) in Hrows.
  2:{ intros j Hj. apply in_seq in Hj. unfold LinearSolver.getn at 1.
      rewrite nth_map_seq by lia. reflexivity. }
  fold x.
  rewrite (qsum_ext _ (fun k => (Qcpower (qz k) i * toQ (get (values data) k)
                                 - 1 * qsum (fun j => (Qcpower (qz k) i
                                                       * Qcpower (qz k) j
                                                       * toQ (LinearSolver.getn coeffs j))%Qc)
                                            (seq 0 m))%Qc)).
  2:{ intros k _. rewrite evaluatePolynomial_rational by exact Hf. cbn [toQ].
      rewrite Hl.
      assert (Hs : qsum (fun j => (Qcpower (qz k) i * Qcpower (qz k) j
                                   * toQ (LinearSolver.getn coeffs j))%Qc) (seq 0 m)
                   = (Qcpower (qz k) i
                      * qsum (fun j => (toQ (LinearSolver.getn coeffs j)
                                        * Qcpower (qz k) j)%Qc) (seq 0 m))%Qc).
      { rewrite <- qsum_scale. apply qsum_ext. intros j _. ring. }
      rewrite Hs. ring. }
  rewrite qsum_linear, qsum_exchange, <- Hrows.
  rewrite (qsum_ext (fun b => qsum (fun a => (Qcpower (qz a) i * Qcpower (qz a) b
                                              * toQ (LinearSolver.getn coeffs b))%Qc) x)
                    (fun j => (qsum (fun xk => (Qcpower (qz xk) i * Qcpower (qz xk) j)%Qc) x
                               * toQ (LinearSolver.getn coeffs j))%Qc)).
  - ring.
  - intros j _. rewrite Qcmult_comm, <- qsum_scale. apply qsum_ext. intros k _. ring.
Qed.

End NormalEquationsMain.

(** ** The failures of the models *)

Section Failures.
Import PredictionService.

Lemma solveLinearSystem_error (A : LinearSolver.matrix) (b : list num) (e : error) :
  LinearSolver.solveLinearSystem A b = Err e -> e = SingularMatrix.
Proof.
  unfold LinearSolver.solveLinearSystem.
  destruct (LinearSolver.forward _ _ _ _) as [aug|e0] eqn:E; cbn [bind]; [discriminate |].
  intros H. injection H as <-. now apply forward_error_is_singular in E.
Qed.

Lemma calculatePolynomialCoefficients_error (data : list point) (degree : Z) (e : error) :
  PolynomialRegression.calculatePolynomialCoefficients data degree = Err e ->
  (len data < degree + 1 /\ e = PolynomialTooFew (degree + 1)) \/ e = SingularMatrix.
Proof.
  unfold PolynomialRegression.calculatePolynomialCoefficients.
  destruct (len data <? degree + 1) eqn:E.
  - apply Z.ltb_lt in E. intros H. injection H as <-. now left.
  - intros H. right. now apply solveLinearSystem_error in H.
Qed.

Lemma polynomialRegression2_error (data : list point) (periods : Z) (e : error) :
  PolynomialRegression.polynomialRegression2 data periods = Err e ->
  (len data < 3 /\ e = PolynomialTooFew 3) \/ e = SingularMatrix.
Proof.
  unfold PolynomialRegression.polynomialRegression2.
  destruct (PolynomialRegression.calculatePolynomialCoefficients data 2) as [c|e0] eqn:E;
    cbn [bind]; [discriminate |].
  intros H. injection H as <-. now apply calculatePolynomialCoefficients_error in E.
Qed.

Lemma polynomialRegression3_error (data : list point) (periods : Z) (e : error) :
  PolynomialRegression.polynomialRegression3 data periods = Err e ->
  (len data < 4 /\ e = PolynomialTooFew 4) \/ e = SingularMatrix.
Proof.
  unfold PolynomialRegression.polynomialRegression3.
  destruct (PolynomialRegression.calculatePolynomialCoefficients data 3) as [c|e0] eqn:E;
    cbn [bind]; [discriminate |].
  intros H. injection H as <-. now apply calculatePolynomialCoefficients_error in E.
Qed.

Lemma polynomialRegression_error (data : list point) (periods : Z) (degree : jsdegree)
  (e : error) :
  PolynomialRegression.polynomialRegression data periods degree = Err e ->
  (len data < 3 /\ e = PolynomialTooFew 3)
  \/ (len data = 3 /\ degree = DNum 3 /\ e = PolynomialTooFew 4)
  \/ (3 <= len data /\ degree <> DStr "auto" /\ degree <> DNum 2 /\ degree <> DNum 3
      /\ e = PolynomialBadDegree)
  \/ (3 <= len data /\ e = SingularMatrix).
Proof.
  unfold PolynomialRegression.polynomialRegression.
  destruct (len data <? 3) eqn:E3.
  { apply Z.ltb_lt in E3. intros H. injection H as <-. now left. }
  apply Z.ltb_ge in E3.
  assert (P2 : PolynomialRegression.polynomialRegression2 data periods = Err e ->
               3 <= len data /\ e = SingularMatrix).
  { intros H. apply polynomialRegression2_error in H. destruct H as [[H _] | H]; [lia |].
    now split. }
  assert (P3 : PolynomialRegression.polynomialRegression3 data periods = Err e ->
               len data <> 3 -> 3 <= len data /\ e = SingularMatrix).
  { intros H Hn. apply polynomialRegression3_error in H. destruct H as [[H _] | H]; [lia |].
    now split. }
  destruct degree as [z | s].
  - destruct (z =? 2) eqn:Ez2; [intros H; right; right; right; now apply P2 |].
    destruct (z =? 3) eqn:Ez3.
    + apply Z.eqb_eq in Ez3. subst z. intros H.
      destruct (Z.eq_dec (len data) 3) as [Hn | Hn].
      * apply polynomialRegression3_error in H. destruct H as [[_ H] | H].
        -- right. left. now repeat split.
        -- right. right. right. now split.
      * right. right. right. now apply P3.
    + intros H. injection H as <-. right. right. left.
      apply Z.eqb_neq in Ez2, Ez3.
      split; [exact E3 |]. repeat split; congruence.
  - destruct (String.eqb s "auto") eqn:Es.
    + unfold PolynomialRegression.polynomialRegressionAuto.
      destruct (len data <? 4) eqn:E4; [intros H; right; right; right; now apply P2 |].
      apply Z.ltb_ge in E4.
      destruct (fold_left _ _ _) as [bestDegree r2].
      destruct (bestDegree =? 2); intros H; right; right; right;
        [now apply P2 | apply P3; [exact H | lia]].
    + intros H. injection H as <-. right. right. left.
      apply String.eqb_neq in Es.
      split; [exact E3 |]. repeat split; congruence.
Qed.

Lemma autoregressive_error (data : list num) (order : Z) (e : error) :
  Arima.autoregressive data order = Err e ->
  (len data < order + 1 /\ e = ARTooFew order (order + 1)) \/ e = SingularMatrix.
Proof.
  unfold Arima.autoregressive.
  destruct (len data <? order + 1) eqn:E.
  - apply Z.ltb_lt in E. intros H. injection H as <-. now left.
  - intros H. right. now apply solveLinearSystem_error in H.
Qed.

Lemma arima_error (data : list point) (periods : Z) (pp pd pq : option Z) (e : error) :
  Arima.arima data periods (pp, pd, pq) = Err e ->
  let p := orZ pp 2 in let d := orZ pd 1 in let q := orZ pq 1 in
  (len data < 20 /\ e = ArimaNeeds20)
  \/ (20 <= len data < p + d + q + 5 /\ e = ArimaOrderTooFew p d q (p + d + q + 5))
  \/ (20 <= len data /\ p + d + q + 5 <= len data
      /\ len (Arima.difference (values data) d) < p + 1
      /\ e = ARTooFew p (p + 1))
  \/ (20 <= len data /\ p + d + q + 5 <= len data /\ e = SingularMatrix).
Proof.
  cbv zeta. unfold Arima.arima, Arima.ordersOf.
  destruct (len data <? 20) eqn:E20.
  { apply Z.ltb_lt in E20. intros H. injection H as <-. now left. }
  apply Z.ltb_ge in E20.
  assert (Hl : len (values data) = len data) by apply len_map. rewrite Hl.
  destruct (len data <? orZ pp 2 + orZ pd 1 + orZ pq 1 + 5) eqn:Eo.
  { apply Z.ltb_lt in Eo. intros H. injection H as <-. right. left. split; [lia | reflexivity]. }
  apply Z.ltb_ge in Eo.
  destruct (Arima.autoregressive _ _) as [phi|e0] eqn:Ea; cbn [bind]; [discriminate |].
  intros H. injection H as <-. apply autoregressive_error in Ea.
  destruct Ea as [[Hlt ->] | ->].
  - right. right. left. repeat split; assumption.
  - right. right. right. repeat split; assumption.
Qed.

End Failures.

Section Taxonomy.
Import PredictionService.

Lemma generatePrediction_failure (data : list point) (periods : Z) (model : string)
  (timeInterval : Z) (timeFormat : string) (mp : modelParams) (e : error) :
  generatePrediction data periods model timeInterval timeFormat mp = Err e ->
  (len data < 2 /\ e = HistoryTooShort)
  \/ (2 <= len data /\ periods <= 0 /\ e = InvalidPeriods)
  \/ (2 <= len data /\ 0 < periods
      /\ exists cause, e = ModelFailed model cause /\ modelFailure data mp model cause).
Proof.
  unfold generatePrediction, modelFailure.
  destruct (len data <? 2) eqn:E2.
  { apply Z.ltb_lt in E2. intros H. injection H as <-. now left. }
  apply Z.ltb_ge in E2.
  destruct (periods <=? 0) eqn:Ep.
  { apply Z.leb_le in Ep. intros H. injection H as <-. right. left. now repeat split. }
  apply Z.leb_gt in Ep.
  destruct (dispatch data periods model mp) as [raw|cause] eqn:Ed;
    cbn [rethrow bind]; [discriminate |].
  intros H. injection H as <-. right. right.
  split; [exact E2 | split; [exact Ep |]].
  exists cause. split; [reflexivity |].
  unfold dispatch in Ed.
  destruct (String.eqb model "linear") eqn:M1.
  { exfalso. destruct (linearRegression_returns data E2) as [c Hc].
    rewrite Hc in Ed. discriminate. }
  destruct (String.eqb model "exponential") eqn:M2.
  { apply String.eqb_eq in M2. left. split; [exact M2 |].
    destruct (Z_lt_ge_dec (len data) 3) as [H3 | H3].
    - left. split; [lia |].
      unfold ExponentialSmoothing.exponentialSmoothing in Ed.
      destruct (len data <? 3) eqn:E3; [congruence | apply Z.ltb_ge in E3; lia].
    - right.
      destruct (@exponentialSmoothing_failure data periods (orStr (mp_type mp) "auto")
                  (orZ (mp_seasonLength mp) 12) ltac:(lia)) as [[l Hl] | [Ht [Hs He]]].
      + rewrite Hl in Ed. discriminate.
      + rewrite He in Ed. injection Ed as <-. repeat split; (assumption || lia). }
  destruct (String.eqb model "movingAverage") eqn:M3.
  { exfalso.
    destruct (@movingAverage_returns data periods (orStr (mp_type mp) "auto")
                (mp_windowSize mp) (mp_alpha mp) E2) as [l Hl].
    rewrite Hl in Ed. discriminate. }
  destruct (String.eqb model "polynomial") eqn:M4.
  { apply String.eqb_eq in M4. right. left. split; [exact M4 |].
    apply polynomialRegression_error in Ed.
    destruct Ed as [[Hn ->] | [[Hn [_ ->]] | [[_ [_ [_ [_ ->]]]] | [_ ->]]]].
    - left. split; [lia | reflexivity].
    - right. left. now split.
    - right. right. now left.
    - right. right. now right. }
  destruct (String.eqb model "arima") eqn:M5.
  { apply String.eqb_eq in M5. right. right. left. split; [exact M5 |].
    destruct (arimaParams data mp) as [[pp pd] pq].
    apply arima_error in Ed. cbv zeta in Ed.
    destruct Ed as [[Hn ->] | [[Hn ->] | [[_ [_ [_ ->]]] | [_ [_ ->]]]]].
    - now left.
    - right. left. exists (orZ pp 2), (orZ pd 1), (orZ pq 1). split; [lia | reflexivity].
    - right. right. left. now exists (orZ pp 2).
    - right. right. now right. }
  injection Ed as <-. right. right. right.
  apply String.eqb_neq in M1, M2, M3, M4, M5. now repeat split.
Qed.

End Taxonomy.

(** ** The properties *)

(** X1. The linear fit never fails on a series of at least 2 points of
    rationals: over the indices 0 .. n-1 the denominator
    n * sum(x^2) - (sum x)^2 is positive, so the zero-denominator error of
    linearRegression is never raised, and the 'linear' branch of the
    orchestrator returns one value per period. *)
Theorem linear_fit_always_returns (data : list point) (periods : Z) (mp : modelParams) :
  2 <= len data ->
  (exists c, PredictionService.linearRegression data = Ok c)
  /\ exists l, PredictionService.dispatch data periods "linear" mp = Ok l
               /\ length l = Z.to_nat periods.
Proof.
  intros Hn. destruct (linearRegression_returns data Hn) as [c Hc].
  split; [now exists c |].
  unfold PredictionService.dispatch. cbn [String.eqb Ascii.eqb Bool.eqb].
  rewrite Hc. cbn [bind]. eexists. split; [reflexivity | apply forPeriods_length].
Qed.

Lemma linear_fit_always_returns_witness :
  (exists c, PredictionService.linearRegression ascending = Ok c)
  /\ exists l, PredictionService.dispatch ascending 2 "linear" noParams = Ok l
               /\ length l = 2%nat.
Proof.
  apply (@linear_fit_always_returns ascending 2 noParams). vm_compute. discriminate.
Defined.

(** X2. Holt-Winters smoothing never forecasts from its own recurrences:
    whenever the series has the two seasons it asks for, whatever the
    values and the three rates, it returns the fallback forecast, because
    its first trend reads the seasonal array one place past its end and
    is NaN; the dispatcher does the same for the type 'triple'. *)
Theorem holt_winters_always_falls_back (data : list point) (periods seasonLength : Z)
  (alpha beta gamma : option num) :
  seasonLength * 2 <= len data ->
  ExponentialSmoothing.tripleExponentialSmoothing data periods seasonLength alpha beta gamma
  = Ok (ExponentialSmoothing.fallbackForecast (values data) periods)
  /\ (3 <= len data ->
      ExponentialSmoothing.exponentialSmoothing data periods "triple" seasonLength
      = Ok (ExponentialSmoothing.fallbackForecast (values data) periods)).
Proof.
  intros Hs. split; [now apply triple_always_falls_back |].
  intros Hn. unfold ExponentialSmoothing.exponentialSmoothing.
  destruct (len data <? 3) eqn:E; [apply Z.ltb_lt in E; lia |].
  cbn [String.eqb Ascii.eqb Bool.eqb]. now apply triple_always_falls_back.
Qed.

Lemma holt_winters_always_falls_back_witness :
  ExponentialSmoothing.tripleExponentialSmoothing endsWithZero 3 2 None None None
  = Ok (ExponentialSmoothing.fallbackForecast (values endsWithZero) 3)
  /\ (3 <= len endsWithZero ->
      ExponentialSmoothing.exponentialSmoothing endsWithZero 3 "triple" 2
      = Ok (ExponentialSmoothing.fallbackForecast (values endsWithZero) 3)).
Proof.
  apply (@holt_winters_always_falls_back endsWithZero 3 2 None None None).
  vm_compute. discriminate.
Defined.

(** X3. The predicted points of a result carry the raw forecast of the
    model with every NaN replaced by 0: no predicted value is NaN, and
    each predicted point is flagged as a prediction. *)
Theorem predicted_values_are_numbers (data : list point) (periods : Z) (model : string)
  (timeInterval : Z) (timeFormat : string) (mp : modelParams)
  (r : PredictionService.predictionResult) :
  PredictionService.generatePrediction data periods model timeInterval timeFormat mp
  = Ok r ->
  exists raw,
    PredictionService.dispatch data periods model mp = Ok raw
    /\ map PredictionService.p_value (PredictionService.predictions r)
       = map (fun val => if isNaN val then zero else val) raw
    /\ Forall (fun p => isNaN (PredictionService.p_value p) = false
                        /\ PredictionService.p_isPrediction p = true)
              (PredictionService.predictions r).
Proof.
  intros H. destruct (generatePrediction_payload _ _ _ _ _ _ H) as [raw [Hd [_ Hv]]].
  exists raw. split; [exact Hd | split; [exact Hv |]].
  destruct (generatePrediction_fields _ _ _ _ _ _ H) as [_ [_ [_ [_ Hflag]]]].
  assert (Hnan : Forall (fun p => isNaN (PredictionService.p_value p) = false)
                        (PredictionService.predictions r)).
  { apply Forall_map with (f := PredictionService.p_value)
                          (P := fun v => isNaN v = false).
    rewrite Hv. apply Forall_map. apply Forall_forall. intros v _.
    destruct v; reflexivity. }
  rewrite Forall_forall in *. intros p Hp. split; [now apply Hnan | now apply Hflag].
Qed.

Lemma predicted_values_are_numbers_witness :
  exists r,
    PredictionService.generatePrediction ascending 2 "linear" 1 "year" noParams = Ok r
    /\ Forall (fun p => isNaN (PredictionService.p_value p) = false
                        /\ PredictionService.p_isPrediction p = true)
              (PredictionService.predictions r).
Proof.
  destruct (PredictionService.generatePrediction ascending 2 "linear" 1 "year" noParams)
    as [r|e] eqn:E; [|vm_compute in E; discriminate].
  exists r. split; [reflexivity |].
  destruct (@predicted_values_are_numbers ascending 2 "linear" 1 "year" noParams r E)
    as [raw [_ [_ H]]].
  exact H.
Defined.

(** X4. The interval detectTimeInterval reports.  With no positive step
    between neighbouring points it is 1.  Otherwise it is one of the
    positive steps of the series, no step occurs more often than it does,
    and among the steps that occur as often it is the smallest (for steps
    below 2^32 - 1, which the object of counts enumerates in ascending
    order): the first maximum of the scan is kept. *)
Theorem detected_interval_is_first_mode (ts : list point) :
  let ivs := PredictionService.intervalsOf
               (PredictionService.isYearMonth (time (hd (mkPoint 0 NaN) ts))) ts in
  let m := PredictionService.detectTimeInterval ts in
  (ivs = [] -> m = 1)
  /\ (ivs <> [] ->
      In m ivs
      /\ (forall k, occurrences k ivs <= occurrences m ivs)
      /\ (forall k, occurrences k ivs = occurrences m ivs ->
                    In k ivs -> k < 4294967295 -> m <= k)).
Proof. apply detectTimeInterval_mode. Qed.

Lemma detected_interval_is_first_mode_witness :
  PredictionService.detectTimeInterval gapped = 1
  /\ In (PredictionService.detectTimeInterval gapped) [1; 2; 1; 2]
  /\ (forall k, occurrences k [1; 2; 1; 2]
                <= occurrences (PredictionService.detectTimeInterval gapped) [1; 2; 1; 2])
  /\ (forall k, occurrences k [1; 2; 1; 2]
                = occurrences (PredictionService.detectTimeInterval gapped) [1; 2; 1; 2] ->
                In k [1; 2; 1; 2] -> k < 4294967295 ->
                PredictionService.detectTimeInterval gapped <= k).
Proof.
  split; [reflexivity |].
  apply (proj2 (detected_interval_is_first_mode gapped)). discriminate.
Defined.

(** X5. What a successful answer of the controller holds.  The request
    named a positive number of periods; the series read from the data
    file has at least 2 points, meets the minimum of the model, which is a
    number, and is in ascending time order; the result names the model,
    the interval and the format detected from the series and echoes the
    series as its history; it holds one predicted point per period, none
    with a NaN value, at times that follow the last historical time and
    each other by the detected interval. *)
Theorem controller_success_contract
  (loadDataFile : string -> result (list LocalDataService.entry))
  (req : PredictionController.request) (r : PredictionService.predictionResult) :
  let model := match PredictionController.model req with
               | Some m => m | None => "linear"%string end in
  PredictionController.predict loadDataFile req = PredictionController.Success r ->
  exists (data : list point) (periods : Z),
    LocalDataService.getTimeSeriesData loadDataFile
      (orStr (PredictionController.filename req) "")
      (LocalDataService.mkOptions (PredictionController.area req)
         (PredictionController.indicator req)
         (PredictionController.startTime req) (PredictionController.endTime req))
    = Ok data
    /\ PredictionController.period req = Some periods
    /\ 0 < periods
    /\ 2 <= len data
    /\ (exists need, PredictionService.requirementOf model = Some need
                     /\ need <= len data)
    /\ StronglySorted (keyLe time) data
    /\ PredictionService.r_model r = model
    /\ PredictionService.r_timeInterval r = PredictionService.detectTimeInterval data
    /\ PredictionService.r_timeFormat r = PredictionController.timeFormatOf data
    /\ PredictionService.historicalData r
       = map (fun item => PredictionService.mkPrediction (Some (time item)) (value item)
                            false) data
    /\ length (PredictionService.predictions r) = Z.to_nat periods
    /\ Forall (fun p => isNaN (PredictionService.p_value p) = false)
              (PredictionService.predictions r)
    /\ exists times : list Z,
         map PredictionService.p_time (PredictionService.predictions r) = map Some times
         /\ (forall t, nth_error times 0 = Some t ->
               time (PredictionService.lastPoint data) < t)
         /\ forall i t1 t2,
              nth_error times i = Some t1 -> nth_error times (S i) = Some t2 ->
              t1 < t2
              /\ timeGap (PredictionController.timeFormatOf data) t1 t2
                 = PredictionService.detectTimeInterval data.
Proof.
  intros model. unfold PredictionController.predict. fold model. intros H.
  repeat match type of H with
         | (if ?c then PredictionController.BadRequest _ else _) = _ =>
             destruct c eqn:?; [discriminate |]
         end.
  destruct (LocalDataService.getTimeSeriesData _ _ _) as [data|e] eqn:Ed; [|discriminate].
  destruct (len data <? 2) eqn:E2; [discriminate |]. apply Z.ltb_ge in E2.
  destruct (negb (PredictionService.validateModelDataRequirements model (len data)))
    eqn:Ev; [discriminate |].
  destruct (PredictionService.generatePrediction _ _ _ _ _ _) as [r'|e] eqn:Eg;
    [|discriminate].
  injection H as <-.
  destruct (PredictionController.period req) as [periods|] eqn:Ep; [|discriminate].
  assert (Hp : 0 < periods).
  { match goal with
    | Hc : (negb (truthyZ (Some periods)) || _) = false |- _ =>
        apply orb_false_iff in Hc; destruct Hc as [Hc1 Hc2]
    end.
    unfold truthyZ in Hc1. unfold orZ in Hc2.
    destruct (periods =? 0) eqn:E0; [discriminate |].
    apply Z.leb_gt in Hc2. lia. }
  assert (Hor : orZ (Some periods) 0 = periods).
  { unfold orZ. destruct (periods =? 0) eqn:E0; [apply Z.eqb_eq in E0; lia | reflexivity]. }
  rewrite Hor in Eg.
  pose proof (getTimeSeriesData_sorted _ _ _ Ed) as Hsorted.
  assert (Hlast : PredictionController.timeFormatOf data = "yearmonth"%string ->
                  0 <= time (PredictionService.lastPoint data)).
  { unfold PredictionController.timeFormatOf.
    destruct (PredictionService.isYearMonth _) eqn:Ey; [|discriminate]. intros _.
    apply isYearMonth_range in Ey.
    pose proof (@sorted_first_le_last data (mkPoint 0 NaN) (mkPoint 0 NaN) Hsorted) as Hfl.
    assert (Hne : data <> []) by (intros ->; unfold len in E2; simpl in E2; lia).
    specialize (Hfl Hne). unfold PredictionService.lastPoint. lia. }
  destruct (@projected_times_spaced data periods _ _ _ (PredictionController.params req)
              r' Hp (detectTimeInterval_positive data) Hlast Eg)
    as [Hlen [times [Ht [_ [Hfirst Hsp]]]]].
  destruct (generatePrediction_fields _ _ _ _ _ _ Eg) as [F1 [F2 [F3 [F4 _]]]].
  exists data, periods.
  split; [reflexivity |]. split; [reflexivity |]. split; [exact Hp |].
  split; [exact E2 |]. split.
  { apply negb_false_iff in Ev. unfold PredictionService.validateModelDataRequirements in Ev.
    destruct (PredictionService.requirementOf model) as [need|]; [| discriminate].
    exists need. split; [reflexivity |].
    rewrite Z.geb_leb in Ev. now apply Z.leb_le in Ev. }
  split; [exact Hsorted |]. split; [exact F1 |]. split; [exact F2 |].
  split; [exact F3 |]. split; [exact F4 |]. split; [exact Hlen |]. split.
  { destruct (generatePrediction_payload _ _ _ _ _ _ Eg) as [raw [_ [_ Hv]]].
    apply Forall_map with (f := PredictionService.p_value)
                          (P := fun v => isNaN v = false).
    rewrite Hv. apply Forall_map. apply Forall_forall. intros v _.
    destruct v; reflexivity. }
  exists times. split; [exact Ht | split; [| exact Hsp]].
  intros t Ht0. now apply Hfirst.
Qed.

Lemma controller_success_contract_witness :
  exists r,
    PredictionController.predict (fun _ => Ok entriesA) (sampleRequest (Some 2))
    = PredictionController.Success r
    /\ PredictionService.r_timeInterval r = 1
    /\ length (PredictionService.predictions r) = 2%nat.
Proof.
  destruct (PredictionController.predict (fun _ => Ok entriesA) (sampleRequest (Some 2)))
    as [m|r|e] eqn:E; [vm_compute in E; discriminate | | vm_compute in E; discriminate].
  exists r. split; [reflexivity |].
  destruct (@controller_success_contract (fun _ => Ok entriesA) (sampleRequest (Some 2)) r E)
    as [data [periods [Hd [Hp [_ [_ [_ [_ [_ [Hi [_ [_ [Hl _]]]]]]]]]]]]].
  vm_compute in Hd. injection Hd as <-. vm_compute in Hp. injection Hp as <-.
  split; [rewrite Hi; reflexivity | exact Hl].
Defined.

(** X6. Where a 500 answer of the controller comes from: either the data
    file could not be read, and the answer carries that failure, or the
    series was read and passed every check of the controller and the
    model itself failed, and the answer carries the failure of the model
    wrapped with its name.  No other path answers 500. *)
Theorem controller_server_error_origin
  (loadDataFile : string -> result (list LocalDataService.entry))
  (req : PredictionController.request) (e : error) :
  let model := match PredictionController.model req with
               | Some m => m | None => "linear"%string end in
  PredictionController.predict loadDataFile req = PredictionController.ServerError e ->
  loadDataFile (orStr (PredictionController.filename req) "") = Err e
  \/ exists data cause,
       LocalDataService.getTimeSeriesData loadDataFile
         (orStr (PredictionController.filename req) "")
         (LocalDataService.mkOptions (PredictionController.area req)
            (PredictionController.indicator req)
            (PredictionController.startTime req) (PredictionController.endTime req))
       = Ok data
       /\ PredictionService.dispatch data (orZ (PredictionController.period req) 0) model
            (PredictionController.params req) = Err cause
       /\ e = ModelFailed model cause.
Proof. intros model. apply predict_server_error. Qed.

Lemma controller_server_error_origin_witness :
  (fun _ : string => @Err (list LocalDataService.entry) DataFileUnreadable)
    (orStr (PredictionController.filename (sampleRequest (Some 2))) "")
  = Err DataFileUnreadable
  \/ exists data cause,
       LocalDataService.getTimeSeriesData (fun _ => Err DataFileUnreadable)
         (orStr (PredictionController.filename (sampleRequest (Some 2))) "")
         sampleOptions = Ok data
       /\ PredictionService.dispatch data 2 "linear" noParams = Err cause
       /\ DataFileUnreadable = ModelFailed "linear" cause.
Proof.
  apply (@controller_server_error_origin (fun _ => Err DataFileUnreadable)
           (sampleRequest (Some 2)) DataFileUnreadable).
  reflexivity.
Defined.

(** X7. The two smoothing families cannot fail once the size check of
    the service has passed: for the model 'movingAverage', and for the
    model 'exponential' unless the type 'triple' is asked for with fewer
    than two seasons of data, the dispatcher returns one value per
    period, for every series, every period count and every parameter. *)
Theorem smoothing_models_always_forecast (data : list point) (periods : Z)
  (model : string) (mp : modelParams) :
  PredictionService.validateModelDataRequirements model (len data) = true ->
  model = "movingAverage"%string
  \/ (model = "exponential"%string
      /\ (orStr (mp_type mp) "auto" <> "triple"%string
          \/ orZ (mp_seasonLength mp) 12 * 2 <= len data)) ->
  exists l, PredictionService.dispatch data periods model mp = Ok l
            /\ length l = Z.to_nat periods.
Proof.
  intros Hv Hm.
  assert (G : exists l, PredictionService.dispatch data periods model mp = Ok l).
  { destruct Hm as [-> | [-> Ht]];
      unfold PredictionService.validateModelDataRequirements in Hv;
      cbv [PredictionService.requirementOf String.eqb Ascii.eqb Bool.eqb] in Hv;
      rewrite Z.geb_leb in Hv; apply Z.leb_le in Hv.
    - unfold PredictionService.dispatch. cbn [String.eqb Ascii.eqb Bool.eqb].
      apply movingAverage_returns. exact Hv.
    - unfold PredictionService.dispatch. cbn [String.eqb Ascii.eqb Bool.eqb].
      destruct (@exponentialSmoothing_failure data periods (orStr (mp_type mp) "auto")
                  (orZ (mp_seasonLength mp) 12) Hv) as [Hok | [Et [Hs _]]];
        [exact Hok |].
      destruct Ht as [Ht | Ht]; [congruence | lia]. }
  destruct G as [l Hl]. exists l. split; [exact Hl |].
  now apply dispatch_length in Hl.
Qed.

Lemma smoothing_models_always_forecast_witness :
  exists l, PredictionService.dispatch ascending 4 "exponential" noParams = Ok l
            /\ length l = 4%nat.
Proof.
  apply (@smoothing_models_always_forecast ascending 4 "exponential" noParams).
  - reflexivity.
  - right. split; [reflexivity |]. left. discriminate.
Defined.

(** X8. The size check of the service does not cover the guards of the
    models.  A series of 3 points passes validateModelDataRequirements for
    'polynomial', yet a cubic fit of it fails for want of 4 points; a
    series of 3 points or more passes it for 'exponential', yet the type
    'triple' fails when the series is shorter than two seasons.  In both
    cases generatePrediction returns the failure of the model, wrapped. *)
Theorem model_guards_beyond_validation (data : list point) (periods timeInterval : Z)
  (timeFormat : string) (mp : modelParams) :
  0 < periods ->
  (len data = 3 -> mp_degree mp = Some (DNum 3) ->
   PredictionService.validateModelDataRequirements "polynomial" (len data) = true
   /\ PredictionService.generatePrediction data periods "polynomial" timeInterval
        timeFormat mp
      = Err (ModelFailed "polynomial" (PolynomialTooFew 4)))
  /\ (3 <= len data < orZ (mp_seasonLength mp) 12 * 2 ->
      mp_type mp = Some "triple"%string ->
      PredictionService.validateModelDataRequirements "exponential" (len data) = true
      /\ PredictionService.generatePrediction data periods "exponential" timeInterval
           timeFormat mp
         = Err (ModelFailed "exponential"
                  (TripleTooFew (orZ (mp_seasonLength mp) 12 * 2)))).
Proof.
  intros Hp. split.
  - intros Hn Hd. split; [rewrite Hn; reflexivity |].
    unfold PredictionService.generatePrediction. rewrite Hn.
    change (3 <? 2) with false. cbv iota.
    destruct (periods <=? 0) eqn:E; [apply Z.leb_le in E; lia |].
    unfold PredictionService.dispatch. cbn [String.eqb Ascii.eqb Bool.eqb].
    rewrite Hd. change (3 =? 0) with false. cbv iota.
    unfold PolynomialRegression.polynomialRegression. rewrite Hn.
    change (3 <? 3) with false. change (3 =? 2) with false. change (3 =? 3) with true.
    cbv iota. unfold PolynomialRegression.polynomialRegression3,
      PolynomialRegression.calculatePolynomialCoefficients. rewrite Hn.
    reflexivity.
  - intros Hn Ht. split.
    + unfold PredictionService.validateModelDataRequirements.
      change (PredictionService.requirementOf "exponential") with (Some 3).
      cbv iota. rewrite Z.geb_leb. apply Z.leb_le. lia.
    + unfold PredictionService.generatePrediction.
      destruct (len data <? 2) eqn:E2; [apply Z.ltb_lt in E2; lia |].
      destruct (periods <=? 0) eqn:E; [apply Z.leb_le in E; lia |].
      unfold PredictionService.dispatch. cbn [String.eqb Ascii.eqb Bool.eqb].
      rewrite Ht. cbn [orStr].
      destruct (@exponentialSmoothing_failure data periods "triple"
                  (orZ (mp_seasonLength mp) 12) ltac:(lia)) as [[l Hok] | [_ [_ He]]].
      * exfalso. unfold ExponentialSmoothing.exponentialSmoothing in Hok.
        destruct (len data <? 3) eqn:E3; [discriminate |].
        cbn [String.eqb Ascii.eqb Bool.eqb] in Hok.
        unfold ExponentialSmoothing.tripleExponentialSmoothing in Hok.
        destruct (len data <? orZ (mp_seasonLength mp) 12 * 2) eqn:E4; [discriminate |].
        apply Z.ltb_ge in E4. lia.
      * rewrite He. reflexivity.
Qed.

Lemma model_guards_beyond_validation_witness :
  PredictionService.validateModelDataRequirements "polynomial" (len ascending) = true
  /\ PredictionService.generatePrediction ascending 2 "polynomial" 1 "year" cubicParams
     = Err (ModelFailed "polynomial" (PolynomialTooFew 4)).
Proof.
  apply (proj1 (@model_guards_beyond_validation ascending 2 1 "year" cubicParams
                  ltac:(lia))); reflexivity.
Defined.

(** X9. The ARIMA model cannot forecast a constant series.  On 20 or
    more equal rationals, for orders that pass its two size guards and
    leave p + 1 differenced values, the differenced series is all zeros,
    every autocorrelation is 0, the Yule-Walker matrix is the zero matrix
    and the model fails with the singular-matrix error; with automatic
    orders generatePrediction returns that failure for every such series
    and every positive number of periods. *)
Theorem arima_constant_series_is_singular (data : list point) (v : Qc) (periods : Z) :
  Forall (fun pt => value pt = Fin v) data ->
  20 <= len data ->
  (forall pp pd pq,
     1 <= orZ pp 2 -> 1 <= orZ pd 1 ->
     orZ pp 2 + orZ pd 1 + orZ pq 1 + 5 <= len data ->
     orZ pp 2 + 1 <= len data - orZ pd 1 * (orZ pd 1 + 1) / 2 ->
     Arima.arima data periods (pp, pd, pq) = Err SingularMatrix)
  /\ (forall timeInterval timeFormat mp,
        0 < periods ->
        truthyZ (mp_p mp) || truthyZ (mp_d mp) || truthyZ (mp_q mp) = false ->
        PredictionService.generatePrediction data periods "arima" timeInterval
          timeFormat mp
        = Err (ModelFailed "arima" SingularMatrix)).
Proof.
  intros Hc Hn.
  assert (G : forall pp pd pq,
             1 <= orZ pp 2 -> 1 <= orZ pd 1 ->
             orZ pp 2 + orZ pd 1 + orZ pq 1 + 5 <= len data ->
             orZ pp 2 + 1 <= len data - orZ pd 1 * (orZ pd 1 + 1) / 2 ->
             Arima.arima data periods (pp, pd, pq) = Err SingularMatrix).
  { intros pp pd pq. apply (@arima_constant data v periods pp pd pq Hc Hn). }
  split; [exact G |].
  intros ti tf mp Hp Hf. unfold PredictionService.generatePrediction.
  destruct (len data <? 2) eqn:E2; [apply Z.ltb_lt in E2; lia |].
  destruct (periods <=? 0) eqn:E; [apply Z.leb_le in E; lia |].
  unfold PredictionService.dispatch. cbn [String.eqb Ascii.eqb Bool.eqb].
  unfold PredictionService.arimaParams. rewrite Hf.
  destruct (autoArima_orders data Hn) as [d [Hd ->]].
  rewrite G; [reflexivity | | | |];
    destruct Hd as [-> | ->]; cbn [orZ Z.eqb]; change (1 * (1 + 1) / 2) with 1; lia.
Qed.

Lemma arima_constant_series_is_singular_witness :
  PredictionService.generatePrediction flatTwenty 3 "arima" 1 "year" noParams
  = Err (ModelFailed "arima" SingularMatrix).
Proof.
  apply (proj2 (@arima_constant_series_is_singular flatTwenty (qz 7) 3
                  ltac:(vm_compute; repeat constructor)
                  ltac:(vm_compute; discriminate))).
  - lia.
  - reflexivity.
Defined.

(** X10. Differencing of order d >= 1 does not difference d times at
    lag 1: it takes the differences at lag d, then those at lag d - 1 of
    the result, and so on down to lag 1, and so shortens the series by
    d + (d - 1) + ... + 1 = d (d + 1) / 2 values (to nothing when the
    series is shorter than that). *)
Theorem difference_shortens_by_triangular_number (data : list num) (d : Z) :
  1 <= d ->
  len (Arima.difference data d) = Z.max 0 (len data - d * (d + 1) / 2).
Proof. apply difference_length. Qed.

Lemma difference_shortens_by_triangular_number_witness :
  len (Arima.difference (map ofZ [3; 8; 6; 11; 4]) 2) = 2.
Proof.
  apply (@difference_shortens_by_triangular_number (map ofZ [3; 8; 6; 11; 4]) 2). lia.
Defined.

(** X11. The shape of an ARIMA forecast with first-order differencing.
    When the model returns, the forecast is the running sum of the
    forecast differences, the autoregressive forecast of the series
    differenced once, started from the FIRST value of the series (the
    seed passed to inverseDifference is [values.slice(0, d)]), not from
    the last one. *)
Theorem arima_forecast_restarts_from_first_value (data : list point) (periods : Z)
  (pp pd pq : option Z) (l : list num) :
  orZ pd 1 = 1 ->
  Arima.arima data periods (pp, pd, pq) = Ok l ->
  exists phi,
    Arima.autoregressive (Arima.diffOnce (values data) 1) (orZ pp 2) = Ok phi
    /\ l = runningSums (value (hd (mkPoint 0 NaN) data))
             (Arima.arForecast (Arima.diffOnce (values data) 1) phi periods).
Proof. apply arima_first_order_shape. Qed.

Lemma arima_forecast_restarts_from_first_value_witness :
  exists l phi,
    Arima.arima squaresTwenty 3 (None, None, None) = Ok l
    /\ Arima.autoregressive (Arima.diffOnce (values squaresTwenty) 1) 2 = Ok phi
    /\ l = runningSums (ofZ 0)
             (Arima.arForecast (Arima.diffOnce (values squaresTwenty) 1) phi 3).
Proof.
  destruct (Arima.arima squaresTwenty 3 (None, None, None)) as [l|e] eqn:E;
    [|vm_compute in E; discriminate].
  destruct (@arima_forecast_restarts_from_first_value squaresTwenty 3 None None None l
              eq_refl E) as [phi [H1 H2]].
  exists l, phi. split; [reflexivity | split; [exact H1 | exact H2]].
Defined.

(** X12. The automatic orders of the ARIMA model are the same for every
    series: with no order given and 20 points or more, whatever autoArima
    finds about the trend (d = 0 or d = 1), the orders in force are
    p = 2, d = 1, q = 1, since a d of 0 is read as unset; the dispatcher
    runs the model exactly as with these three orders given. *)
Theorem automatic_orders_are_fixed (data : list point) (periods : Z) (mp : modelParams) :
  truthyZ (mp_p mp) || truthyZ (mp_d mp) || truthyZ (mp_q mp) = false ->
  20 <= len data ->
  ordersInForce data mp = (2, 1, 1)
  /\ PredictionService.dispatch data periods "arima" mp
     = Arima.arima data periods (Some 2, Some 1, Some 1).
Proof. apply auto_orders_fixed. Qed.

Lemma automatic_orders_are_fixed_witness :
  ordersInForce squaresTwenty noParams = (2, 1, 1)
  /\ PredictionService.dispatch squaresTwenty 3 "arima" noParams
     = Arima.arima squaresTwenty 3 (Some 2, Some 1, Some 1).
Proof.
  apply (@automatic_orders_are_fixed squaresTwenty 3 noParams).
  - reflexivity.
  - vm_compute. discriminate.
Defined.

(** X13. In exact arithmetic, single and double exponential smoothing of
    a constant series of at least 3 copies of a rational v forecast v for
    every period, whatever the rates given (NaN included), and so does
    the dispatcher for every type, 'triple' included when two seasons of
    data are there. *)
Theorem exponential_smoothing_constant_series (data : list point) (v : Qc)
  (periods : Z) (alpha beta : option num) (type : string) (seasonLength : Z) :
  Forall (fun p => value p = Fin v) data ->
  3 <= len data ->
  let flat := Ok (repeat (Fin v) (Z.to_nat periods)) in
  ExponentialSmoothing.singleExponentialSmoothing data periods alpha = flat
  /\ ExponentialSmoothing.doubleExponentialSmoothing data periods alpha beta = flat
  /\ (type <> "triple"%string \/ seasonLength * 2 <= len data ->
      ExponentialSmoothing.exponentialSmoothing data periods type seasonLength = flat).
Proof.
  intros Hc Hn flat. split; [| split].
  - now apply single_constant.
  - now apply double_constant.
  - intros Ht. now apply exponentialSmoothing_constant.
Qed.

Lemma exponential_smoothing_constant_series_witness :
  ExponentialSmoothing.singleExponentialSmoothing fiveSix 4 None = Ok (repeat (ofZ 5) 4)
  /\ ExponentialSmoothing.doubleExponentialSmoothing fiveSix 4 None None
     = Ok (repeat (ofZ 5) 4)
  /\ ExponentialSmoothing.exponentialSmoothing fiveSix 4 "auto" 12 = Ok (repeat (ofZ 5) 4).
Proof.
  destruct (@exponential_smoothing_constant_series fiveSix (qz 5) 4 None None "auto" 12
              ltac:(repeat constructor) ltac:(vm_compute; discriminate))
    as [H1 [H2 H3]].
  split; [exact H1 | split; [exact H2 |]].
  apply H3. left. discriminate.
Defined.

(** X14. What the points of a series read for a forecast are.  Each
    point comes from an entry of the data file: its time is the [repp] of
    the entry and its value the [data2] of the entry, with 0 in place of a
    value that is NaN; the entry has the area and the indicator asked
    for, and its time lies within the start and end times asked for.  So
    no value handed to a model is NaN. *)
Theorem series_points_come_from_selection
  (loadDataFile : string -> result (list LocalDataService.entry))
  (filename : string) (o : LocalDataService.options)
  (es : list LocalDataService.entry) :
  loadDataFile filename = Ok es ->
  exists data,
    LocalDataService.getTimeSeriesData loadDataFile filename o = Ok data
    /\ Forall (fun p =>
                 isNaN (value p) = false
                 /\ exists item,
                      In item es
                      /\ time p = LocalDataService.repp item
                      /\ value p = or_else (LocalDataService.data2 item) zero
                      /\ (LocalDataService.truthyStr (LocalDataService.o_area o) = true ->
                          LocalDataService.o_area o = Some (LocalDataService.area item))
                      /\ (LocalDataService.truthyStr (LocalDataService.o_indicator o) = true ->
                          LocalDataService.o_indicator o
                          = Some (LocalDataService.data_name item))
                      /\ (truthyZ (LocalDataService.o_startTime o) = true ->
                          orZ (LocalDataService.o_startTime o) 0 <= time p)
                      /\ (truthyZ (LocalDataService.o_endTime o) = true ->
                          time p <= orZ (LocalDataService.o_endTime o) 0))
              data.
Proof. apply getTimeSeriesData_points. Qed.

Lemma series_points_come_from_selection_witness :
  exists data,
    LocalDataService.getTimeSeriesData (fun _ => Ok entriesA) "gdp.json" sampleOptions
    = Ok data
    /\ Forall (fun p => isNaN (value p) = false /\ 2018 <= time p <= 2023) data.
Proof.
  destruct (@series_points_come_from_selection (fun _ => Ok entriesA) "gdp.json"
              sampleOptions entriesA eq_refl) as [data [Hd Hall]].
  exists data. split; [exact Hd |].
  revert Hall. apply Forall_impl.
  intros p [Hnan [item [_ [_ [_ [_ [_ [Hs He]]]]]]]].
  split; [exact Hnan |].
  split; [apply Hs | apply He]; reflexivity.
Defined.

(** X15. In exact arithmetic the Gaussian-elimination solver is sound: on
    a square system of rationals, a solution it returns has one rational
    per row and satisfies every equation of the system, the sum over j of
    A[k][j] * x[j] being b[k] for every row k. *)
Theorem solver_solution_solves_system (A : LinearSolver.matrix) (b x : list num) :
  finiteInput A b ->
  LinearSolver.solveLinearSystem A b = Ok x ->
  length x = length A
  /\ allFinite x
  /\ forall k, (k < length A)%nat -> rowTimes (LinearSolver.row A k) x = LinearSolver.getn b k.
Proof. apply solveLinearSystem_sound. Qed.

Lemma solver_solution_solves_system_witness :
  exists x,
    LinearSolver.solveLinearSystem regularA rhs = Ok x
    /\ rowTimes (LinearSolver.row regularA 0) x = ofZ 5
    /\ rowTimes (LinearSolver.row regularA 1) x = ofZ 6.
Proof.
  destruct (LinearSolver.solveLinearSystem regularA rhs) as [x|e] eqn:E;
    [|vm_compute in E; discriminate].
  exists x. split; [reflexivity |].
  destruct (@solver_solution_solves_system regularA rhs x
              ltac:(repeat constructor) E) as [_ [_ H]].
  split; [apply (H 0%nat) | apply (H 1%nat)]; simpl; lia.
Defined.

(** X16. The rates the parameter searches return are usable rates: for
    every series, NaN and infinite values included, optimizeAlpha returns
    a value of its grid or the default 0.3, optimizeBeta a value of its
    grid or the default 0.1, and each is a number strictly between 0
    and 1. *)
Theorem optimized_rates_in_range (vals : list num) (alpha : num) :
  (In (ExponentialSmoothing.optimizeAlpha vals)
      (c0_3 :: ExponentialSmoothing.alphaGrid)
   /\ exists q : Qc, ExponentialSmoothing.optimizeAlpha vals = Fin q
                     /\ (0 < q)%Qc /\ (q < 1)%Qc)
  /\ (In (ExponentialSmoothing.optimizeBeta vals alpha)
         (c0_1 :: ExponentialSmoothing.betaGrid)
      /\ exists q : Qc, ExponentialSmoothing.optimizeBeta vals alpha = Fin q
                        /\ (0 < q)%Qc /\ (q < 1)%Qc).
Proof. split; [apply optimizeAlpha_range | apply optimizeBeta_range]. Qed.

(** X17. The statistics of a result.  Whenever generatePrediction
    returns, the model returned at least one value; the last value is
    the value of the last historical point, the average is the sum of the
    historical values over their number, the predicted value is the last
    RAW value of the model (a NaN is not replaced by 0 there, unlike in
    the predicted points), and the growth rate is absent exactly when the
    last historical value is 0 and is
    (predicted - last) / last * 100 otherwise. *)
Theorem result_statistics (data : list point) (periods : Z) (model : string)
  (timeInterval : Z) (timeFormat : string) (mp : modelParams)
  (r : PredictionService.predictionResult) :
  PredictionService.generatePrediction data periods model timeInterval timeFormat mp
  = Ok r ->
  exists raw,
    PredictionService.dispatch data periods model mp = Ok raw
    /\ 0 < len raw
    /\ PredictionService.lastValue (PredictionService.stats r)
       = value (PredictionService.lastPoint data)
    /\ PredictionService.avgValue (PredictionService.stats r)
       = (sum (values data) / $(len data))%num
    /\ PredictionService.predictedValue (PredictionService.stats r)
       = Some (get raw (len raw - 1))
    /\ PredictionService.growthRate (PredictionService.stats r)
       = if eqb (value (PredictionService.lastPoint data)) zero then None
         else Some (((get raw (len raw - 1) - value (PredictionService.lastPoint data))
                     / value (PredictionService.lastPoint data)) * c100)%num.
Proof. apply generatePrediction_statistics. Qed.

Lemma result_statistics_witness :
  exists r raw,
    PredictionService.generatePrediction ascending 2 "linear" 1 "year" noParams = Ok r
    /\ PredictionService.dispatch ascending 2 "linear" noParams = Ok raw
    /\ PredictionService.lastValue (PredictionService.stats r) = ofZ 3
    /\ PredictionService.predictedValue (PredictionService.stats r)
       = Some (get raw (len raw - 1)).
Proof.
  destruct (PredictionService.generatePrediction ascending 2 "linear" 1 "year" noParams)
    as [r|e] eqn:E; [|vm_compute in E; discriminate].
  destruct (@result_statistics ascending 2 "linear" 1 "year" noParams r E)
    as [raw [H1 [_ [H2 [_ [H3 _]]]]]].
  exists r, raw. split; [reflexivity | split; [exact H1 | split; [exact H2 | exact H3]]].
Defined.

(** X18. In the 'yearmonth' format every predicted time is a calendar
    month: when the last historical time is not negative and the interval
    is at least 1, each predicted time has a month part between 1 and 12
    and lies later than the last historical time. *)
Theorem projected_months_are_calendar_months (data : list point) (periods : Z)
  (model : string) (timeInterval : Z) (mp : modelParams)
  (r : PredictionService.predictionResult) :
  let lastTime := time (PredictionService.lastPoint data) in
  0 <= lastTime -> 1 <= timeInterval ->
  PredictionService.generatePrediction data periods model timeInterval "yearmonth" mp
  = Ok r ->
  Forall (fun p => exists t, PredictionService.p_time p = Some t
                             /\ 1 <= Z.rem t 100 <= 12
                             /\ monthIndex lastTime < monthIndex t)
         (PredictionService.predictions r).
Proof.
  intros lastTime Hl Hi H.
  destruct (generatePrediction_payload _ _ _ _ _ _ H) as [raw [_ [Ht _]]].
  fold lastTime in Ht.
  apply Forall_map with (f := PredictionService.p_time)
                        (P := fun o => exists t, o = Some t /\ 1 <= Z.rem t 100 <= 12
                                                 /\ monthIndex lastTime < monthIndex t).
  rewrite Ht. apply Forall_map. apply Forall_map. apply Forall_forall.
  intros i Hin. apply zrange_bounds in Hin.
  destruct (@nextTime_yearmonth lastTime timeInterval i Hl Hi ltac:(lia)) as [Hr [_ Hm]].
  eexists. split; [reflexivity | split; [exact Hr |]]. rewrite Hm. nia.
Qed.

Lemma projected_months_are_calendar_months_witness :
  exists r,
    PredictionService.generatePrediction monthly 3 "linear" 1 "yearmonth" noParams = Ok r
    /\ Forall (fun p => exists t, PredictionService.p_time p = Some t
                                  /\ 1 <= Z.rem t 100 <= 12
                                  /\ monthIndex 202312 < monthIndex t)
              (PredictionService.predictions r).
Proof.
  destruct (PredictionService.generatePrediction monthly 3 "linear" 1 "yearmonth" noParams)
    as [r|e] eqn:E; [|vm_compute in E; discriminate].
  exists r. split; [reflexivity |].
  apply (@projected_months_are_calendar_months monthly 3 "linear" 1 noParams r);
    [vm_compute; discriminate | lia | exact E].
Defined.

(** X19. In exact arithmetic the coefficients autoregressive returns
    solve the Yule-Walker equations of the series: on a series of
    rationals and for an order p >= 0, a returned [phi] has p rational
    entries and, for every i < p, the sum over j < p of
    acf(|i - j|) * phi[j] is acf(i + 1), where acf is the
    autocorrelation function of the code. *)
Theorem ar_coefficients_solve_yule_walker (data : list num) (p : Z) (phi : list num) :
  allFinite data -> 0 <= p ->
  Arima.autoregressive data p = Ok phi ->
  len phi = p
  /\ allFinite phi
  /\ forall i, 0 <= i < p ->
       rowTimes (map (fun j => Arima.autocorrelation data (Z.abs (i - j))) (zrange 0 p)) phi
       = Arima.autocorrelation data (i + 1).
Proof. apply yule_walker. Qed.

Lemma ar_coefficients_solve_yule_walker_witness :
  exists phi,
    Arima.autoregressive (map ofZ [3; 8; 6; 11; 4]) 2 = Ok phi
    /\ len phi = 2
    /\ allFinite phi.
Proof.
  destruct (Arima.autoregressive (map ofZ [3; 8; 6; 11; 4]) 2) as [phi|e] eqn:E;
    [|vm_compute in E; discriminate].
  exists phi. split; [reflexivity |].
  destruct (@ar_coefficients_solve_yule_walker (map ofZ [3; 8; 6; 11; 4]) 2 phi
              ltac:(repeat constructor) ltac:(lia) E) as [H1 [H2 _]].
  split; [exact H1 | exact H2].
Defined.

(** X20. In exact arithmetic the polynomial fit is the least-squares fit.
    On a series of rationals and for a degree d >= 0, coefficients that
    calculatePolynomialCoefficients returns are d + 1 rationals that
    satisfy the normal equations: the residuals y[k] - p(k), with p
    evaluated by evaluatePolynomial, are orthogonal to every power
    k^i, i <= d, of the index; for i = 0, they sum to zero. *)
Theorem polynomial_fit_normal_equations (data : list point) (degree : Z)
  (coeffs : list num) :
  allFinite (values data) -> 0 <= degree ->
  PolynomialRegression.calculatePolynomialCoefficients data degree = Ok coeffs ->
  length coeffs = Z.to_nat (degree + 1)
  /\ allFinite coeffs
  /\ forall i, (i <= Z.to_nat degree)%nat ->
       qsum (fun k => (Qcpower (qz k) i
                       * (toQ (get (values data) k)
                          - toQ (PolynomialRegression.evaluatePolynomial coeffs k)))%Qc)
            (PolynomialRegression.indices data)
       = 0%Qc.
Proof. apply normal_equations. Qed.

Lemma polynomial_fit_normal_equations_witness :
  exists coeffs,
    PolynomialRegression.calculatePolynomialCoefficients gapped 2 = Ok coeffs
    /\ length coeffs = 3%nat
    /\ qsum (fun k => (toQ (get (values gapped) k)
                       - toQ (PolynomialRegression.evaluatePolynomial coeffs k))%Qc)
            (PolynomialRegression.indices gapped)
       = 0%Qc.
Proof.
  destruct (PolynomialRegression.calculatePolynomialCoefficients gapped 2)
    as [coeffs|e] eqn:E; [|vm_compute in E; discriminate].
  exists coeffs. split; [reflexivity |].
  destruct (@polynomial_fit_normal_equations gapped 2 coeffs
              ltac:(repeat constructor) ltac:(lia) E) as [Hl [_ Hn]].
  split; [exact Hl |].
  rewrite <- (Hn 0%nat ltac:(simpl; lia)).
  apply qsum_ext. intros k _. cbn [Qcpower]. ring.
Defined.

(** X21. Every failure of generatePrediction, by its cause.  It fails
    with the insufficient-history error below 2 points, with the
    invalid-periods error for periods <= 0 otherwise, and in every other
    case with the failure of the model wrapped with the model's name.
    The models 'linear' and 'movingAverage' never fail; 'exponential'
    fails only for want of 3 points or, for the type 'triple', of two
    seasons; 'polynomial' only for want of 3 points, of 4 points for the
    degree 3, for a degree other than 2, 3 and 'auto', or on a singular
    matrix; 'arima' only for want of 20 points, of p + d + q + 5 points,
    of p + 1 differenced values, or on a singular matrix; any other
    model name is unsupported. *)
Theorem prediction_failures (data : list point) (periods : Z) (model : string)
  (timeInterval : Z) (timeFormat : string) (mp : modelParams) (e : error) :
  PredictionService.generatePrediction data periods model timeInterval timeFormat mp
  = Err e ->
  (len data < 2 /\ e = HistoryTooShort)
  \/ (2 <= len data /\ periods <= 0 /\ e = InvalidPeriods)
  \/ (2 <= len data /\ 0 < periods
      /\ exists cause, e = ModelFailed model cause /\ modelFailure data mp model cause).
Proof. apply generatePrediction_failure. Qed.

Lemma prediction_failures_witness :
  exists cause,
    PredictionService.generatePrediction ascending 2 "polynomial" 1 "year" cubicParams
    = Err (ModelFailed "polynomial" cause)
    /\ modelFailure ascending cubicParams "polynomial" cause.
Proof.
  destruct (@prediction_failures ascending 2 "polynomial" 1 "year" cubicParams
              (ModelFailed "polynomial" (PolynomialTooFew 4)) eq_refl)
    as [[H _] | [[_ [H _]] | [_ [_ [cause [Hc Hm]]]]]].
  - vm_compute in H. discriminate.
  - lia.
  - exists cause. split; [| exact Hm]. injection Hc as <-. reflexivity.
Defined.
